(** * Coin collector: server simulation, latency layer and client interpolation

    A shallow embedding of the multiplayer coin-collector game: the Node.js
    server (authoritative simulation tick, connection registry, artificial
    latency) and the browser client (snapshot buffers, clock-skew estimate,
    interpolation).

    Modelling conventions.
    - JavaScript numbers are idealised as real numbers ([R]): rounding, NaN
      and the infinities are outside the model.  [Math.hypot] is the exact
      Euclidean norm.  Wall-clock readings ([Date.now()]) are integers
      ([Z], milliseconds).
    - Statements over the reals are kept to what rounding leaves true.
      Where the value itself is the point, the computation is followed in
      binary64 with primitive floats: the velocity ([Binary64]), the
      smoothing of the clock estimate ([Client.smooth64]) and the
      interpolation ([Client.lerp64]).
    - A JavaScript [Map] is an association list in insertion order, with
      [set] replacing in place and [delete] removing the entry.
    - Objects stored in a [Map] and mutated in place (players) are modelled
      by rewriting the entry under the same key, keeping its position.
    - [Math.random()], [Date.now()] and socket events are inputs of the
      functions that read them. *)

From Stdlib Require Import Floats.PrimFloat Floats.SpecFloat Floats.FloatOps.
From Stdlib Require Import Reals Lra Lia ZArith List Bool String Sorted.
Import ListNotations.

Set Implicit Arguments.

(** ** JavaScript [Map] with integer keys, in insertion order *)

Module JsMap.

Section Ops.
Variable V : Type.

Definition t := list (Z * V).

Definition empty : t := [].

Fixpoint get (k : Z) (m : t) : option V :=
  match m with
  | [] => None
  | (k', v) :: rest => if Z.eqb k' k then Some v else get k rest
  end.

Definition has (k : Z) (m : t) : bool :=
  match get k m with Some _ => true | None => false end.

(** [m.set(k, v)]: an existing key keeps its place, a new key goes last. *)
Fixpoint set (k : Z) (v : V) (m : t) : t :=
  match m with
  | [] => [(k, v)]
  | (k', v') :: rest =>
      if Z.eqb k' k then (k, v) :: rest else (k', v') :: set k v rest
  end.

Definition delete (k : Z) (m : t) : t :=
  filter (fun e => negb (Z.eqb (fst e) k)) m.

Definition keys (m : t) : list Z := map fst m.
Definition values (m : t) : list V := map snd m.
Definition entries (m : t) : list (Z * V) := m.
Definition size (m : t) : Z := Z.of_nat (List.length m).

(** The keys of a [Map] are pairwise distinct. *)
Definition wf (m : t) : Prop := NoDup (keys m).
End Ops.

Arguments empty {V}.

End JsMap.

(** ** The server *)

Module Server.

Local Open Scope R_scope.

(** *** Config *)

Definition WORLD_WIDTH : R := 800.
Definition WORLD_HEIGHT : R := 600.
Definition PLAYER_RADIUS : R := 15.
Definition COIN_RADIUS : R := 8.
Definition PLAYER_SPEED : R := 220.
Definition TICK_RATE : R := 30.
Definition COIN_SPAWN_INTERVAL_MS : Z := 2000.
Definition LAG_MS : Z := 100.

(** [Math.hypot(a, b)] *)
Definition hypot (a b : R) : R := sqrt (a * a + b * b).

(** *** Game state *)

(** A WebSocket object is known by its identity. *)
Definition Socket := nat.

Record Input := mkInput { up : bool; down : bool; left : bool; right : bool }.

Module Player.
Record t := mk {
  id : Z; x : R; y : R; vx : R; vy : R; score : Z; input : Input; ws : Socket
}.
End Player.

Module Coin.
Record t := mk { id : Z; x : R; y : R }.
End Coin.

Record World := mkWorld {
  nextPlayerId : Z;
  nextCoinId : Z;
  players : JsMap.t Player.t;
  coins : JsMap.t Coin.t;
  lastUpdateTime : Z
}.

(** Module-level initialisation; [t0] is the [Date.now()] read at start. *)
Definition initialWorld (t0 : Z) : World :=
  mkWorld 1 1 JsMap.empty JsMap.empty t0.

(** [randomPosition(margin = 30)]; [rx], [ry] are the two [Math.random()]
    draws, in the order they are made. *)
Definition randomPosition (rx ry : R) : R * R :=
  let margin := 30 in
  (margin + rx * (WORLD_WIDTH - 2 * margin),
   margin + ry * (WORLD_HEIGHT - 2 * margin)).

Definition createPlayer (ws : Socket) (rx ry : R) (w : World) : Player.t * World :=
  let id := nextPlayerId w in
  let pos := randomPosition rx ry in
  let player :=
    Player.mk id (fst pos) (snd pos) 0 0 0%Z (mkInput false false false false) ws in
  (player,
   mkWorld (id + 1)%Z (nextCoinId w) (JsMap.set id player (players w))
           (coins w) (lastUpdateTime w)).

(** [removePlayerBySocket]: the loop deletes the first entry whose socket
    is [ws], then breaks. *)
Fixpoint removeFirstBySocket (ws : Socket) (entries : list (Z * Player.t))
    (m : JsMap.t Player.t) : JsMap.t Player.t :=
  match entries with
  | [] => m
  | (id, p) :: rest =>
      if Nat.eqb (Player.ws p) ws then JsMap.delete id m
      else removeFirstBySocket ws rest m
  end.

Definition removePlayerBySocket (ws : Socket) (w : World) : World :=
  mkWorld (nextPlayerId w) (nextCoinId w)
          (removeFirstBySocket ws (JsMap.entries (players w)) (players w))
          (coins w) (lastUpdateTime w).

Definition spawnCoin (rx ry : R) (w : World) : World :=
  let pos := randomPosition rx ry in
  let coin := Coin.mk (nextCoinId w) (fst pos) (snd pos) in
  mkWorld (nextPlayerId w) (nextCoinId w + 1)%Z (players w)
          (JsMap.set (Coin.id coin) coin (coins w)) (lastUpdateTime w).

(** *** Game loop *)

(** Direction from the four input flags, normalised when non-zero
    (first loop of [gameLoop], up to the velocity assignment). *)
Definition direction (i : Input) : R * R :=
  let dx := 0 in
  let dy := 0 in
  let dy := if up i then dy - 1 else dy in
  let dy := if down i then dy + 1 else dy in
  let dx := if left i then dx - 1 else dx in
  let dx := if right i then dx + 1 else dx in
  let len := hypot dx dy in
  if Rgt_dec len 0 then (dx / len, dy / len) else (dx, dy).

(** Body of the first loop of [gameLoop]: velocity from the input,
    position integrated over [dt] seconds, then clamped to the world. *)
Definition updatePlayer (dt : R) (player : Player.t) : Player.t :=
  let d := direction (Player.input player) in
  let vx := fst d * PLAYER_SPEED in
  let vy := snd d * PLAYER_SPEED in
  let x := Player.x player + vx * dt in
  let y := Player.y player + vy * dt in
  let x := Rmax PLAYER_RADIUS (Rmin (WORLD_WIDTH - PLAYER_RADIUS) x) in
  let y := Rmax PLAYER_RADIUS (Rmin (WORLD_HEIGHT - PLAYER_RADIUS) y) in
  Player.mk (Player.id player) x y vx vy (Player.score player)
            (Player.input player) (Player.ws player).

Definition updatePlayers (dt : R) (m : JsMap.t Player.t) : JsMap.t Player.t :=
  map (fun e => (fst e, updatePlayer dt (snd e))) m.

(** The collision test of the second loop:
    [Math.hypot(player.x - coin.x, player.y - coin.y) <= PLAYER_RADIUS + COIN_RADIUS]. *)
Definition touches (player : Player.t) (coin : Coin.t) : bool :=
  let dist := hypot (Player.x player - Coin.x coin) (Player.y player - Coin.y coin) in
  if Rle_dec dist (PLAYER_RADIUS + COIN_RADIUS) then true else false.

Definition addScore (player : Player.t) : Player.t :=
  Player.mk (Player.id player) (Player.x player) (Player.y player)
            (Player.vx player) (Player.vy player) (Player.score player + 1)%Z
            (Player.input player) (Player.ws player).

(** Inner collision loop for one player: it walks the entries of [coins]
    and deletes from the live map each coin the player touches.  Only the
    entry being visited is ever deleted, so the entries still to visit are
    the tail of the list. *)
Fixpoint collectCoins (player : Player.t) (entries : list (Z * Coin.t))
    (coins : JsMap.t Coin.t) : Player.t * JsMap.t Coin.t :=
  match entries with
  | [] => (player, coins)
  | (coinId, coin) :: rest =>
      if touches player coin
      then collectCoins (addScore player) rest (JsMap.delete coinId coins)
      else collectCoins player rest coins
  end.

(** Outer collision loop: players in insertion order, each against the
    coins that are still in the map when its turn comes. *)
Fixpoint collide (entries : list (Z * Player.t)) (coins : JsMap.t Coin.t)
    : JsMap.t Player.t * JsMap.t Coin.t :=
  match entries with
  | [] => ([], coins)
  | (k, player) :: rest =>
      let (player', coins') := collectCoins player (JsMap.entries coins) coins in
      let (rest', coins'') := collide rest coins' in
      ((k, player') :: rest', coins'')
  end.

(** The [state] message. *)
Record PlayerState := mkPlayerState { ps_id : Z; ps_x : R; ps_y : R; ps_score : Z }.
Record CoinState := mkCoinState { cs_id : Z; cs_x : R; cs_y : R }.

Record Snapshot := mkSnapshot {
  serverTime : Z;
  snap_players : list PlayerState;
  snap_coins : list CoinState
}.

Definition makeSnapshot (now : Z) (w : World) : Snapshot :=
  mkSnapshot now
    (map (fun p => mkPlayerState (Player.id p) (Player.x p) (Player.y p) (Player.score p))
         (JsMap.values (players w)))
    (map (fun c => mkCoinState (Coin.id c) (Coin.x c) (Coin.y c))
         (JsMap.values (coins w))).

(** Elapsed seconds since the previous tick. *)
Definition elapsed (now : Z) (w : World) : R := IZR (now - lastUpdateTime w) / 1000.

(** [gameLoop], with [now] the [Date.now()] it reads: the world after the
    tick and the snapshot handed to [broadcast]. *)
Definition gameLoop (now : Z) (w : World) : World * Snapshot :=
  let dt := elapsed now w in
  let moved := updatePlayers dt (players w) in
  let (players', coins') := collide (JsMap.entries moved) (coins w) in
  let w' := mkWorld (nextPlayerId w) (nextCoinId w) players' coins' now in
  (w', makeSnapshot now w').

(** *** Messages and sockets *)

Inductive ServerMsg :=
| MsgInit (yourId : Z) (width height : R) (lagMs : Z)
| MsgPlayerCount (count : Z)
| MsgState (snapshot : Snapshot).

Inductive ReadyState := CONNECTING | OPEN | CLOSING | CLOSED.

Definition isOpen (st : ReadyState) : bool :=
  match st with OPEN => true | _ => false end.

(** A value produced by [JSON.parse]. *)
#[local] Unset Elimination Schemes.
Inductive JsValue :=
| JNull
| JBool (b : bool)
| JNumber (r : R)
| JString (s : string)
| JArray (items : list JsValue)
| JObject (props : list (string * JsValue)).
#[local] Set Elimination Schemes.

(** [!!v], with [None] for [undefined]. *)
Definition truthy (v : option JsValue) : bool :=
  match v with
  | None => false
  | Some JNull => false
  | Some (JBool b) => b
  | Some (JNumber r) => if Req_dec_T r 0 then false else true
  | Some (JString s) => match s with EmptyString => false | String _ _ => true end
  | Some (JArray _) => true
  | Some (JObject _) => true
  end.

(** [typeof v === "object"] *)
Definition isObject (v : JsValue) : bool :=
  match v with
  | JNull | JArray _ | JObject _ => true
  | _ => false
  end.

Fixpoint lookupProp (name : string) (props : list (string * JsValue)) : option JsValue :=
  match props with
  | [] => None
  | (n, v) :: rest => if String.eqb n name then Some v else lookupProp name rest
  end.

(** [v.name] for a parsed value that is an object; an array parsed from
    JSON has no property of the names read here. *)
Definition prop (name : string) (v : JsValue) : option JsValue :=
  match v with
  | JObject props => lookupProp name props
  | _ => None
  end.

Definition setInput (i : Input) (player : Player.t) : Player.t :=
  Player.mk (Player.id player) (Player.x player) (Player.y player)
            (Player.vx player) (Player.vy player) (Player.score player)
            i (Player.ws player).

(** The lookup loop of [handleClientMessage]: first player on socket [ws]. *)
Definition findBySocket (ws : Socket) (m : JsMap.t Player.t) : option (Z * Player.t) :=
  find (fun e => Nat.eqb (Player.ws (snd e)) ws) (JsMap.entries m).

Definition handleClientMessage (ws : Socket) (msg : JsValue) (w : World) : World :=
  if negb (truthy (Some msg)) || negb (isObject msg) then w
  else
    match findBySocket ws (players w) with
    | None => w
    | Some (k, player) =>
        match prop "type" msg with
        | Some (JString ty) =>
            if String.eqb ty "input" then
              let i := mkInput (truthy (prop "up" msg)) (truthy (prop "down" msg))
                               (truthy (prop "left" msg)) (truthy (prop "right" msg)) in
              mkWorld (nextPlayerId w) (nextCoinId w)
                      (JsMap.set k (setInput i player) (players w))
                      (coins w) (lastUpdateTime w)
            else w
        | _ => w
        end
    end.

(** *** Timers and the latency layer *)

(** How a piece of JavaScript ends: normally, or by throwing. *)
Inductive Completion (A : Type) :=
| Normal (a : A)
| Throw (e : string).

Arguments Throw {A} e.

(** The closures handed to [setTimeout]. *)
Inductive Callback :=
| SendIfOpen (ws : Socket) (data : ServerMsg)  (* sendWithLag *)
| SendNow (ws : Socket) (data : ServerMsg)     (* broadcast *)
| Receive (ws : Socket) (msgStr : string).     (* ws.on("message") *)

Record Timer := mkTimer { due : Z; callback : Callback }.

(** One call of [ws.send(data)], with the socket's state at the call. *)
Record SendCall := mkSendCall { target : Socket; stateAtCall : ReadyState; payload : ServerMsg }.

Record Process := mkProcess {
  world : World;
  readyState : Socket -> ReadyState;
  timers : list Timer;
  sendCalls : list SendCall;
  warnings : list string
}.

Definition setWorld (w : World) (s : Process) : Process :=
  mkProcess w (readyState s) (timers s) (sendCalls s) (warnings s).

Definition setReadyState (ws : Socket) (st : ReadyState) (s : Process) : Process :=
  mkProcess (world s) (fun ws' => if Nat.eqb ws' ws then st else readyState s ws')
            (timers s) (sendCalls s) (warnings s).

(** [setTimeout(cb, delay)] called at time [now]. *)
Definition setTimeout (now : Z) (cb : Callback) (delay : Z) (s : Process) : Process :=
  mkProcess (world s) (readyState s) (timers s ++ [mkTimer (now + delay) cb])
            (sendCalls s) (warnings s).

(** [ws.send(data)].  The library is not part of the program: the call is
    recorded with the state the socket is in, and is taken to return
    without throwing whatever that state is. *)
Definition wsSend (ws : Socket) (data : ServerMsg) (s : Process) : Process :=
  mkProcess (world s) (readyState s) (timers s)
            (sendCalls s ++ [mkSendCall ws (readyState s ws) data]) (warnings s).

Definition consoleWarn (text : string) (s : Process) : Process :=
  mkProcess (world s) (readyState s) (timers s) (sendCalls s) (warnings s ++ [text]).

Definition sendWithLag (now : Z) (ws : Socket) (msgObj : ServerMsg) (s : Process) : Process :=
  setTimeout now (SendIfOpen ws msgObj) LAG_MS s.

(** Loop of [broadcast] over [players.values()]. *)
Fixpoint broadcastTo (now : Z) (ps : list Player.t) (data : ServerMsg) (s : Process) : Process :=
  match ps with
  | [] => s
  | p :: rest =>
      let s' := if isOpen (readyState s (Player.ws p))
                then setTimeout now (SendNow (Player.ws p) data) LAG_MS s
                else s in
      broadcastTo now rest data s'
  end.

Definition broadcast (now : Z) (msgObj : ServerMsg) (s : Process) : Process :=
  broadcastTo now (JsMap.values (players (world s))) msgObj s.

Section EventLoop.

(** [JSON.parse]: a value, or a thrown [SyntaxError]. *)
Variable JSON_parse : string -> Completion JsValue.

(** Body of the delayed closure of [ws.on("message")]. *)
Definition receive (ws : Socket) (msgStr : string) (s : Process) : Completion Process :=
  match JSON_parse msgStr with
  | Throw e => Normal (consoleWarn "Invalid JSON from client:" s)
  | Normal msg => Normal (setWorld (handleClientMessage ws msg (world s)) s)
  end.

(** What a timer does when it fires. *)
Definition run (cb : Callback) (s : Process) : Completion Process :=
  match cb with
  | SendIfOpen ws data =>
      if isOpen (readyState s ws) then Normal (wsSend ws data s) else Normal s
  | SendNow ws data => Normal (wsSend ws data s)
  | Receive ws msgStr => receive ws msgStr s
  end.

(** The timers whose time has come at [now] fire in the order they were
    set; an uncaught throw ends the process. *)
Fixpoint fire (now : Z) (pending : list Timer) (s : Process) : Completion Process :=
  match pending with
  | [] => Normal s
  | tm :: rest =>
      if (due tm <=? now)%Z then
        match run (callback tm) s with
        | Normal s' => fire now rest s'
        | Throw e => Throw e
        end
      else fire now rest s
  end.

Definition keepPending (now : Z) (s : Process) : Process :=
  mkProcess (world s) (readyState s)
            (filter (fun tm => negb (due tm <=? now)%Z) (timers s))
            (sendCalls s) (warnings s).

Definition runTimers (now : Z) (s : Process) : Completion Process :=
  fire now (timers s) (keepPending now s).

(** [wss.on("connection")]: the socket is open when the handler runs. *)
Definition onConnection (now : Z) (ws : Socket) (rx ry : R) (s : Process) : Process :=
  let s := setReadyState ws OPEN s in
  let (player, w) := createPlayer ws rx ry (world s) in
  let s := setWorld w s in
  let s := sendWithLag now ws
             (MsgInit (Player.id player) WORLD_WIDTH WORLD_HEIGHT LAG_MS) s in
  broadcast now (MsgPlayerCount (JsMap.size (players (world s)))) s.

(** [ws.on("message")]: the payload waits [LAG_MS] before it is parsed. *)
Definition onMessage (now : Z) (ws : Socket) (raw : string) (s : Process) : Process :=
  setTimeout now (Receive ws raw) LAG_MS s.

(** [ws.on("close")]: the socket is closed when the handler runs. *)
Definition onClose (now : Z) (ws : Socket) (s : Process) : Process :=
  let s := setReadyState ws CLOSED s in
  let s := setWorld (removePlayerBySocket ws (world s)) s in
  broadcast now (MsgPlayerCount (JsMap.size (players (world s)))) s.

(** One firing of the [gameLoop] interval. *)
Definition onTick (now : Z) (s : Process) : Process :=
  let (w, snapshot) := gameLoop now (world s) in
  broadcast now (MsgState snapshot) (setWorld w s).

Definition onSpawn (rx ry : R) (s : Process) : Process :=
  setWorld (spawnCoin rx ry (world s)) s.

(** What the event loop can be asked to do. *)
Inductive Event :=
| Connection (ws : Socket) (rx ry : R)
| Message (ws : Socket) (raw : string)
| Close (ws : Socket)
| Tick
| Spawn (rx ry : R)
| Timers.

Definition step (now : Z) (ev : Event) (s : Process) : Completion Process :=
  match ev with
  | Connection ws rx ry => Normal (onConnection now ws rx ry s)
  | Message ws raw => Normal (onMessage now ws raw s)
  | Close ws => Normal (onClose now ws s)
  | Tick => Normal (onTick now s)
  | Spawn rx ry => Normal (onSpawn rx ry s)
  | Timers => runTimers now s
  end.

Fixpoint steps (evs : list (Z * Event)) (s : Process) : Completion Process :=
  match evs with
  | [] => Normal s
  | (now, ev) :: rest =>
      match step now ev s with
      | Normal s' => steps rest s'
      | Throw e => Throw e
      end
  end.

End EventLoop.

Definition start (t0 : Z) : Process :=
  mkProcess (initialWorld t0) (fun _ => CLOSED) [] [] [].

End Server.

(** ** The velocity as the server computes it

    The first loop of [gameLoop] up to the velocity assignment, in the
    binary64 arithmetic JavaScript evaluates it in.  The four flags are
    its only input, so that it can be followed value by value. *)

Module Binary64.

Import Server.

Local Open Scope float_scope.

Definition PLAYER_SPEED : float := 220.

(** [Math.hypot] on the arguments the loop passes it, which are 0, 1 and
    -1: their squares and the sum are exact, and what is returned is the
    correctly rounded square root. *)
Definition hypot (a b : float) : float := PrimFloat.sqrt (a * a + b * b).

Definition direction (i : Input) : float * float :=
  let dx := 0 in
  let dy := 0 in
  let dy := if up i then dy - 1 else dy in
  let dy := if down i then dy + 1 else dy in
  let dx := if left i then dx - 1 else dx in
  let dx := if right i then dx + 1 else dx in
  let len := hypot dx dy in
  if PrimFloat.ltb 0 len then (dx / len, dy / len) else (dx, dy).

(** [player.vx], [player.vy] as stored. *)
Definition velocity (i : Input) : float * float :=
  let d := direction i in
  (fst d * PLAYER_SPEED, snd d * PLAYER_SPEED).

(** The real number a binary64 value stands for, read off its sign,
    mantissa and exponent; the infinities and NaN, which the velocity
    never is, stand for 0. *)
Definition valueOfSF (f : spec_float) : R :=
  match f with
  | S754_finite s m e =>
      let n := if s then Zneg m else Zpos m in
      if (0 <=? e)%Z then IZR (n * 2 ^ e) else (IZR n / IZR (2 ^ (- e)))%R
  | _ => 0%R
  end.

Definition valueOf (f : float) : R := valueOfSF (Prim2SF f).

End Binary64.

(** ** The client *)

Module Client.

Local Open Scope R_scope.

Definition INTERP_DELAY_MS : R := 180.

(** An entry of a player's buffer: [{ time, x, y, score }]. *)
Record Sample := mkSample { time : R; x : R; y : R; score : Z }.

Record State := mkState {
  yourId : option Z;
  playerBuffers : JsMap.t (list Sample);
  coinList : list Server.CoinState;
  serverTimeOffset : R
}.

(** The smoothing expression of [handleStateSnapshot],
    [0.9 * serverTimeOffset + 0.1 * newOffset], in the binary64 arithmetic
    JavaScript evaluates it in.  It serves to check the documented example
    without the idealisation of numbers as reals. *)
Definition smooth64 (serverTimeOffset newOffset : PrimFloat.float) : PrimFloat.float :=
  PrimFloat.add (PrimFloat.mul 0x1.ccccccccccccdp-1%float serverTimeOffset)
                (PrimFloat.mul 0x1.999999999999ap-4%float newOffset).

(** The interpolation expression of [getInterpolatedPlayerState],
    [va + (vb - va) * ((renderTime - ta) / (tb - ta))], in binary64
    arithmetic, for the same purpose. *)
Definition lerp64 (renderTime ta tb va vb : PrimFloat.float) : PrimFloat.float :=
  let t := PrimFloat.div (PrimFloat.sub renderTime ta) (PrimFloat.sub tb ta) in
  PrimFloat.add va (PrimFloat.mul (PrimFloat.sub vb va) t).

(** The module-level initial values. *)
Definition initial : State := mkState None JsMap.empty [] 0.

(** [while (buf.length > 50) buf.shift()] *)
Fixpoint shiftWhileLong (buf : list Sample) : list Sample :=
  match buf with
  | [] => []
  | _ :: rest => if Nat.ltb 50 (List.length buf) then shiftWhileLong rest else buf
  end.

(** Body of the buffering loop of [handleStateSnapshot] for one player. *)
Definition bufferSample (serverTime : Z) (p : Server.PlayerState)
    (bufs : JsMap.t (list Sample)) : JsMap.t (list Sample) :=
  let id := Server.ps_id p in
  let bufs := if negb (JsMap.has id bufs) then JsMap.set id [] bufs else bufs in
  let buf := match JsMap.get id bufs with Some b => b | None => [] end in
  let buf := buf ++ [mkSample (IZR serverTime) (Server.ps_x p) (Server.ps_y p)
                              (Server.ps_score p)] in
  let buf := shiftWhileLong buf in
  JsMap.set id buf bufs.

Fixpoint bufferSamples (serverTime : Z) (players : list Server.PlayerState)
    (bufs : JsMap.t (list Sample)) : JsMap.t (list Sample) :=
  match players with
  | [] => bufs
  | p :: rest => bufferSamples serverTime rest (bufferSample serverTime p bufs)
  end.

(** The clean-up loop of [handleStateSnapshot] over [playerBuffers.keys()]:
    only the key being visited is ever deleted. *)
Fixpoint cleanUp (presentIds : list Z) (ids : list Z)
    (bufs : JsMap.t (list Sample)) : JsMap.t (list Sample) :=
  match ids with
  | [] => bufs
  | id :: rest =>
      if negb (existsb (Z.eqb id) presentIds)
      then cleanUp presentIds rest (JsMap.delete id bufs)
      else cleanUp presentIds rest bufs
  end.

(** [handleStateSnapshot], with [localNow] the [Date.now()] it reads.  The
    score display it refreshes at the end is not part of the state. *)
Definition handleStateSnapshot (localNow : Z) (snapshot : Server.Snapshot)
    (c : State) : State :=
  let serverTime := Server.serverTime snapshot in
  let players := Server.snap_players snapshot in
  let coins := Server.snap_coins snapshot in
  let newOffset := IZR serverTime - IZR localNow in
  let offset := 0.9 * serverTimeOffset c + 0.1 * newOffset in
  let bufs := bufferSamples serverTime players (playerBuffers c) in
  let presentIds := map Server.ps_id players in
  let bufs := cleanUp presentIds (JsMap.keys bufs) bufs in
  mkState (yourId c) bufs coins offset.

(** What [getInterpolatedPlayerState] returns: [null], a state, or a state
    whose coordinates are not numbers because the interpolation divided
    zero by zero. *)
Inductive Result :=
| Null
| Found (s : Sample)
| NotANumber.

(** The search loop of [getInterpolatedPlayerState]: the first pair of
    neighbours [buf[i]], [buf[i+1]] that encloses [renderTime]. *)
Fixpoint findEnclosing (renderTime : R) (buf : list Sample) : option (Sample * Sample) :=
  match buf with
  | a :: rest =>
      match rest with
      | b :: _ =>
          if Rge_dec renderTime (time a) then
            if Rle_dec renderTime (time b) then Some (a, b)
            else findEnclosing renderTime rest
          else findEnclosing renderTime rest
      | [] => None
      end
  | [] => None
  end.

Definition interpolate (renderTime : R) (a b : Sample) : Result :=
  if Req_dec_T (time b - time a) 0 then NotANumber
  else
    let t := (renderTime - time a) / (time b - time a) in
    Found (mkSample renderTime (x a + (x b - x a) * t) (y a + (y b - y a) * t) (score b)).

Definition getInterpolatedPlayerState (id : Z) (renderTime : R) (c : State) : Result :=
  match JsMap.get id (playerBuffers c) with
  | None => Null
  | Some [] => Null
  | Some (first :: rest) =>
      let buf := first :: rest in
      if Rle_dec renderTime (time first) then Found first
      else
        let last := List.last buf first in
        if Rge_dec renderTime (time last) then Found last
        else
          match findEnclosing renderTime buf with
          | Some (a, b) => interpolate renderTime a b
          | None => Found last
          end
  end.

(** The time [render] asks for, with [localNow] the [Date.now()] it reads. *)
Definition renderTime (localNow : Z) (c : State) : R :=
  IZR localNow + serverTimeOffset c - INTERP_DELAY_MS.

End Client.

(** ** Vocabulary of the statements *)

Module Vocabulary.

Import Server.

(** The world with one coin taken away before the tick. *)
Definition withoutCoin (coinId : Z) (w : World) : World :=
  mkWorld (nextPlayerId w) (nextCoinId w) (players w)
          (JsMap.delete coinId (coins w)) (lastUpdateTime w).

(** Two player records that differ at most in their score. *)
Definition sameButScore (p q : Player.t) : Prop :=
  Player.id p = Player.id q /\ Player.x p = Player.x q /\ Player.y p = Player.y q /\
  Player.vx p = Player.vx q /\ Player.vy p = Player.vy q /\
  Player.input p = Player.input q /\ Player.ws p = Player.ws q.

(** The player with [n] more points. *)
Definition credit (n : Z) (p : Player.t) : Player.t :=
  Player.mk (Player.id p) (Player.x p) (Player.y p) (Player.vx p) (Player.vy p)
            (Player.score p + n)%Z (Player.input p) (Player.ws p).

(** The players map with one more point for the player under key [k]:
    its score plus 1, everything else and everybody else as before. *)
Definition creditPlayer (k : Z) (m : JsMap.t Player.t) : JsMap.t Player.t :=
  map (fun e => if Z.eqb (fst e) k then (fst e, credit 1 (snd e)) else e) m.

(** The coins a player touches, and the others. *)
Definition touchedBy (p : Player.t) (cs : JsMap.t Coin.t) : JsMap.t Coin.t :=
  filter (fun e => touches p (snd e)) cs.

Definition untouchedBy (p : Player.t) (cs : JsMap.t Coin.t) : JsMap.t Coin.t :=
  filter (fun e => negb (touches p (snd e))) cs.

(** A position inside the world, a radius away from every wall. *)
Definition inWorld (x y : R) : Prop :=
  (PLAYER_RADIUS <= x <= WORLD_WIDTH - PLAYER_RADIUS /\
   PLAYER_RADIUS <= y <= WORLD_HEIGHT - PLAYER_RADIUS)%R.

(** The distance test of the collision pass, as a proposition. *)
Definition overlaps (p : Player.t) (c : Coin.t) : Prop :=
  (hypot (Player.x p - Coin.x c) (Player.y p - Coin.y c)
   <= PLAYER_RADIUS + COIN_RADIUS)%R.

(** Some key is held on one axis without its opposite. *)
Definition steering (i : Input) : bool :=
  xorb (left i) (right i) || xorb (up i) (down i).

(** *** The connection registry *)

(** What the registry keeps true of the players map: distinct keys, every
    player stored under its own id, every id handed out already. *)
Definition consistent (w : World) : Prop :=
  JsMap.wf (players w) /\
  forall k p, In (k, p) (players w) -> Player.id p = k /\ (k < nextPlayerId w)%Z.

(** What is kept true of the coins map: distinct keys, every coin stored
    under its own id. *)
Definition coinsKept (w : World) : Prop :=
  JsMap.wf (coins w) /\
  forall k c, In (k, c) (coins w) -> Coin.id c = k.

(** An id that was handed out and is no longer on the map. *)
Definition retired (k : Z) (w : World) : Prop :=
  (k < nextPlayerId w)%Z /\ ~ In k (JsMap.keys (players w)).

(** The registry invariant, together with a retired id. *)
Definition settled (k : Z) (w : World) : Prop := consistent w /\ retired k w.

(** *** The client's buffers *)

(** The buffer of a player, empty when the map has none. *)
Definition bufOf (id : Z) (bufs : JsMap.t (list Client.Sample)) : list Client.Sample :=
  match JsMap.get id bufs with Some b => b | None => [] end.

(** The last [n] elements of a list. *)
Definition lastN (A : Type) (n : nat) (l : list A) : list A :=
  skipn (List.length l - n) l.

(** The sample a snapshot taken at [t] holds for one of its players. *)
Definition sampleOf (t : Z) (p : PlayerState) : Client.Sample :=
  Client.mkSample (IZR t) (ps_x p) (ps_y p) (ps_score p).

(** The samples a snapshot holds for the player [id], in its order. *)
Definition samplesFor (id : Z) (s : Snapshot) : list Client.Sample :=
  map (sampleOf (serverTime s))
      (filter (fun p => Z.eqb (ps_id p) id) (snap_players s)).

(** Snapshots handled one after the other, each with the local time of
    its arrival. *)
Definition feed (arrivals : list (Z * Snapshot)) (c : Client.State) : Client.State :=
  fold_left (fun c e => Client.handleStateSnapshot (fst e) (snd e) c) arrivals c.

(** All the samples a run of snapshots holds for the player [id]. *)
Definition appended (id : Z) (arrivals : list (Z * Snapshot)) : list Client.Sample :=
  List.concat (map (fun e => samplesFor id (snd e)) arrivals).

(** Timestamps that grow strictly along the buffer. *)
Definition increasing (buf : list Client.Sample) : Prop :=
  StronglySorted Rlt (map Client.time buf).

(** The state [getInterpolatedPlayerState] builds between [a] and [b]. *)
Definition blend (renderTime : R) (a b : Client.Sample) : Client.Sample :=
  let t := ((renderTime - Client.time a) / (Client.time b - Client.time a))%R in
  Client.mkSample renderTime
    (Client.x a + (Client.x b - Client.x a) * t)%R
    (Client.y a + (Client.y b - Client.y a) * t)%R
    (Client.score b).

End Vocabulary.

(** ** Sample data *)

Module Samples.

Import Server.
Local Open Scope R_scope.

Definition idle : Input := mkInput false false false false.
Definition downRight : Input := mkInput false true false true.

(** Three idle players: the first far from coin 7, the second ten pixels
    from it and the third five pixels from it. *)
Definition alice : Player.t := Player.mk 1 100 100 0 0 0%Z idle 11%nat.
Definition bob : Player.t := Player.mk 2 300 300 0 0 4%Z idle 12%nat.
Definition carol : Player.t := Player.mk 3 305 300 0 0 2%Z idle 13%nat.

(** A player running down and right. *)
Definition runner : Player.t := Player.mk 4 400 300 0 0 0%Z downRight 14%nat.

(** A player heading right, fifteen pixels short of the right-hand limit. *)
Definition eastbound : Player.t :=
  Player.mk 5 770 300 0 0 0%Z (mkInput false false false true) 15%nat.

Definition coin7 : Coin.t := Coin.mk 7 310 300.

Definition arena : World :=
  mkWorld 4 8 [(1%Z, alice); (2%Z, bob); (3%Z, carol)] [(7%Z, coin7)] 1000.

(** A stand-in for [JSON.parse] on three payloads, named here by a word
    each: an object of type [ping], an [input] object with [up] set, and
    text that is not JSON. *)
Definition toyParse (raw : string) : Completion JsValue :=
  if String.eqb raw "PING" then Normal (JObject [("type"%string, JString "ping")])
  else if String.eqb raw "UP" then
    Normal (JObject [("type"%string, JString "input"); ("up"%string, JBool true)])
  else Throw "SyntaxError".

(** A socket that connects at 0 and closes at 40, before the messages of
    the first 100 ms are due; the game loop ticks once in between. *)
Definition lateClose : list (Z * Event) :=
  [(0%Z, Connection 1%nat (1 / 2) (1 / 2)); (33%Z, Tick); (40%Z, Close 1%nat);
   (100%Z, Timers); (133%Z, Timers)].

(** Two sockets connect, and the state the server is in afterwards. *)
Definition twoJoin : list (Z * Event) :=
  [(0%Z, Connection 1%nat (1 / 2) (1 / 2)); (5%Z, Connection 2%nat (1 / 4) (3 / 4))].

Definition lounge : Process :=
  onConnection 5 2%nat (1 / 4) (3 / 4) (onConnection 0 1%nat (1 / 2) (1 / 2) (start 0)).

(** A process whose players are those of [arena], on open sockets. *)
Definition lobby : Process :=
  mkProcess arena (fun ws => if Nat.leb 11 ws && Nat.leb ws 13 then OPEN else CLOSED)
            [] [] [].

(** The same socket, staying open. *)
Definition stayOpen : list (Z * Event) :=
  [(0%Z, Connection 1%nat (1 / 2) (1 / 2)); (100%Z, Timers)].

(** Fifty-one snapshots, one every 33 ms, each listing player 1 once. *)
Definition ticks : list (Z * Snapshot) :=
  map (fun n => ((Z.of_nat n * 33 + 140)%Z,
                 mkSnapshot (Z.of_nat n * 33)%Z [mkPlayerState 1 (IZR (Z.of_nat n)) 100 0%Z] []))
      (seq 0 51).

Definition firstSnapshot : Snapshot :=
  mkSnapshot 0 [mkPlayerState 1 0 100 0%Z] [].

Definition firstSample : Client.Sample := Client.mkSample 0 0 100 0%Z.

Definition laterSamples : list Client.Sample :=
  tl (Vocabulary.appended 1 ticks).

(** A client that holds two samples for player 1: at t=100 in (0,0) and
    at t=200 in (100,0). *)
Definition early : Client.Sample := Client.mkSample 100 0 0 3%Z.
Definition late : Client.Sample := Client.mkSample 200 100 0 4%Z.

Definition watching : Client.State :=
  Client.mkState (Some 1%Z) [(1%Z, [early; late])] [] 0.

End Samples.

(** ** The client's controls *)

Module Controls.

Import Server.

(** The four flags of [inputState], by the field a key sets. *)
Inductive Field := FieldUp | FieldDown | FieldLeft | FieldRight.

(** The [switch (e.key)] of the two key listeners; [None] is its
    [default: return]. *)
Definition keyField (key : string) : option Field :=
  if String.eqb key "w" then Some FieldUp
  else if String.eqb key "ArrowUp" then Some FieldUp
  else if String.eqb key "s" then Some FieldDown
  else if String.eqb key "ArrowDown" then Some FieldDown
  else if String.eqb key "a" then Some FieldLeft
  else if String.eqb key "ArrowLeft" then Some FieldLeft
  else if String.eqb key "d" then Some FieldRight
  else if String.eqb key "ArrowRight" then Some FieldRight
  else None.

Definition setField (f : Field) (b : bool) (i : Input) : Input :=
  match f with
  | FieldUp => mkInput b (down i) (left i) (right i)
  | FieldDown => mkInput (up i) b (left i) (right i)
  | FieldLeft => mkInput (up i) (down i) b (right i)
  | FieldRight => mkInput (up i) (down i) (left i) b
  end.

(** The client's side of the socket and of the input: [socket] is [None]
    until [connect] has run and holds the state of the socket afterwards;
    [outbox] lists what went through [socket.send], oldest first, each
    message as the value its JSON text stands for. *)
Record State := mkState {
  socket : option ReadyState;
  inputState : Input;
  lastSentInput : Input;
  outbox : list JsValue
}.

Definition initial : State :=
  mkState None (mkInput false false false false) (mkInput false false false false) [].

(** The object [sendInput] builds and sends. *)
Definition inputMessage (i : Input) : JsValue :=
  JObject [("type"%string, JString "input");
           ("up"%string, JBool (up i)); ("down"%string, JBool (down i));
           ("left"%string, JBool (left i)); ("right"%string, JBool (right i))].

(** The test [changed] of [sendInput]. *)
Definition changed (now last : Input) : bool :=
  xorb (up now) (up last) || xorb (down now) (down last)
  || xorb (left now) (left last) || xorb (right now) (right last).

Definition sendInput (st : State) : State :=
  match socket st with
  | None => st
  | Some readyState =>
      if negb (isOpen readyState) then st
      else if negb (changed (inputState st) (lastSentInput st)) then st
      else mkState (socket st) (inputState st) (inputState st)
                   (outbox st ++ [inputMessage (inputState st)])
  end.

Definition setInputState (i : Input) (st : State) : State :=
  mkState (socket st) i (lastSentInput st) (outbox st).

(** The [keydown] listener; the flag returned tells whether
    [e.preventDefault()] was called. *)
Definition keydown (key : string) (st : State) : State * bool :=
  match keyField key with
  | None => (st, false)
  | Some f => (sendInput (setInputState (setField f true (inputState st)) st), true)
  end.

(** The [keyup] listener. *)
Definition keyup (key : string) (st : State) : State * bool :=
  match keyField key with
  | None => (st, false)
  | Some f => (sendInput (setInputState (setField f false (inputState st)) st), true)
  end.

(** What happens to the controls: keys go down and up, and the browser
    moves the socket from one state to another. *)
Inductive Event :=
| KeyDown (key : string)
| KeyUp (key : string)
| SocketState (readyState : ReadyState).

Definition step (ev : Event) (st : State) : State :=
  match ev with
  | KeyDown key => fst (keydown key st)
  | KeyUp key => fst (keyup key st)
  | SocketState readyState =>
      mkState (Some readyState) (inputState st) (lastSentInput st) (outbox st)
  end.

Definition steps (evs : list Event) (st : State) : State :=
  fold_left (fun st ev => step ev st) evs st.

End Controls.

(** ** The client's screen *)

Module Screen.

Local Open Scope R_scope.

(** What [render] paints after the background, in the order it paints
    it.  A player whose state has coordinates that are not numbers is
    painted nowhere one could tell. *)
Inductive Shape :=
| CoinDisc (x y : R)
| PlayerDisc (id : Z) (x y : R) (isYou : bool)
| PlayerNowhere (id : Z) (isYou : bool)
| Hint.

(** [id === yourId] *)
Definition isYou (id : Z) (c : Client.State) : bool :=
  match Client.yourId c with
  | Some you => Z.eqb id you
  | None => false
  end.

(** The loop of [render] over [playerBuffers.entries()]. *)
Fixpoint drawPlayers (renderTime : R) (c : Client.State)
    (entries : list (Z * list Client.Sample)) : list Shape :=
  match entries with
  | [] => []
  | (id, _) :: rest =>
      match Client.getInterpolatedPlayerState id renderTime c with
      | Client.Null => drawPlayers renderTime c rest
      | Client.Found state =>
          PlayerDisc id (Client.x state) (Client.y state) (isYou id c)
          :: drawPlayers renderTime c rest
      | Client.NotANumber => PlayerNowhere id (isYou id c) :: drawPlayers renderTime c rest
      end
  end.

(** [render], with [localNow] the [Date.now()] it reads. *)
Definition render (localNow : Z) (c : Client.State) : list Shape :=
  let renderTime := Client.renderTime localNow c in
  map (fun coin => CoinDisc (Server.cs_x coin) (Server.cs_y coin)) (Client.coinList c)
  ++ drawPlayers renderTime c (JsMap.entries (Client.playerBuffers c))
  ++ (if (JsMap.size (Client.playerBuffers c) <=? 1)%Z then [Hint] else []).

(** The ids of the players painted, in the order they are painted. *)
Fixpoint paintedIds (shapes : list Shape) : list Z :=
  match shapes with
  | [] => []
  | PlayerDisc id _ _ _ :: rest => id :: paintedIds rest
  | PlayerNowhere id _ :: rest => id :: paintedIds rest
  | _ :: rest => paintedIds rest
  end.

End Screen.

(** ** More vocabulary *)

Module Measures.

Import Server Vocabulary.

(** The sum of the scores on the players map. *)
Definition totalScore (m : JsMap.t Player.t) : Z :=
  fold_right (fun e acc => (Player.score (snd e) + acc)%Z) 0%Z m.

(** A value [Math.random()] can return. *)
Definition isDraw (r : R) : Prop := (0 <= r < 1)%R.

(** An event whose random draws, if it has any, are values
    [Math.random()] can return. *)
Definition validDraws (ev : Event) : Prop :=
  match ev with
  | Connection _ rx ry => isDraw rx /\ isDraw ry
  | Spawn rx ry => isDraw rx /\ isDraw ry
  | _ => True
  end.

(** A position at least the margin of [randomPosition] from every wall. *)
Definition inMargin (x y : R) : Prop :=
  (30 <= x <= WORLD_WIDTH - 30 /\ 30 <= y <= WORLD_HEIGHT - 30)%R.

(** Every player inside the world with a score that is not negative,
    every coin inside the margin. *)
Definition placed (w : World) : Prop :=
  (forall k p, In (k, p) (players w) ->
     inWorld (Player.x p) (Player.y p) /\ (0 <= Player.score p)%Z) /\
  (forall k c, In (k, c) (coins w) -> inMargin (Coin.x c) (Coin.y c)).

(** Every coin id on the map was handed out already. *)
Definition coinsBelow (w : World) : Prop :=
  forall k, In k (JsMap.keys (coins w)) -> (k < nextCoinId w)%Z.

(** Two player records that differ at most in their input. *)
Definition sameButInput (p q : Player.t) : Prop :=
  Player.id p = Player.id q /\ Player.x p = Player.x q /\ Player.y p = Player.y q /\
  Player.vx p = Player.vx q /\ Player.vy p = Player.vy q /\
  Player.score p = Player.score q /\ Player.ws p = Player.ws q.

(** The sockets of the players on the map, in its order. *)
Definition socketsOf (m : JsMap.t Player.t) : list Socket :=
  map (fun e => Player.ws (snd e)) m.

(** A run in which every connection comes on a socket that has no player
    at that moment, as every new [WebSocket] object does. *)
Fixpoint socketsFresh (JSON_parse : string -> Completion JsValue)
    (evs : list (Z * Event)) (s : Process) : Prop :=
  match evs with
  | [] => True
  | (now, ev) :: rest =>
      match ev with
      | Connection ws _ _ => findBySocket ws (players (world s)) = None
      | _ => True
      end /\
      match step JSON_parse now ev s with
      | Normal s' => socketsFresh JSON_parse rest s'
      | Throw _ => True
      end
  end.

(** What follows a completion, when it is normal. *)
Definition andThen (c : Completion Process) (k : Process -> Completion Process)
    : Completion Process :=
  match c with
  | Normal s => k s
  | Throw e => Throw e
  end.

(** No two neighbours of the list are equal. *)
Definition neighboursDiffer (A : Type) (l : list A) : Prop :=
  forall pre a b post, l = pre ++ a :: b :: post -> a <> b.

(** What the controls keep true: the outbox holds input messages only, no
    two neighbours alike, the first not the all-false input, and
    [lastSentInput] is the input of the newest one. *)
Definition tidy (st : Controls.State) : Prop :=
  exists inputs,
    Controls.outbox st = map Controls.inputMessage inputs /\
    neighboursDiffer (Controls.lastSentInput Controls.initial :: inputs) /\
    last inputs (Controls.lastSentInput Controls.initial) = Controls.lastSentInput st.

(** Buffers whose timestamps grow strictly and do not go beyond the
    server time [t]. *)
Definition upTo (t : Z) (bufs : JsMap.t (list Client.Sample)) : Prop :=
  forall id buf, JsMap.get id bufs = Some buf ->
    increasing buf /\ forall s, In s buf -> (Client.time s <= IZR t)%R.

(** A snapshot that lists no player twice. *)
Definition listsOnce (s : Snapshot) : Prop := NoDup (map ps_id (snap_players s)).

(** The sample a client keeps of a player of the server seen at [now]. *)
Definition seenAt (now : Z) (p : Player.t) : Client.Sample :=
  Client.mkSample (IZR now) (Player.x p) (Player.y p) (Player.score p).

End Measures.


(** ** More sample data *)

Module MoreSamples.

Import Server Vocabulary Samples.
Local Open Scope R_scope.

(** The players of [arena] on open sockets, with no coin on the map and
    no timer pending. *)
Definition quietLobby : Process :=
  mkProcess (withoutCoin 7 arena) (readyState lobby) [] [] [].

(** A snapshot that lists players 2 and 3 and one coin, and a client that
    has buffers for players 1 and 2 when it arrives. *)
Definition duo : Snapshot :=
  mkSnapshot 300 [mkPlayerState 2 40 50 1%Z; mkPlayerState 3 60 70 0%Z]
             [mkCoinState 7 310 300].

Definition crowded : Client.State :=
  Client.mkState (Some 2%Z)
    [(1%Z, [early; late]); (2%Z, [Client.mkSample 200 35 50 1%Z])] [] 0.

(** The controls of a client whose socket is open and that holds no key. *)
Definition ready : Controls.State :=
  Controls.step (Controls.SocketState OPEN) Controls.initial.

(** Two snapshots of consecutive ticks, the second without player 3. *)
Definition twoTicks : list (Z * Snapshot) :=
  [(250%Z, duo); (283%Z, mkSnapshot 333 [mkPlayerState 2 45 50 1%Z] [])].

End MoreSamples.

(** * Facts about maps with distinct keys *)

Unset Implicit Arguments.

Module JsMapFacts.


Section MapFacts.
Variable V : Type.
Implicit Types (m : JsMap.t V) (k : Z) (v : V).

Lemma delete_absent k m : ~ In k (JsMap.keys m) -> JsMap.delete k m = m.
Proof.
  induction m as [|[k' v'] m IH]; simpl; intros Hn; [reflexivity|].
  destruct (Z.eqb_spec k' k) as [->|Hne]; simpl.
  - exfalso. apply Hn. now left.
  - f_equal. apply IH. intros Hin. apply Hn. now right.
Qed.

Lemma delete_app k m1 m2 :
  JsMap.delete k (m1 ++ m2) = JsMap.delete k m1 ++ JsMap.delete k m2.
Proof. unfold JsMap.delete. apply filter_app. Qed.

Lemma delete_head k v m : JsMap.delete k ((k, v) :: m) = JsMap.delete k m.
Proof. unfold JsMap.delete; simpl. now rewrite Z.eqb_refl. Qed.

Lemma keys_app m1 m2 : JsMap.keys (m1 ++ m2) = JsMap.keys m1 ++ JsMap.keys m2.
Proof. unfold JsMap.keys. apply map_app. Qed.

Lemma keys_filter_incl (f : Z * V -> bool) m k :
  In k (JsMap.keys (filter f m)) -> In k (JsMap.keys m).
Proof.
  unfold JsMap.keys. rewrite !in_map_iff.
  intros [e [He Hin]]. exists e. split; [exact He|].
  apply filter_In in Hin. tauto.
Qed.

Lemma wf_filter (f : Z * V -> bool) m : JsMap.wf m -> JsMap.wf (filter f m).
Proof.
  unfold JsMap.wf. induction m as [|[k v] m IH]; simpl; intros Hnd; [constructor|].
  inversion Hnd as [|? ? Hnotin Hnd']; subst.
  destruct (f (k, v)); simpl.
  - constructor; [|now apply IH].
    intros Hin. apply Hnotin. eapply keys_filter_incl; eauto.
  - now apply IH.
Qed.

Lemma wf_delete k m : JsMap.wf m -> JsMap.wf (JsMap.delete k m).
Proof. apply wf_filter. Qed.

Lemma get_In k v m : JsMap.get k m = Some v -> In (k, v) m.
Proof.
  induction m as [|[k' v'] m IH]; simpl; [discriminate|].
  destruct (Z.eqb_spec k' k) as [->|Hne].
  - intros [= ->]. now left.
  - intros H. right. now apply IH.
Qed.

Lemma In_get k v m : JsMap.wf m -> In (k, v) m -> JsMap.get k m = Some v.
Proof.
  unfold JsMap.wf. induction m as [|[k' v'] m IH]; simpl; [tauto|].
  intros Hnd [Heq|Hin].
  - injection Heq as -> ->. now rewrite Z.eqb_refl.
  - inversion Hnd as [|? ? Hnotin Hnd']; subst.
    destruct (Z.eqb_spec k' k) as [->|Hne].
    + exfalso. apply Hnotin. change (In (fst (k, v)) (map fst m)).
      now apply in_map.
    + now apply IH.
Qed.

Lemma get_delete_same k m : JsMap.get k (JsMap.delete k m) = None.
Proof.
  induction m as [|[k' v'] m IH]; simpl; [reflexivity|].
  destruct (Z.eqb_spec k' k) as [->|Hne]; simpl; [exact IH|].
  destruct (Z.eqb_spec k' k); [contradiction|exact IH].
Qed.

Lemma get_delete_other k k' m :
  k' <> k -> JsMap.get k' (JsMap.delete k m) = JsMap.get k' m.
Proof.
  intros Hne. induction m as [|[k0 v0] m IH]; simpl; [reflexivity|].
  destruct (Z.eqb_spec k0 k) as [->|Hne0]; simpl.
  - destruct (Z.eqb_spec k k'); [congruence|exact IH].
  - destruct (Z.eqb_spec k0 k'); [reflexivity|exact IH].
Qed.

Lemma get_None_keys k m : JsMap.get k m = None <-> ~ In k (JsMap.keys m).
Proof.
  induction m as [|[k' v'] m IH]; simpl; [tauto|].
  destruct (Z.eqb_spec k' k) as [->|Hne].
  - split; [discriminate|]. intros H. exfalso. apply H. now left.
  - rewrite IH. split; intros H; [intros [?|?]; [congruence|tauto]|tauto].
Qed.

(** In a map with distinct keys, deleting the key of an entry removes
    that entry and nothing else: what a filter counts changes by the
    entry alone. *)
Lemma filter_delete_count (f : Z * V -> bool) k v m :
  JsMap.wf m -> In (k, v) m ->
  List.length (filter f m) =
  (List.length (filter f (JsMap.delete k m)) + (if f (k, v) then 1 else 0))%nat.
Proof.
  unfold JsMap.wf. induction m as [|[k' v'] m IH]; [simpl; tauto|].
  intros Hnd Hin. inversion Hnd as [|? ? Hnotin Hnd']; subst.
  destruct Hin as [Heq|Hin].
  - injection Heq as -> ->.
    change (JsMap.delete k ((k, v) :: m)) with (filter (fun e => negb (fst e =? k)%Z) ((k, v) :: m)).
    cbn [filter fst]. rewrite Z.eqb_refl. cbn [negb].
    fold (JsMap.delete k m). rewrite delete_absent by exact Hnotin.
    destruct (f (k, v)); simpl; lia.
  - assert (Hne : k' <> k).
    { intros ->. apply Hnotin. change (In (fst (k, v)) (map fst m)).
      now apply in_map. }
    change (JsMap.delete k ((k', v') :: m)) with (filter (fun e => negb (fst e =? k)%Z) ((k', v') :: m)).
    cbn [filter fst].
    destruct (Z.eqb_spec k' k); [contradiction|]. cbn [negb filter].
    fold (JsMap.delete k m).
    specialize (IH Hnd' Hin).
    destruct (f (k', v')); simpl; lia.
Qed.

Lemma filter_delete_comm (f : Z * V -> bool) k m :
  filter f (JsMap.delete k m) = JsMap.delete k (filter f m).
Proof.
  unfold JsMap.delete. induction m as [|e m IH]; simpl; [reflexivity|].
  destruct (f e) eqn:Hf; destruct (negb (fst e =? k)%Z) eqn:Hk; simpl;
    rewrite ?Hf, ?Hk; rewrite IH; reflexivity.
Qed.

Lemma filter_delete_rejected (f : Z * V -> bool) k v m :
  JsMap.wf m -> In (k, v) m -> f (k, v) = false ->
  filter f (JsMap.delete k m) = filter f m.
Proof.
  unfold JsMap.wf. induction m as [|[k' v'] m IH]; [simpl; tauto|].
  intros Hnd Hin Hf. inversion Hnd as [|? ? Hnotin Hnd']; subst.
  destruct Hin as [Heq|Hin].
  - injection Heq as -> ->.
    change (JsMap.delete k ((k, v) :: m)) with (filter (fun e => negb (fst e =? k)%Z) ((k, v) :: m)).
    cbn [filter fst]. rewrite Z.eqb_refl, Hf. cbn [negb].
    fold (JsMap.delete k m). rewrite delete_absent by exact Hnotin.
    reflexivity.
  - assert (Hne : k' <> k).
    { intros ->. apply Hnotin. change (In (fst (k, v)) (map fst m)).
      now apply in_map. }
    change (JsMap.delete k ((k', v') :: m)) with (filter (fun e => negb (fst e =? k)%Z) ((k', v') :: m)).
    cbn [filter fst].
    destruct (Z.eqb_spec k' k); [contradiction|]. cbn [negb filter].
    fold (JsMap.delete k m). rewrite (IH Hnd' Hin Hf). reflexivity.
Qed.

Lemma get_set_same k v m : JsMap.get k (JsMap.set k v m) = Some v.
Proof.
  induction m as [|[k' v'] m IH]; simpl.
  - now rewrite Z.eqb_refl.
  - destruct (Z.eqb_spec k' k) as [->|Hne]; simpl.
    + now rewrite Z.eqb_refl.
    + destruct (Z.eqb_spec k' k); [contradiction|exact IH].
Qed.

Lemma get_set_other k k' v m :
  k' <> k -> JsMap.get k' (JsMap.set k v m) = JsMap.get k' m.
Proof.
  intros Hne. induction m as [|[k0 v0] m IH]; simpl.
  - destruct (Z.eqb_spec k k'); [congruence|reflexivity].
  - destruct (Z.eqb_spec k0 k) as [->|Hne0]; simpl.
    + destruct (Z.eqb_spec k k'); [congruence|reflexivity].
    + destruct (Z.eqb_spec k0 k'); [reflexivity|exact IH].
Qed.

Lemma keys_set k v m :
  JsMap.keys (JsMap.set k v m) =
  if JsMap.has k m then JsMap.keys m else JsMap.keys m ++ [k].
Proof.
  unfold JsMap.has. induction m as [|[k' v'] m IH]; simpl; [reflexivity|].
  destruct (Z.eqb_spec k' k) as [->|Hne]; simpl; [reflexivity|].
  rewrite IH. destruct (JsMap.get k m); reflexivity.
Qed.

Lemma has_true_keys k m : JsMap.has k m = true <-> In k (JsMap.keys m).
Proof.
  unfold JsMap.has. pose proof (get_None_keys k m) as H.
  destruct (JsMap.get k m); split; intros H1; try reflexivity; try discriminate.
  - destruct (in_dec Z.eq_dec k (JsMap.keys m)) as [Hin|Hn]; [exact Hin|].
    apply H in Hn. discriminate.
  - exfalso. now apply (proj1 H).
Qed.

Lemma wf_set k v m : JsMap.wf m -> JsMap.wf (JsMap.set k v m).
Proof.
  unfold JsMap.wf. intros Hnd. rewrite keys_set.
  destruct (JsMap.has k m) eqn:Hh; [exact Hnd|].
  apply NoDup_app; [exact Hnd|repeat constructor; simpl; tauto|].
  intros x Hx [<-|[]]. apply has_true_keys in Hx. congruence.
Qed.

Lemma keys_delete k k' m :
  In k' (JsMap.keys (JsMap.delete k m)) <-> In k' (JsMap.keys m) /\ k' <> k.
Proof.
  unfold JsMap.keys, JsMap.delete. rewrite !in_map_iff. split.
  - intros [e [<- Hin]]. apply filter_In in Hin. destruct Hin as [Hin Hne].
    split; [exists e; auto|].
    intros Heq. rewrite Heq, Z.eqb_refl in Hne. discriminate.
  - intros [[e [<- Hin]] Hne]. exists e. split; [reflexivity|].
    apply filter_In. split; [exact Hin|].
    destruct (Z.eqb_spec (fst e) k); [contradiction|reflexivity].
Qed.
End MapFacts.

End JsMapFacts.

(** * Properties of the server simulation *)

Module Simulation.

Import Server Vocabulary Samples JsMapFacts.
Local Open Scope R_scope.

(** *** The Euclidean norm *)

Lemma sum_squares_nonneg (a b : R) : 0 <= a * a + b * b.
Proof. nra. Qed.

Lemma hypot_nonneg (a b : R) : 0 <= hypot a b.
Proof. apply sqrt_pos. Qed.

Lemma hypot_square (a b : R) : hypot a b * hypot a b = a * a + b * b.
Proof. apply sqrt_sqrt, sum_squares_nonneg. Qed.

Lemma hypot_eq (a b h : R) : 0 <= h -> h * h = a * a + b * b -> hypot a b = h.
Proof.
  intros Hh Hsq. unfold hypot.
  apply sqrt_lem_1; auto using sum_squares_nonneg.
Qed.

Lemma hypot_zero_inv (a b : R) : hypot a b = 0 -> a = 0 /\ b = 0.
Proof.
  intros H. pose proof (hypot_square a b) as Hs. rewrite H in Hs.
  split; nra.
Qed.

Lemma hypot_scale (a b k : R) : 0 <= k -> hypot (a * k) (b * k) = hypot a b * k.
Proof.
  intros Hk. apply hypot_eq.
  - apply Rmult_le_pos; auto using hypot_nonneg.
  - pose proof (hypot_square a b). nra.
Qed.

Lemma hypot_unit (a b : R) :
  hypot a b > 0 -> hypot (a / hypot a b) (b / hypot a b) = 1.
Proof.
  intros Hpos. apply hypot_eq; [lra|].
  pose proof (hypot_square a b) as Hs.
  set (h := hypot a b) in *.
  assert (Hne : h <> 0) by lra.
  field_simplify_eq; [|exact Hne]. nra.
Qed.

(** Distance test with the square root removed. *)
Lemma hypot_le_iff (a b r : R) :
  0 <= r -> (hypot a b <= r <-> a * a + b * b <= r * r).
Proof.
  intros Hr. pose proof (hypot_square a b) as Hs.
  pose proof (hypot_nonneg a b) as Hn. split; intros H.
  - rewrite <- Hs. nra.
  - destruct (Rle_dec (hypot a b) r) as [Hle|Hgt]; [exact Hle|].
    exfalso. apply Rnot_le_lt in Hgt. nra.
Qed.

Lemma touches_true_iff (p : Player.t) (c : Coin.t) :
  touches p c = true <->
  hypot (Player.x p - Coin.x c) (Player.y p - Coin.y c) <= PLAYER_RADIUS + COIN_RADIUS.
Proof.
  unfold touches. destruct (Rle_dec _ _); split; intros; auto; discriminate.
Qed.

(** *** Direction and speed *)

Lemma direction_cases (i : Input) :
  let d := direction i in
  (fst d = 0 /\ snd d = 0) \/ hypot (fst d) (snd d) = 1.
Proof.
  unfold direction.
  set (dy := if down i then _ else _).
  set (dx := if right i then _ else _).
  destruct (Rgt_dec (hypot dx dy) 0) as [Hpos|Hnot]; simpl.
  - right. apply hypot_unit, Hpos.
  - left. apply hypot_zero_inv.
    pose proof (hypot_nonneg dx dy). lra.
Qed.

Lemma hypot_origin : hypot 0 0 = 0.
Proof. apply hypot_eq; lra. Qed.

(** *** Clamping *)

Lemma clamp_bounds (lo hi v : R) :
  lo <= hi -> lo <= Rmax lo (Rmin hi v) <= hi.
Proof.
  intros H. unfold Rmax, Rmin.
  destruct (Rle_dec hi v); destruct (Rle_dec lo _); lra.
Qed.

Lemma updatePlayer_bounds (dt : R) (p : Player.t) :
  PLAYER_RADIUS <= Player.x (updatePlayer dt p) <= WORLD_WIDTH - PLAYER_RADIUS /\
  PLAYER_RADIUS <= Player.y (updatePlayer dt p) <= WORLD_HEIGHT - PLAYER_RADIUS.
Proof.
  unfold updatePlayer; simpl.
  split; apply clamp_bounds; unfold PLAYER_RADIUS, WORLD_WIDTH, WORLD_HEIGHT; lra.
Qed.

(** *** The collision pass *)

Ltac player_eq :=
  unfold credit, addScore;
  cbn [Player.id Player.x Player.y Player.vx Player.vy Player.score
       Player.input Player.ws];
  f_equal; lia.

Lemma credit_zero (p : Player.t) : credit 0 p = p.
Proof. destruct p. player_eq. Qed.

Lemma credit_addScore (n : Z) (p : Player.t) :
  credit n (addScore p) = credit (1 + n) p.
Proof. player_eq. Qed.

Lemma addScore_credit (n : Z) (p : Player.t) :
  addScore (credit n p) = credit (n + 1) p.
Proof. player_eq. Qed.

Lemma delete_visited (kept rest : JsMap.t Coin.t) (k : Z) (c : Coin.t) :
  JsMap.wf (kept ++ (k, c) :: rest) ->
  JsMap.delete k (kept ++ (k, c) :: rest) = kept ++ rest.
Proof.
  unfold JsMap.wf. rewrite keys_app. simpl. intros Hnd.
  apply NoDup_remove in Hnd. destruct Hnd as [_ Hnotin].
  rewrite delete_app, delete_head.
  rewrite !delete_absent; [reflexivity| |];
    intros Hin; apply Hnotin, in_or_app; tauto.
Qed.

(** One player's walk over the coins, started on the whole map: the
    player gains one point per coin touched and exactly those coins leave
    the map. *)
Lemma collectCoins_from (es kept : JsMap.t Coin.t) (p : Player.t) :
  JsMap.wf (kept ++ es) ->
  collectCoins p es (kept ++ es) =
  (credit (Z.of_nat (List.length (touchedBy p es))) p, kept ++ untouchedBy p es).
Proof.
  revert kept p. induction es as [|[k c] rest IH]; intros kept p Hwf.
  - simpl. now rewrite credit_zero.
  - cbn [collectCoins touchedBy untouchedBy filter snd].
    destruct (touches p c) eqn:Ht; cbn [negb].
    + rewrite delete_visited by exact Hwf.
      rewrite IH.
      * rewrite credit_addScore. f_equal. f_equal.
        change (touchedBy (addScore p) rest) with (touchedBy p rest).
        cbn [List.length]. unfold touchedBy. lia.
      * unfold JsMap.wf in *. rewrite keys_app in *. simpl in Hwf.
        eapply NoDup_remove_1; eauto.
    + replace (kept ++ (k, c) :: rest) with ((kept ++ [(k, c)]) ++ rest)
        by (now rewrite <- app_assoc).
      rewrite IH.
      * rewrite <- app_assoc. reflexivity.
      * now rewrite <- app_assoc.
Qed.

Lemma collectCoins_all (cs : JsMap.t Coin.t) (p : Player.t) :
  JsMap.wf cs ->
  collectCoins p (JsMap.entries cs) cs =
  (credit (Z.of_nat (List.length (touchedBy p cs))) p, untouchedBy p cs).
Proof. intros Hwf. exact (collectCoins_from cs [] p Hwf). Qed.

Lemma collide_cons (k : Z) (p : Player.t) (rest : list (Z * Player.t))
    (cs : JsMap.t Coin.t) :
  JsMap.wf cs ->
  collide ((k, p) :: rest) cs =
  ((k, credit (Z.of_nat (List.length (touchedBy p cs))) p)
     :: fst (collide rest (untouchedBy p cs)),
   snd (collide rest (untouchedBy p cs))).
Proof.
  intros Hwf. cbn [collide]. rewrite collectCoins_all by exact Hwf.
  destruct (collide rest (untouchedBy p cs)); reflexivity.
Qed.

Lemma collide_keys (ps : list (Z * Player.t)) (cs : JsMap.t Coin.t) :
  JsMap.wf cs -> JsMap.keys (fst (collide ps cs)) = JsMap.keys ps.
Proof.
  revert cs. induction ps as [|[k p] rest IH]; intros cs Hwf; [reflexivity|].
  rewrite collide_cons by exact Hwf. simpl. f_equal.
  apply IH. now apply wf_filter.
Qed.

(** The coins that survive the pass are those no player touches. *)
Lemma collide_coins (ps : list (Z * Player.t)) (cs : JsMap.t Coin.t) :
  JsMap.wf cs ->
  snd (collide ps cs) =
  filter (fun e => negb (existsb (fun pe => touches (snd pe) (snd e)) ps)) cs.
Proof.
  revert cs. induction ps as [|[k p] rest IH]; intros cs Hwf.
  - simpl. induction cs as [|e cs IHcs]; simpl; [reflexivity|].
    f_equal. apply IHcs. unfold JsMap.wf in *. simpl in Hwf. now inversion Hwf.
  - rewrite collide_cons by exact Hwf. cbn [snd].
    rewrite IH by now apply wf_filter.
    unfold untouchedBy. clear. induction cs as [|e cs IHcs]; simpl; [reflexivity|].
    destruct (touches p (snd e)); simpl; rewrite IHcs; reflexivity.
Qed.

(** The pass changes nothing of a player but the score. *)
Lemma sameButScore_refl (p : Player.t) : sameButScore p p.
Proof. unfold sameButScore. tauto. Qed.

Lemma collectCoins_sameButScore (es cs : JsMap.t Coin.t) (p : Player.t) :
  sameButScore p (fst (collectCoins p es cs)).
Proof.
  revert cs p. induction es as [|[k c] rest IH]; intros cs p; simpl.
  - apply sameButScore_refl.
  - destruct (touches p c); [|apply IH].
    specialize (IH (JsMap.delete k cs) (addScore p)).
    unfold sameButScore in *. simpl in IH. exact IH.
Qed.

Lemma collide_sameButScore (ps : list (Z * Player.t)) (cs : JsMap.t Coin.t) :
  Forall2 (fun e e' => fst e = fst e' /\ sameButScore (snd e) (snd e'))
          ps (fst (collide ps cs)).
Proof.
  revert cs. induction ps as [|[k p] rest IH]; intros cs; simpl.
  - constructor.
  - pose proof (collectCoins_sameButScore cs cs p) as Hp.
    unfold JsMap.entries.
    destruct (collectCoins p cs cs) as [p' cs'].
    specialize (IH cs'). destruct (collide rest cs') as [rest' cs''].
    constructor; [split; [reflexivity|exact Hp]|exact IH].
Qed.

Lemma Forall2_in_r (A B : Type) (R : A -> B -> Prop) (l : list A) (l' : list B) (b : B) :
  Forall2 R l l' -> In b l' -> exists a, In a l /\ R a b.
Proof.
  induction 1 as [|a0 b0 l l' Hab _ IH]; simpl; [tauto|].
  intros [<-|Hin].
  - exists a0. auto.
  - destruct (IH Hin) as [a [Ha Hr]]. exists a. auto.
Qed.

Lemma creditPlayer_absent (k : Z) (m : JsMap.t Player.t) :
  ~ In k (JsMap.keys m) -> creditPlayer k m = m.
Proof.
  induction m as [|[k' v'] m IH]; simpl; intros Hn; [reflexivity|].
  destruct (Z.eqb_spec k' k) as [->|Hne].
  - exfalso. apply Hn. now left.
  - f_equal. apply IH. tauto.
Qed.

(** The effect of one coin on a collision pass: with the coin on the map
    the first player that touches it gets one point more than without it,
    and nothing else differs. *)
Lemma collide_one_coin (before after : list (Z * Player.t)) (k : Z) (p : Player.t)
    (cs : JsMap.t Coin.t) (coinId : Z) (coin : Coin.t) :
  JsMap.wf (before ++ (k, p) :: after) ->
  JsMap.wf cs ->
  In (coinId, coin) cs ->
  (forall e, In e before -> touches (snd e) coin = false) ->
  touches p coin = true ->
  let ps := before ++ (k, p) :: after in
  snd (collide ps cs) = snd (collide ps (JsMap.delete coinId cs)) /\
  fst (collide ps cs) = creditPlayer k (fst (collide ps (JsMap.delete coinId cs))).
Proof.
  revert cs. induction before as [|[k0 p0] before IH];
    intros cs Hps Hcs Hin Hbefore Hp ps; subst ps.
  - cbn [app].
    rewrite !collide_cons by auto using wf_delete.
    assert (Hsame : untouchedBy p (JsMap.delete coinId cs) = untouchedBy p cs).
    { unfold untouchedBy. eapply filter_delete_rejected; eauto.
      simpl. now rewrite Hp. }
    rewrite Hsame. cbn [fst snd]. split; [reflexivity|].
    unfold creditPlayer at 1. cbn [map fst snd]. rewrite Z.eqb_refl.
    fold (creditPlayer k (fst (collide after (untouchedBy p cs)))).
    rewrite creditPlayer_absent.
    + rewrite addScore_credit. f_equal. f_equal. f_equal.
      pose proof (@filter_delete_count _ (fun e => touches p (snd e))
                    coinId coin cs Hcs Hin) as Hc.
      cbn [snd] in Hc. rewrite Hp in Hc. unfold touchedBy. lia.
    + rewrite collide_keys by (unfold untouchedBy; now apply wf_filter).
      unfold JsMap.wf in Hps. simpl in Hps. now inversion Hps.
  - cbn [app].
    rewrite !collide_cons by auto using wf_delete.
    assert (Hp0 : touches p0 coin = false) by (apply (Hbefore (k0, p0)); now left).
    assert (Hne : k0 <> k).
    { intros ->. unfold JsMap.wf in Hps. simpl in Hps. inversion Hps as [|? ? Hn _].
      apply Hn. rewrite keys_app. apply in_or_app. right. now left. }
    assert (Hcount : touchedBy p0 (JsMap.delete coinId cs) = touchedBy p0 cs).
    { unfold touchedBy. eapply filter_delete_rejected; eauto. }
    assert (Hrest : untouchedBy p0 (JsMap.delete coinId cs)
                    = JsMap.delete coinId (untouchedBy p0 cs)).
    { unfold untouchedBy. apply filter_delete_comm. }
    rewrite Hcount, Hrest. cbn [fst snd].
    destruct (IH (untouchedBy p0 cs)) as [IHc IHp].
    + unfold JsMap.wf in *. simpl in Hps. now inversion Hps.
    + unfold untouchedBy. now apply wf_filter.
    + unfold untouchedBy. apply filter_In. split; [exact Hin|].
      simpl. now rewrite Hp0.
    + intros e He. apply Hbefore. now right.
    + exact Hp.
    + split; [exact IHc|].
      unfold creditPlayer at 1. cbn [map fst snd].
      destruct (Z.eqb_spec k0 k); [contradiction|].
      f_equal. exact IHp.
Qed.


Lemma updatePlayers_keys (dt : R) (m : JsMap.t Player.t) :
  JsMap.keys (updatePlayers dt m) = JsMap.keys m.
Proof.
  unfold updatePlayers, JsMap.keys. rewrite map_map. reflexivity.
Qed.

Lemma get_creditPlayer (k j : Z) (m : JsMap.t Player.t) :
  JsMap.get j (creditPlayer k m) =
  option_map (fun q => if Z.eqb j k then credit 1 q else q) (JsMap.get j m).
Proof.
  induction m as [|[k' q] m IH]; simpl; [reflexivity|].
  destruct (Z.eqb_spec k' k) as [->|Hne]; simpl.
  - destruct (Z.eqb_spec k j) as [->|Hj]; simpl; [now rewrite Z.eqb_refl|exact IH].
  - destruct (Z.eqb_spec k' j) as [->|Hj]; simpl; [|exact IH].
    destruct (Z.eqb_spec j k); [congruence|reflexivity].
Qed.

Lemma gameLoop_players (now : Z) (w : World) :
  players (fst (gameLoop now w)) =
  fst (collide (updatePlayers (elapsed now w) (players w)) (coins w)).
Proof. unfold gameLoop, JsMap.entries. destruct (collide _ _). reflexivity. Qed.

Lemma gameLoop_coins (now : Z) (w : World) :
  coins (fst (gameLoop now w)) =
  snd (collide (updatePlayers (elapsed now w) (players w)) (coins w)).
Proof. unfold gameLoop, JsMap.entries. destruct (collide _ _). reflexivity. Qed.

Lemma gameLoop_snapshot (now : Z) (w : World) :
  snd (gameLoop now w) = makeSnapshot now (fst (gameLoop now w)).
Proof. unfold gameLoop. destruct (collide _ _). reflexivity. Qed.

(** C1. In a tick, a live coin touched by one or more players (distance
    at most the sum of the radii, the boundary included) is removed, the
    first toucher in the insertion order of the players gets one point for
    it and nobody else gets anything for it: the tick ends as it would
    have without the coin, except that the score of the first toucher is
    greater by exactly 1, with nothing else of that player changed, and
    every other player ends exactly as without the coin. *)
Theorem first_toucher_collects :
  forall (now : Z) (w : World) (coinId : Z) (coin : Coin.t)
         (before after : list (Z * Player.t)) (k : Z) (p : Player.t),
    JsMap.wf (players w) ->
    JsMap.wf (coins w) ->
    JsMap.get coinId (coins w) = Some coin ->
    updatePlayers (elapsed now w) (players w) = before ++ (k, p) :: after ->
    (forall e, In e before -> ~ overlaps (snd e) coin) ->
    overlaps p coin ->
    let w1 := fst (gameLoop now w) in
    let w0 := fst (gameLoop now (withoutCoin coinId w)) in
    JsMap.get coinId (coins w1) = None /\
    coins w1 = coins w0 /\
    players w1 = creditPlayer k (players w0) /\
    (exists q q1,
        JsMap.get k (players w0) = Some q /\
        JsMap.get k (players w1) = Some q1 /\
        Player.score q1 = (Player.score q + 1)%Z /\
        sameButScore q q1) /\
    (forall j, j <> k -> JsMap.get j (players w1) = JsMap.get j (players w0)).
Proof.
  intros now w coinId coin before after k p Hps Hcs Hget Hmoved Hbefore Hp w1 w0.
  assert (Hwfm : JsMap.wf (before ++ (k, p) :: after)).
  { rewrite <- Hmoved. unfold JsMap.wf. now rewrite updatePlayers_keys. }
  assert (Hin : In (coinId, coin) (coins w)) by now apply get_In.
  assert (Hb : forall e, In e before -> touches (snd e) coin = false).
  { intros e He. apply not_true_is_false. intros Ht.
    apply (Hbefore e He). now apply touches_true_iff. }
  assert (Ht : touches p coin = true) by now apply touches_true_iff.
  destruct (@collide_one_coin before after k p (coins w) coinId coin
              Hwfm Hcs Hin Hb Ht) as [Hc Hpl].
  assert (E1 : coins w1 = snd (collide (before ++ (k, p) :: after) (coins w))).
  { subst w1. now rewrite gameLoop_coins, Hmoved. }
  assert (E2 : players w1 = fst (collide (before ++ (k, p) :: after) (coins w))).
  { subst w1. now rewrite gameLoop_players, Hmoved. }
  assert (E3 : coins w0 = snd (collide (before ++ (k, p) :: after)
                                       (JsMap.delete coinId (coins w)))).
  { subst w0. rewrite gameLoop_coins.
    change (elapsed now (withoutCoin coinId w)) with (elapsed now w).
    cbn [withoutCoin players coins]. now rewrite Hmoved. }
  assert (E4 : players w0 = fst (collide (before ++ (k, p) :: after)
                                         (JsMap.delete coinId (coins w)))).
  { subst w0. rewrite gameLoop_players.
    change (elapsed now (withoutCoin coinId w)) with (elapsed now w).
    cbn [withoutCoin players coins]. now rewrite Hmoved. }
  assert (Hcoins : coins w1 = coins w0) by congruence.
  assert (Hplayers : players w1 = creditPlayer k (players w0)) by congruence.
  split; [|split; [exact Hcoins|split; [exact Hplayers|split]]].
  - rewrite Hcoins, E3, collide_coins by now apply wf_delete.
    apply get_None_keys. intros Hk. apply keys_filter_incl in Hk.
    apply (proj1 (get_None_keys _ coinId (JsMap.delete coinId (coins w))));
      [apply get_delete_same|exact Hk].
  - assert (Hk : In k (JsMap.keys (players w0))).
    { rewrite E4, collide_keys by now apply wf_delete.
      rewrite keys_app. apply in_or_app. right. now left. }
    destruct (JsMap.get k (players w0)) as [q|] eqn:Hq.
    + exists q, (credit 1 q). split; [reflexivity|].
      split; [rewrite Hplayers, get_creditPlayer, Hq; cbn [option_map];
              now rewrite Z.eqb_refl|].
      split; [reflexivity|]. unfold sameButScore, credit. cbn. tauto.
    + exfalso. revert Hk. now apply get_None_keys.
  - intros j Hj. rewrite Hplayers, get_creditPlayer.
    destruct (Z.eqb_spec j k) as [->|_]; [now elim Hj|].
    now destruct (JsMap.get j (players w0)).
Qed.



(** *** Players that stand still *)

Lemma direction_idle : direction idle = (0, 0).
Proof.
  unfold direction, idle; cbn [up down left right].
  rewrite hypot_origin. destruct (Rgt_dec 0 0) as [H|_]; [lra|reflexivity].
Qed.

Lemma clamp_inside (lo hi v : R) : lo <= v <= hi -> Rmax lo (Rmin hi v) = v.
Proof.
  intros H. unfold Rmax, Rmin.
  destruct (Rle_dec hi v); destruct (Rle_dec lo _); lra.
Qed.

Lemma updatePlayer_idle (dt : R) (p : Player.t) :
  Player.input p = idle -> inWorld (Player.x p) (Player.y p) ->
  Player.x (updatePlayer dt p) = Player.x p /\ Player.y (updatePlayer dt p) = Player.y p.
Proof.
  intros Hi [Hx Hy]. unfold updatePlayer. cbn [Player.x Player.y].
  rewrite Hi, direction_idle. cbn [fst snd].
  replace (Player.x p + 0 * PLAYER_SPEED * dt) with (Player.x p) by lra.
  replace (Player.y p + 0 * PLAYER_SPEED * dt) with (Player.y p) by lra.
  split; apply clamp_inside; lra.
Qed.

(** *** Direction and speed, continued *)

Lemma hypot_pos (a b : R) : a <> 0 \/ b <> 0 -> hypot a b > 0.
Proof.
  intros Hab. pose proof (hypot_nonneg a b) as Hn.
  destruct (Req_dec (hypot a b) 0) as [Hz|Hnz]; [|lra].
  apply hypot_zero_inv in Hz. tauto.
Qed.

Lemma direction_steering (i : Input) :
  steering i = true -> hypot (fst (direction i)) (snd (direction i)) = 1.
Proof.
  destruct i as [[] [] [] []]; unfold steering, direction;
    cbn [up down left right xorb orb]; intros H; try discriminate;
    (destruct (Rgt_dec _ _) as [Hpos|Hn];
     [cbn [fst snd]; apply hypot_unit; exact Hpos
     |exfalso; apply Hn; apply hypot_pos; first [left; lra|right; lra]]).
Qed.

Lemma direction_not_steering (i : Input) :
  steering i = false -> direction i = (0, 0).
Proof.
  pose proof (direction_cases i) as Hc. pose proof hypot_origin as H0.
  destruct i as [[] [] [] []]; unfold steering, direction in *;
    cbn [up down left right xorb orb] in *; intros H; try discriminate;
    (destruct (Rgt_dec _ _) as [Hpos|Hn];
     [exfalso;
      match type of Hpos with
      | hypot ?a ?b > 0 =>
          replace a with 0 in Hpos by lra; replace b with 0 in Hpos by lra
      end; lra
     |f_equal; lra]).
Qed.

(** Numbers taken as reals, without rounding: whatever the four input
    flags, the direction a tick moves a player in has length at most 1,
    and as soon as some key is held without its opposite the length is 1
    and the length of the velocity is [PLAYER_SPEED]. *)
Lemma speed_without_rounding :
  forall (dt : R) (p : Player.t),
    let d := direction (Player.input p) in
    let p' := updatePlayer dt p in
    hypot (fst d) (snd d) <= 1 /\
    (steering (Player.input p) = true ->
       hypot (fst d) (snd d) = 1 /\
       hypot (Player.vx p') (Player.vy p') = PLAYER_SPEED).
Proof.
  intros dt p d p'. split.
  - destruct (direction_cases (Player.input p)) as [[Hx Hy]|H1]; fold d in Hx, Hy || fold d in H1.
    + rewrite Hx, Hy, hypot_origin. lra.
    + fold d in H1. lra.
  - intros Hs. pose proof (direction_steering _ Hs) as H1. fold d in H1.
    split; [exact H1|].
    subst p'. unfold updatePlayer. cbn [Player.vx Player.vy]. fold d.
    rewrite hypot_scale by (unfold PLAYER_SPEED; lra).
    rewrite H1. lra.
Qed.


(** *** The step at work *)

Lemma direction_right :
  direction (mkInput false false false true) = (1, 0).
Proof.
  unfold direction; cbn [up down left right].
  assert (H1 : hypot (0 + 1) 0 = 1) by (apply hypot_eq; lra).
  rewrite H1. destruct (Rgt_dec 1 0) as [_|Hn]; [|lra].
  f_equal; lra.
Qed.

(** A twentieth of a second takes [eastbound] eleven pixels to the right;
    a full second takes it to the wall and no further; [y] stays. *)
Lemma eastbound_moves :
  Player.x (updatePlayer (1 / 20) eastbound) = 781 /\
  Player.x (updatePlayer 1 eastbound) = WORLD_WIDTH - PLAYER_RADIUS /\
  Player.y (updatePlayer 1 eastbound) = 300.
Proof.
  unfold updatePlayer, eastbound.
  cbn [Player.x Player.y Player.input]. rewrite direction_right. cbn [fst snd].
  unfold PLAYER_SPEED, PLAYER_RADIUS, WORLD_WIDTH, WORLD_HEIGHT.
  repeat split.
  - rewrite clamp_inside; lra.
  - unfold Rmax, Rmin. destruct (Rle_dec _ _); destruct (Rle_dec _ _); lra.
  - rewrite clamp_inside; lra.
Qed.


Lemma overlaps_iff (p : Player.t) (c : Coin.t) :
  overlaps p c <->
  (Player.x p - Coin.x c) * (Player.x p - Coin.x c)
  + (Player.y p - Coin.y c) * (Player.y p - Coin.y c)
  <= (PLAYER_RADIUS + COIN_RADIUS) * (PLAYER_RADIUS + COIN_RADIUS).
Proof.
  unfold overlaps. apply hypot_le_iff. unfold PLAYER_RADIUS, COIN_RADIUS. lra.
Qed.

(** In [arena] the third player is within reach of coin 7 as well, and
    comes after the second. *)
Lemma carol_overlaps_too :
  overlaps (updatePlayer (elapsed 1033 arena) carol) coin7.
Proof.
  assert (Hc : inWorld (Player.x carol) (Player.y carol))
    by (unfold inWorld, PLAYER_RADIUS, WORLD_WIDTH, WORLD_HEIGHT; simpl; lra).
  destruct (updatePlayer_idle (elapsed 1033 arena) carol eq_refl Hc) as [Hx Hy].
  rewrite overlaps_iff, Hx, Hy.
  unfold PLAYER_RADIUS, COIN_RADIUS. simpl. lra.
Qed.

Lemma first_toucher_collects_witness :
  let w1 := fst (gameLoop 1033 arena) in
  let w0 := fst (gameLoop 1033 (withoutCoin 7 arena)) in
  (JsMap.get 7 (coins w1) = None /\
   coins w1 = coins w0 /\
   players w1 = creditPlayer 2 (players w0) /\
   (exists q q1,
       JsMap.get 2 (players w0) = Some q /\
       JsMap.get 2 (players w1) = Some q1 /\
       Player.score q1 = (Player.score q + 1)%Z /\
       sameButScore q q1) /\
   (forall j, j <> 2%Z -> JsMap.get j (players w1) = JsMap.get j (players w0))) /\
  Player.score bob = 4%Z /\
  exists q1, JsMap.get 2 (players w1) = Some q1 /\ Player.score q1 = 5%Z.
Proof.
  intros w1 w0.
  assert (Ha : inWorld (Player.x alice) (Player.y alice))
    by (unfold inWorld, PLAYER_RADIUS, WORLD_WIDTH, WORLD_HEIGHT; simpl; lra).
  assert (Hb : inWorld (Player.x bob) (Player.y bob))
    by (unfold inWorld, PLAYER_RADIUS, WORLD_WIDTH, WORLD_HEIGHT; simpl; lra).
  destruct (updatePlayer_idle (elapsed 1033 arena) alice eq_refl Ha) as [Hax Hay].
  destruct (updatePlayer_idle (elapsed 1033 arena) bob eq_refl Hb) as [Hbx Hby].
  assert (Hall := @first_toucher_collects 1033 arena 7 coin7
           [(1%Z, updatePlayer (elapsed 1033 arena) alice)]
           [(3%Z, updatePlayer (elapsed 1033 arena) carol)]
           2 (updatePlayer (elapsed 1033 arena) bob)).
  cbv zeta in Hall. fold w1 w0 in Hall.
  assert (Hmet : JsMap.get 7 (coins w1) = None /\
   coins w1 = coins w0 /\
   players w1 = creditPlayer 2 (players w0) /\
   (exists q q1,
       JsMap.get 2 (players w0) = Some q /\
       JsMap.get 2 (players w1) = Some q1 /\
       Player.score q1 = (Player.score q + 1)%Z /\
       sameButScore q q1) /\
   (forall j, j <> 2%Z -> JsMap.get j (players w1) = JsMap.get j (players w0))).
  { apply Hall.
    - unfold JsMap.wf. simpl. repeat constructor; simpl; intuition lia.
    - unfold JsMap.wf. simpl. repeat constructor; simpl; intuition lia.
    - reflexivity.
    - reflexivity.
    - intros e [<-|[]]. cbn [snd]. rewrite overlaps_iff, Hax, Hay.
      unfold PLAYER_RADIUS, COIN_RADIUS. simpl. lra.
    - rewrite overlaps_iff, Hbx, Hby.
      unfold PLAYER_RADIUS, COIN_RADIUS. simpl. lra. }
  split; [exact Hmet|]. split; [reflexivity|].
  destruct Hmet as (_ & _ & _ & (q & q1 & Hq & Hq1 & Hs & _) & _).
  exists q1. split; [exact Hq1|].
  assert (Hq0 : JsMap.get 2 (players w0) = Some (updatePlayer (elapsed 1033 arena) bob))
    by reflexivity.
  rewrite Hq0 in Hq. injection Hq as <-. rewrite Hs. reflexivity.
Defined.


End Simulation.

(** * Properties of the client *)

Module Buffering.

Import Vocabulary JsMapFacts Samples.
Local Open Scope R_scope.

(** *** Keeping the last fifty *)

Section LastN.
Variable A : Type.
Implicit Types (l : list A) (n : nat).

Lemma lastN_length n l : (List.length (lastN n l) <= n)%nat.
Proof. unfold lastN. rewrite length_skipn. lia. Qed.

Lemma lastN_short n l : (List.length l <= n)%nat -> lastN n l = l.
Proof.
  intros H. unfold lastN. replace (List.length l - n)%nat with 0%nat by lia.
  reflexivity.
Qed.

Lemma lastN_cons_long n a l :
  (n <= List.length l)%nat -> lastN n (a :: l) = lastN n l.
Proof.
  intros H. unfold lastN. cbn [List.length].
  replace (S (List.length l) - n)%nat with (S (List.length l - n)) by lia.
  reflexivity.
Qed.

(** Trimming early or late makes no difference to what is kept. *)
Lemma lastN_app_lastN n l l' : lastN n (lastN n l ++ l') = lastN n (l ++ l').
Proof.
  unfold lastN. rewrite !length_app, !skipn_app, length_skipn, skipn_skipn.
  f_equal; f_equal; lia.
Qed.
End LastN.

Lemma shiftWhileLong_lastN (buf : list Client.Sample) :
  Client.shiftWhileLong buf = lastN 50 buf.
Proof.
  induction buf as [|a rest IH]; [reflexivity|].
  cbn [Client.shiftWhileLong].
  destruct (Nat.ltb_spec 50 (List.length (a :: rest))) as [Hlong|Hshort].
  - rewrite IH. symmetry. apply lastN_cons_long. cbn [List.length] in Hlong. lia.
  - symmetry. apply lastN_short. exact Hshort.
Qed.

(** *** Buffering one snapshot *)

Lemma get_bufferSample (t id : Z) (p : Server.PlayerState)
    (bufs : JsMap.t (list Client.Sample)) :
  JsMap.get id (Client.bufferSample t p bufs) =
  if Z.eqb (Server.ps_id p) id
  then Some (lastN 50 (bufOf id bufs ++ [sampleOf t p]))
  else JsMap.get id bufs.
Proof.
  unfold Client.bufferSample.
  destruct (Z.eqb_spec (Server.ps_id p) id) as [<-|Hne].
  - rewrite get_set_same, shiftWhileLong_lastN. f_equal. f_equal. f_equal.
    unfold bufOf, JsMap.has.
    destruct (JsMap.get (Server.ps_id p) bufs) eqn:Hg; cbn [negb].
    + now rewrite Hg.
    + now rewrite get_set_same.
  - rewrite get_set_other by congruence.
    destruct (negb (JsMap.has (Server.ps_id p) bufs)); [|reflexivity].
    apply get_set_other. congruence.
Qed.

Lemma get_bufferSamples (t id : Z) (players : list Server.PlayerState)
    (bufs : JsMap.t (list Client.Sample)) :
  JsMap.get id (Client.bufferSamples t players bufs) =
  match map (sampleOf t) (filter (fun p => Z.eqb (Server.ps_id p) id) players) with
  | [] => JsMap.get id bufs
  | smps => Some (lastN 50 (bufOf id bufs ++ smps))
  end.
Proof.
  revert bufs. induction players as [|p rest IH]; intros bufs; [reflexivity|].
  cbn [Client.bufferSamples filter]. rewrite IH.
  pose proof (get_bufferSample t id p bufs) as Hp.
  destruct (Z.eqb (Server.ps_id p) id) eqn:Heq; cbn [map].
  - unfold bufOf at 1. rewrite Hp.
    destruct (map (sampleOf t) (filter _ rest)) as [|s smps]; [reflexivity|].
    rewrite lastN_app_lastN, <- app_assoc. reflexivity.
  - unfold bufOf at 1. rewrite Hp. reflexivity.
Qed.

Lemma cleanUp_present (present ids : list Z) (id : Z)
    (bufs : JsMap.t (list Client.Sample)) :
  existsb (Z.eqb id) present = true ->
  JsMap.get id (Client.cleanUp present ids bufs) = JsMap.get id bufs.
Proof.
  intros Hp. revert bufs. induction ids as [|id' rest IH]; intros bufs; [reflexivity|].
  cbn [Client.cleanUp].
  destruct (existsb (Z.eqb id') present) eqn:He; cbn [negb]; [apply IH|].
  rewrite IH. apply get_delete_other. intros ->. congruence.
Qed.

Lemma cleanUp_keeps_none (present ids : list Z) (id : Z)
    (bufs : JsMap.t (list Client.Sample)) :
  JsMap.get id bufs = None ->
  JsMap.get id (Client.cleanUp present ids bufs) = None.
Proof.
  revert bufs. induction ids as [|id' rest IH]; intros bufs Hn; [exact Hn|].
  cbn [Client.cleanUp].
  destruct (existsb (Z.eqb id') present); cbn [negb]; apply IH; [exact Hn|].
  destruct (Z.eq_dec id id') as [->|Hne].
  - apply get_delete_same.
  - rewrite get_delete_other by exact Hne. exact Hn.
Qed.

Lemma cleanUp_absent (present ids : list Z) (id : Z)
    (bufs : JsMap.t (list Client.Sample)) :
  existsb (Z.eqb id) present = false ->
  In id ids ->
  JsMap.get id (Client.cleanUp present ids bufs) = None.
Proof.
  intros Hp. revert bufs. induction ids as [|id' rest IH]; intros bufs Hin; [destruct Hin|].
  cbn [Client.cleanUp].
  destruct (Z.eq_dec id' id) as [->|Hne].
  - rewrite Hp. cbn [negb]. apply cleanUp_keeps_none, get_delete_same.
  - destruct Hin as [Heq|Hin]; [contradiction|].
    destruct (existsb (Z.eqb id') present); cbn [negb]; now apply IH.
Qed.

Lemma listed_iff (id : Z) (players : list Server.PlayerState) :
  existsb (Z.eqb id) (map Server.ps_id players) = true <->
  filter (fun p => Z.eqb (Server.ps_id p) id) players <> [].
Proof.
  induction players as [|p rest IH]; simpl.
  - split; [discriminate|congruence].
  - rewrite (Z.eqb_sym id). destruct (Z.eqb (Server.ps_id p) id); simpl.
    + split; [discriminate|reflexivity].
    + exact IH.
Qed.

(** What one snapshot does to the buffer of a player: nothing is left
    when the snapshot does not list the player; otherwise its samples go
    to the end and the last fifty are kept. *)
Lemma get_handleStateSnapshot (localNow id : Z) (s : Server.Snapshot) (c : Client.State) :
  JsMap.get id (Client.playerBuffers (Client.handleStateSnapshot localNow s c)) =
  match samplesFor id s with
  | [] => None
  | smps => Some (lastN 50 (bufOf id (Client.playerBuffers c) ++ smps))
  end.
Proof.
  unfold Client.handleStateSnapshot. cbn [Client.playerBuffers].
  set (bufs := Client.bufferSamples _ _ _).
  pose proof (get_bufferSamples (Server.serverTime s) id (Server.snap_players s)
                                (Client.playerBuffers c)) as Hb.
  fold bufs in Hb. unfold samplesFor.
  pose proof (listed_iff id (Server.snap_players s)) as Hl.
  destruct (filter _ (Server.snap_players s)) as [|p ps] eqn:Hf; cbn [map] in *.
  - assert (Hp : existsb (Z.eqb id) (map Server.ps_id (Server.snap_players s)) = false).
    { apply not_true_is_false. intros H. apply Hl in H. congruence. }
    destruct (JsMap.get id bufs) eqn:Hg.
    + apply cleanUp_absent; [exact Hp|].
      destruct (in_dec Z.eq_dec id (JsMap.keys bufs)) as [Hin|Hn]; [exact Hin|].
      apply get_None_keys in Hn. congruence.
    + now apply cleanUp_keeps_none.
  - rewrite cleanUp_present; [exact Hb|].
    apply Hl. discriminate.
Qed.


(** *** A run of snapshots *)

Lemma bufOf_handleStateSnapshot (localNow id : Z) (s : Server.Snapshot) (c : Client.State) :
  samplesFor id s <> [] ->
  JsMap.get id (Client.playerBuffers (Client.handleStateSnapshot localNow s c)) =
  Some (lastN 50 (bufOf id (Client.playerBuffers c) ++ samplesFor id s)).
Proof.
  intros Hne. rewrite get_handleStateSnapshot.
  destruct (samplesFor id s); [congruence|reflexivity].
Qed.

Lemma feed_buffer (id : Z) (arrivals : list (Z * Server.Snapshot)) (c : Client.State) :
  Forall (fun e => samplesFor id (snd e) <> []) arrivals ->
  (List.length (bufOf id (Client.playerBuffers c)) <= 50)%nat ->
  bufOf id (Client.playerBuffers (feed arrivals c)) =
  lastN 50 (bufOf id (Client.playerBuffers c) ++ appended id arrivals).
Proof.
  revert c. induction arrivals as [|[localNow s] rest IH]; intros c Hall Hlen.
  - cbn. rewrite app_nil_r. symmetry. now apply lastN_short.
  - inversion Hall as [|? ? Hs Hrest]; subst. cbn [snd] in Hs.
    cbn [feed fold_left fst snd]. fold (feed rest (Client.handleStateSnapshot localNow s c)).
    pose proof (bufOf_handleStateSnapshot localNow id s c Hs) as Hg.
    rewrite IH; [|exact Hrest|].
    + unfold bufOf at 1. rewrite Hg.
      unfold appended. cbn [map List.concat snd].
      rewrite lastN_app_lastN, <- app_assoc. reflexivity.
    + unfold bufOf. rewrite Hg. apply lastN_length.
Qed.

Lemma feed_has_buffer (id : Z) (arrivals : list (Z * Server.Snapshot)) (c : Client.State) :
  Forall (fun e => samplesFor id (snd e) <> []) arrivals ->
  arrivals <> [] \/ JsMap.get id (Client.playerBuffers c) <> None ->
  JsMap.get id (Client.playerBuffers (feed arrivals c)) <> None.
Proof.
  revert c. induction arrivals as [|[localNow s] rest IH]; intros c Hall Hor.
  - destruct Hor as [H|H]; [congruence|exact H].
  - inversion Hall as [|? ? Hs Hrest]; subst. cbn [snd] in Hs.
    cbn [feed fold_left fst snd]. fold (feed rest (Client.handleStateSnapshot localNow s c)).
    apply IH; [exact Hrest|]. right.
    rewrite (bufOf_handleStateSnapshot localNow id s c Hs). discriminate.
Qed.

Lemma increasing_from_Z (zs : list Z) :
  StronglySorted Z.lt zs -> StronglySorted Rlt (map IZR zs).
Proof.
  induction 1 as [|z zs _ IH Hall]; cbn [map]; constructor; [exact IH|].
  rewrite Forall_forall in *. intros r Hr. apply in_map_iff in Hr.
  destruct Hr as [z' [<- Hz']]. apply IZR_lt. now apply Hall.
Qed.

Lemma increasing_head_not_in (first : Client.Sample) (others : list Client.Sample) :
  increasing (first :: others) -> ~ In first others /\ increasing others.
Proof.
  unfold increasing. cbn [map]. intros H.
  inversion H as [|? ? Hrest Hall]; subst. split; [|exact Hrest].
  intros Hin. rewrite Forall_forall in Hall.
  specialize (Hall (Client.time first) (in_map Client.time _ _ Hin)). lra.
Qed.

(** C6. Every snapshot moves the clock-skew estimate to nine tenths of
    its old value plus one tenth of (server time - local time); the
    estimate starts at 0, so a first snapshot stamped 500 ms ahead of the
    local clock leaves it at 50, in the reals and in binary64 arithmetic
    alike. *)
Theorem skew_is_smoothed :
  forall (localNow : Z) (snapshot : Server.Snapshot) (c : Client.State),
    Client.serverTimeOffset (Client.handleStateSnapshot localNow snapshot c) =
      0.9 * Client.serverTimeOffset c
      + 0.1 * (IZR (Server.serverTime snapshot) - IZR localNow)
    /\ Client.serverTimeOffset Client.initial = 0
    /\ (forall players coins,
          Client.serverTimeOffset
            (Client.handleStateSnapshot localNow
               (Server.mkSnapshot (localNow + 500) players coins) Client.initial)
          = 50)
    /\ Client.smooth64 0%float 500%float = 50%float.
Proof.
  intros localNow snapshot c. split; [reflexivity|]. split; [reflexivity|].
  split; [|reflexivity].
  intros players coins. cbn. rewrite plus_IZR. lra.
Qed.

(** C7. Whatever snapshot is handled, no buffer is left with more than
    fifty samples; and what is evicted is the oldest: a snapshot that
    lists the player leaves the last fifty of the old buffer followed by
    the new samples, so that after fifty-one appends with growing
    timestamps onto an empty buffer the first sample is gone and the other
    fifty remain, in their order. *)
Theorem buffer_keeps_last_fifty :
  forall (id : Z) (c : Client.State),
    (forall localNow snapshot buf,
        JsMap.get id (Client.playerBuffers (Client.handleStateSnapshot localNow snapshot c))
        = Some buf ->
        (List.length buf <= 50)%nat) /\
    (forall localNow snapshot,
        samplesFor id snapshot <> [] ->
        JsMap.get id (Client.playerBuffers (Client.handleStateSnapshot localNow snapshot c))
        = Some (lastN 50 (bufOf id (Client.playerBuffers c) ++ samplesFor id snapshot))) /\
    (forall arrivals first others,
        bufOf id (Client.playerBuffers c) = [] ->
        Forall (fun e => samplesFor id (snd e) <> []) arrivals ->
        appended id arrivals = first :: others ->
        List.length others = 50%nat ->
        increasing (first :: others) ->
        JsMap.get id (Client.playerBuffers (feed arrivals c)) = Some others /\
        ~ In first others /\
        increasing others).
Proof.
  intros id c. split; [|split].
  - intros localNow snapshot buf Hg. rewrite get_handleStateSnapshot in Hg.
    destruct (samplesFor id snapshot); [discriminate|].
    injection Hg as <-. apply lastN_length.
  - intros localNow snapshot Hlisted. now apply bufOf_handleStateSnapshot.
  - intros arrivals first others Hempty Hall Happ Hlen Hinc.
    assert (Hbuf : bufOf id (Client.playerBuffers (feed arrivals c)) = others).
    { rewrite feed_buffer by (try exact Hall; rewrite Hempty; cbn; lia).
      rewrite Hempty, Happ. cbn [app].
      rewrite lastN_cons_long by lia. apply lastN_short. lia. }
    assert (Hsome : JsMap.get id (Client.playerBuffers (feed arrivals c)) <> None).
    { apply feed_has_buffer; [exact Hall|]. left. intros ->. discriminate. }
    split; [|now apply increasing_head_not_in].
    unfold bufOf in Hbuf.
    destruct (JsMap.get id (Client.playerBuffers (feed arrivals c))); congruence.
Qed.


Lemma ticks_list_player_1 :
  Forall (fun e => samplesFor 1 (snd e) <> []) ticks.
Proof.
  unfold ticks. apply Forall_forall. intros e He. apply in_map_iff in He.
  destruct He as [n [<- _]]. cbn. discriminate.
Qed.

Lemma ticks_increasing : increasing (firstSample :: laterSamples).
Proof.
  unfold increasing.
  change (map Client.time (firstSample :: laterSamples))
    with (map IZR (map (fun n => (Z.of_nat n * 33)%Z) (seq 0 51))).
  apply increasing_from_Z. vm_compute.
  repeat (constructor; [|repeat (constructor; [reflexivity|]); constructor]).
  constructor.
Qed.

Lemma buffer_keeps_last_fifty_witness :
  (List.length [firstSample] <= 50)%nat /\
  JsMap.get 1 (Client.playerBuffers
                 (Client.handleStateSnapshot 140 firstSnapshot Client.initial))
  = Some (lastN 50 ([] ++ samplesFor 1 firstSnapshot)) /\
  JsMap.get 1 (Client.playerBuffers (feed ticks Client.initial)) = Some laterSamples /\
  ~ In firstSample laterSamples /\
  increasing laterSamples.
Proof.
  destruct (buffer_keeps_last_fifty 1 Client.initial) as (Hbound & Hstep & Hevict).
  split; [|split].
  - apply (Hbound 140%Z firstSnapshot [firstSample]). reflexivity.
  - apply (Hstep 140%Z firstSnapshot). cbn. discriminate.
  - apply (Hevict ticks firstSample laterSamples).
    + reflexivity.
    + exact ticks_list_player_1.
    + reflexivity.
    + reflexivity.
    + exact ticks_increasing.
Defined.


End Buffering.

(** * Properties of the interpolation *)

Module Interpolation.

Import Vocabulary JsMapFacts Samples.
Local Open Scope R_scope.

Lemma last_default (A : Type) (l : list A) (d d' : A) :
  l <> [] -> last l d = last l d'.
Proof.
  induction l as [|a l IH]; [congruence|]. intros _.
  destruct l as [|b l]; [reflexivity|].
  cbn [last] in *. apply IH. discriminate.
Qed.

Lemma last_step (a b : Client.Sample) (rest : list Client.Sample) :
  last (a :: b :: rest) a = last (b :: rest) b.
Proof.
  change (last (a :: b :: rest) a) with (last (b :: rest) a).
  apply last_default. discriminate.
Qed.

(** The search loop, started on a sample older than the render time in a
    buffer whose last sample is newer: it stops at the first sample that
    is not older than the render time, paired with its predecessor. *)
Lemma findEnclosing_between (T : R) (rest : list Client.Sample) (a0 : Client.Sample) :
  Client.time a0 < T ->
  T < Client.time (last (a0 :: rest) a0) ->
  exists pre a b post,
    a0 :: rest = pre ++ a :: b :: post /\
    (forall s, In s pre -> Client.time s < T) /\
    Client.time a < T <= Client.time b /\
    Client.findEnclosing T (a0 :: rest) = Some (a, b).
Proof.
  revert a0. induction rest as [|b0 rest IH]; intros a0 Hlo Hhi.
  - cbn in Hhi. lra.
  - cbn [Client.findEnclosing].
    destruct (Rge_dec T (Client.time a0)) as [_|Hn]; [|lra].
    destruct (Rle_dec T (Client.time b0)) as [Hle|Hgt].
    + exists [], a0, b0, rest. repeat split; auto; try lra.
      intros s [].
    + rewrite last_step in Hhi.
      destruct (IH b0) as (pre & a & b & post & Heq & Hpre & Hab & Hfind);
        [lra|exact Hhi|].
      exists (a0 :: pre), a, b, post. repeat split; try tauto.
      * cbn [app]. now rewrite Heq.
      * intros s [<-|Hs]; [exact Hlo|now apply Hpre].
Qed.



Lemma interpolate_defined (T : R) (a b : Client.Sample) :
  Client.time a < Client.time b ->
  Client.interpolate T a b = Client.Found (blend T a b).
Proof.
  intros Hab. unfold Client.interpolate.
  destruct (Req_dec_T (Client.time b - Client.time a) 0) as [Hz|_]; [lra|reflexivity].
Qed.

Lemma increasing_neighbours (pre post : list Client.Sample) (a b : Client.Sample) :
  increasing (pre ++ a :: b :: post) -> Client.time a < Client.time b.
Proof.
  unfold increasing. induction pre as [|s pre IH]; cbn [app map]; intros H.
  - inversion H as [|? ? _ Hall]; subst. now inversion Hall.
  - inversion H; subst. now apply IH.
Qed.

Lemma increasing_first_last (first : Client.Sample) (rest : list Client.Sample) :
  increasing (first :: rest) -> rest <> [] ->
  Client.time first < Client.time (last (first :: rest) first).
Proof.
  unfold increasing. cbn [map]. intros H Hne.
  inversion H as [|? ? _ Hall]; subst. rewrite Forall_forall in Hall.
  apply Hall. apply in_map.
  destruct rest as [|b rest]; [congruence|].
  change (last (first :: b :: rest) first) with (last (b :: rest) first).
  clear. revert b. induction rest as [|b' rest IH]; intros b; [now left|].
  right. apply IH.
Qed.

(** The whole of [getInterpolatedPlayerState] on a buffer that is not
    empty. *)
Lemma interpolated_cases (id : Z) (T : R) (c : Client.State)
    (first : Client.Sample) (rest : list Client.Sample) :
  JsMap.get id (Client.playerBuffers c) = Some (first :: rest) ->
  let buf := first :: rest in
  let latest := last buf first in
  let result := Client.getInterpolatedPlayerState id T c in
  (T <= Client.time first -> result = Client.Found first) /\
  (Client.time first < T -> T >= Client.time latest -> result = Client.Found latest) /\
  (Client.time first < T < Client.time latest ->
     exists pre a b post,
       buf = pre ++ a :: b :: post /\
       (forall s, In s pre -> Client.time s < T) /\
       Client.time a < T <= Client.time b /\
       Client.findEnclosing T buf = Some (a, b) /\
       result = Client.Found (blend T a b)).
Proof.
  intros Hget buf latest result. subst result.
  unfold Client.getInterpolatedPlayerState. rewrite Hget.
  fold buf. fold latest.
  destruct (Rle_dec T (Client.time first)) as [Hle|Hgt].
  - split; [reflexivity|]. split; intros; lra.
  - destruct (Rge_dec T (Client.time latest)) as [Hge|Hlt].
    + split; [intros; lra|]. split; [reflexivity|intros; lra].
    + split; [intros; lra|]. split; [intros; lra|]. intros Hin.
      destruct (findEnclosing_between T rest first) as
        (pre & a & b & post & Heq & Hpre & Hab & Hfind); [lra|fold buf latest; lra|].
      exists pre, a, b, post. fold buf in Hfind, Heq. rewrite Hfind.
      repeat split; try tauto. apply interpolate_defined. lra.
Qed.


Lemma two_samples_split (A : Type) (s1 s2 a b : A) (pre post : list A) :
  [s1; s2] = pre ++ a :: b :: post -> a = s1 /\ b = s2.
Proof.
  destruct pre as [|x pre]; cbn [app]; intros H.
  - injection H as <- <- _. auto.
  - injection H as _ H. destruct pre as [|y pre]; cbn [app] in H.
    + discriminate.
    + injection H as _ H. destruct pre; discriminate.
Qed.

(** C4. What the interpolation returns.  Without samples for the player:
    nothing.  Otherwise, cases tried in this order: a render time at or
    before the time of the first sample gives the first sample as it is; a
    render time at or after the time of the last sample gives the last
    sample as it is (on a buffer with growing timestamps the two cases
    meet only when they name the same sample); in between, the state is
    blended from two neighbours [a], [b] with [a.time <= T <= b.time], [b]
    being the first sample not older than [T]: position
    [a + (b - a) * (T - a.time) / (b.time - a.time)] and the score of [b].
    With samples at t=100 in (0,0) and t=200 in (100,0): (50,0) at T=150,
    (0,0) at T=50, (100,0) at T=300; the blend at T=150 is (50,0) in
    binary64 arithmetic as well. *)
Theorem interpolation_follows_the_buffer :
  (forall (id : Z) (T : R) (c : Client.State),
     let result := Client.getInterpolatedPlayerState id T c in
     (bufOf id (Client.playerBuffers c) = [] -> result = Client.Null) /\
     (forall first rest,
        JsMap.get id (Client.playerBuffers c) = Some (first :: rest) ->
        let buf := first :: rest in
        let latest := last buf first in
        (T <= Client.time first -> result = Client.Found first) /\
        (T >= Client.time latest ->
         Client.time first < T \/ increasing buf ->
         result = Client.Found latest) /\
        (Client.time first < T < Client.time latest ->
         exists pre a b post,
           buf = pre ++ a :: b :: post /\
           (forall s, In s pre -> Client.time s < T) /\
           Client.time a <= T <= Client.time b /\
           Client.time a < Client.time b /\
           result = Client.Found (blend T a b)))) /\
  (forall (id : Z) (c : Client.State) (s1 s2 : Z),
     JsMap.get id (Client.playerBuffers c)
     = Some [Client.mkSample 100 0 0 s1; Client.mkSample 200 100 0 s2] ->
     Client.getInterpolatedPlayerState id 150 c = Client.Found (Client.mkSample 150 50 0 s2) /\
     Client.getInterpolatedPlayerState id 50 c = Client.Found (Client.mkSample 100 0 0 s1) /\
     Client.getInterpolatedPlayerState id 300 c = Client.Found (Client.mkSample 200 100 0 s2)) /\
  (Client.lerp64 150 100 200 0 100 = 50%float /\
   Client.lerp64 150 100 200 0 0 = 0%float).
Proof.
  split; [|split; [|split; reflexivity]].
  - intros id T c result. split.
    + subst result. unfold bufOf, Client.getInterpolatedPlayerState.
      destruct (JsMap.get id (Client.playerBuffers c)) as [buf|]; [|reflexivity].
      intros ->. reflexivity.
    + intros first rest Hget buf latest.
      destruct (interpolated_cases id T c first rest Hget) as (H1 & H2 & H3).
      fold buf latest result in H1, H2, H3.
      split; [exact H1|]. split.
      * intros Hge [Hlt|Hinc]; [now apply H2|].
        destruct (Rle_dec T (Client.time first)) as [Hle|Hgt];
          [|apply H2; [lra|exact Hge]].
        destruct rest as [|b rest].
        -- subst latest buf. cbn [last]. now apply H1.
        -- pose proof (increasing_first_last first (b :: rest) Hinc) as Hfl.
           fold buf latest in Hfl. assert (b :: rest <> []) by discriminate.
           specialize (Hfl H). lra.
      * intros Hin. destruct (H3 Hin) as (pre & a & b & post & Heq & Hpre & Hab & _ & Hres).
        exists pre, a, b, post. repeat split; try tauto; lra.
  - intros id c s1 s2 Hget.
    destruct (interpolated_cases id 150 c _ _ Hget) as (_ & _ & H150).
    destruct (interpolated_cases id 50 c _ _ Hget) as (H50 & _ & _).
    destruct (interpolated_cases id 300 c _ _ Hget) as (_ & H300 & _).
    cbn [last Client.time] in *.
    split; [|split; [apply H50; lra|apply H300; lra]].
    destruct H150 as (pre & a & b & post & Heq & _ & _ & _ & Hres); [lra|].
    apply two_samples_split in Heq. destruct Heq as [-> ->].
    rewrite Hres. unfold blend. cbn [Client.time Client.x Client.y Client.score].
    f_equal. f_equal; lra.
Qed.

Lemma watching_increasing : increasing [early; late].
Proof.
  unfold increasing. cbn.
  repeat constructor; lra.
Qed.

Lemma interpolation_follows_the_buffer_witness :
  Client.getInterpolatedPlayerState 9 150 watching = Client.Null /\
  Client.getInterpolatedPlayerState 1 100 watching = Client.Found early /\
  Client.getInterpolatedPlayerState 1 200 watching = Client.Found late /\
  (exists a b, Client.time a < Client.time b /\
     Client.getInterpolatedPlayerState 1 120 watching = Client.Found (blend 120 a b)) /\
  Client.getInterpolatedPlayerState 1 150 watching = Client.Found (Client.mkSample 150 50 0 4) /\
  Client.getInterpolatedPlayerState 1 50 watching = Client.Found (Client.mkSample 100 0 0 3) /\
  Client.getInterpolatedPlayerState 1 300 watching = Client.Found (Client.mkSample 200 100 0 4).
Proof.
  destruct interpolation_follows_the_buffer as [Hcases [Hexample _]].
  split; [apply (proj1 (Hcases 9%Z 150 watching)); reflexivity|].
  split; [apply (proj1 (proj2 (Hcases 1%Z 100 watching) early [late] eq_refl));
          cbn; lra|].
  split; [apply (proj1 (proj2 (proj2 (Hcases 1%Z 200 watching) early [late] eq_refl)));
          [cbn; lra|right; exact watching_increasing]|].
  split.
  - destruct (proj2 (proj2 (proj2 (Hcases 1%Z 120 watching) early [late] eq_refl)))
      as (pre & a & b & post & _ & _ & _ & Hab & Hres); [cbn; lra|].
    exists a, b. split; [exact Hab|exact Hres].
  - apply (Hexample 1%Z watching 3%Z 4%Z). reflexivity.
Defined.

(** C10. On a buffer that is not empty and whose timestamps grow
    strictly, the interpolation always returns a state: never nothing,
    never coordinates that are not numbers.  For a render time strictly
    between the first and the last timestamp the pair the search stops at
    has [a.time < b.time], so the divisor [b.time - a.time] is not zero. *)
Theorem interpolation_is_defined :
  forall (id : Z) (T : R) (c : Client.State)
         (first : Client.Sample) (rest : list Client.Sample),
    JsMap.get id (Client.playerBuffers c) = Some (first :: rest) ->
    increasing (first :: rest) ->
    (exists s, Client.getInterpolatedPlayerState id T c = Client.Found s) /\
    (Client.time first < T < Client.time (last (first :: rest) first) ->
     exists a b,
       Client.findEnclosing T (first :: rest) = Some (a, b) /\
       Client.time a < Client.time b /\
       Client.time b - Client.time a <> 0 /\
       Client.getInterpolatedPlayerState id T c = Client.Found (blend T a b)).
Proof.
  intros id T c first rest Hget Hinc.
  destruct (interpolated_cases id T c first rest Hget) as (H1 & H2 & H3).
  assert (Hmid : Client.time first < T < Client.time (last (first :: rest) first) ->
                 exists a b,
                   Client.findEnclosing T (first :: rest) = Some (a, b) /\
                   Client.time a < Client.time b /\
                   Client.time b - Client.time a <> 0 /\
                   Client.getInterpolatedPlayerState id T c = Client.Found (blend T a b)).
  { intros Hin. destruct (H3 Hin) as (pre & a & b & post & Heq & _ & _ & Hfind & Hres).
    rewrite Heq in Hinc. apply increasing_neighbours in Hinc.
    exists a, b. repeat split; auto. lra. }
  split; [|exact Hmid].
  destruct (Rle_dec T (Client.time first)) as [Hle|Hgt]; [eauto|].
  destruct (Rge_dec T (Client.time (last (first :: rest) first))) as [Hge|Hlt].
  - eexists. apply H2; [lra|exact Hge].
  - destruct Hmid as (a & b & _ & _ & _ & Hres); [lra|eauto].
Qed.

Lemma interpolation_is_defined_witness :
  (exists s, Client.getInterpolatedPlayerState 1 150 watching = Client.Found s) /\
  exists a b,
    Client.findEnclosing 150 [early; late] = Some (a, b) /\
    Client.time a < Client.time b /\
    Client.time b - Client.time a <> 0 /\
    Client.getInterpolatedPlayerState 1 150 watching = Client.Found (blend 150 a b).
Proof.
  destruct (interpolation_is_defined 1%Z 150 watching early [late] eq_refl
              watching_increasing) as [Hsome Hmid].
  split; [exact Hsome|].
  apply Hmid. cbn. lra.
Defined.


End Interpolation.

(** * Properties of the server process *)

Module Connections.

Import Server Vocabulary JsMapFacts Samples.

(** *** What the handlers leave alone *)

Lemma setWorld_same (s : Process) : setWorld (world s) s = s.
Proof. destruct s. reflexivity. Qed.

Lemma broadcastTo_frame (now : Z) (ps : list Player.t) (data : ServerMsg) (s : Process) :
  let s' := broadcastTo now ps data s in
  world s' = world s /\ readyState s' = readyState s /\
  sendCalls s' = sendCalls s /\ warnings s' = warnings s.
Proof.
  revert s. induction ps as [|p rest IH]; intros s; cbn [broadcastTo]; [tauto|].
  destruct (isOpen (readyState s (Player.ws p))); [|apply IH].
  destruct (IH (setTimeout now (SendNow (Player.ws p) data) LAG_MS s)) as (H1 & H2 & H3 & H4).
  cbn in *. tauto.
Qed.

Lemma world_broadcast (now : Z) (data : ServerMsg) (s : Process) :
  world (broadcast now data s) = world s.
Proof. unfold broadcast. apply broadcastTo_frame. Qed.

Lemma world_onConnection (now : Z) (ws : Socket) (rx ry : R) (s : Process) :
  world (onConnection now ws rx ry s) = snd (createPlayer ws rx ry (world s)).
Proof.
  unfold onConnection, createPlayer. cbv beta iota zeta.
  rewrite world_broadcast. reflexivity.
Qed.

Lemma world_onClose (now : Z) (ws : Socket) (s : Process) :
  world (onClose now ws s) = removePlayerBySocket ws (world s).
Proof. unfold onClose. rewrite world_broadcast. reflexivity. Qed.

Lemma world_onTick (now : Z) (s : Process) :
  world (onTick now s) = fst (gameLoop now (world s)).
Proof.
  unfold onTick. destruct (gameLoop now (world s)) as [w snapshot].
  rewrite world_broadcast. reflexivity.
Qed.

(** *** The registry stays consistent *)

Section Registry.
Variable V : Type.

Lemma In_set (k k0 : Z) (v v0 : V) (m : JsMap.t V) :
  In (k, v) (JsMap.set k0 v0 m) -> (k, v) = (k0, v0) \/ In (k, v) m.
Proof.
  induction m as [|[k' v'] m IH]; simpl.
  - intuition congruence.
  - destruct (Z.eqb_spec k' k0) as [->|Hne]; simpl; [intuition congruence|].
    intros [H|H]; [tauto|]. destruct (IH H); tauto.
Qed.

Lemma In_delete (k k0 : Z) (v : V) (m : JsMap.t V) :
  In (k, v) (JsMap.delete k0 m) -> In (k, v) m.
Proof. unfold JsMap.delete. intros H. apply filter_In in H. tauto. Qed.

Lemma In_keys (k : Z) (v : V) (m : JsMap.t V) : In (k, v) m -> In k (JsMap.keys m).
Proof. intros H. change k with (fst (k, v)). now apply in_map. Qed.
End Registry.

Lemma consistent_createPlayer (ws : Socket) (rx ry : R) (w : World) :
  consistent w -> consistent (snd (createPlayer ws rx ry w)).
Proof.
  intros [Hwf Hall]. unfold createPlayer. cbn [snd]. split; cbn [players nextPlayerId].
  - now apply wf_set.
  - intros k p Hin. apply In_set in Hin. destruct Hin as [Heq|Hin].
    + injection Heq as -> ->. cbn. split; [reflexivity|lia].
    + destruct (Hall k p Hin). split; [assumption|lia].
Qed.

Lemma retired_createPlayer (ws : Socket) (rx ry : R) (k : Z) (w : World) :
  retired k w -> retired k (snd (createPlayer ws rx ry w)).
Proof.
  intros [Hlt Hout]. unfold createPlayer. cbn [snd]. split; cbn [players nextPlayerId].
  - lia.
  - rewrite keys_set. destruct (JsMap.has _ _); [exact Hout|].
    intros Hin. apply in_app_or in Hin. destruct Hin as [Hin|[Heq|[]]]; [tauto|lia].
Qed.

Lemma removeFirstBySocket_find (ws : Socket) (es m : JsMap.t Player.t) :
  removeFirstBySocket ws es m =
  match find (fun e => Nat.eqb (Player.ws (snd e)) ws) es with
  | Some (k, _) => JsMap.delete k m
  | None => m
  end.
Proof.
  induction es as [|[k p] es IH]; cbn [removeFirstBySocket find snd]; [reflexivity|].
  destruct (Nat.eqb (Player.ws p) ws); [reflexivity|exact IH].
Qed.

Lemma removeFirstBySocket_cases (ws : Socket) (es m : JsMap.t Player.t) :
  removeFirstBySocket ws es m = m \/
  exists k, removeFirstBySocket ws es m = JsMap.delete k m.
Proof.
  rewrite removeFirstBySocket_find.
  destruct (find _ es) as [[k p]|]; [right; exists k; reflexivity|now left].
Qed.

Lemma removePlayerBySocket_found (ws : Socket) (k : Z) (p : Player.t) (w : World) :
  findBySocket ws (players w) = Some (k, p) ->
  players (removePlayerBySocket ws w) = JsMap.delete k (players w).
Proof.
  unfold findBySocket, removePlayerBySocket, JsMap.entries. cbn [players]. intros Hf.
  now rewrite removeFirstBySocket_find, Hf.
Qed.

Lemma consistent_removePlayerBySocket (ws : Socket) (w : World) :
  consistent w -> consistent (removePlayerBySocket ws w).
Proof.
  intros [Hwf Hall]. unfold removePlayerBySocket, consistent. cbn [players nextPlayerId].
  destruct (removeFirstBySocket_cases ws (JsMap.entries (players w)) (players w))
    as [->|(k & ->)]; [tauto|].
  split; [now apply wf_delete|].
  intros k' p' Hin. apply Hall. eapply In_delete; eauto.
Qed.

Lemma retired_removePlayerBySocket (ws : Socket) (k : Z) (w : World) :
  retired k w -> retired k (removePlayerBySocket ws w).
Proof.
  intros [Hlt Hout]. unfold removePlayerBySocket, retired. cbn [players nextPlayerId].
  split; [exact Hlt|].
  destruct (removeFirstBySocket_cases ws (JsMap.entries (players w)) (players w))
    as [->|(k' & ->)]; [exact Hout|].
  intros Hin. apply keys_delete in Hin. tauto.
Qed.

Lemma find_In (A : Type) (f : A -> bool) (l : list A) (a : A) :
  find f l = Some a -> In a l.
Proof. intros H. apply find_some in H. tauto. Qed.

Lemma handleClientMessage_cases (ws : Socket) (msg : JsValue) (w : World) :
  handleClientMessage ws msg w = w \/
  exists k p i,
    In (k, p) (players w) /\
    handleClientMessage ws msg w =
    mkWorld (nextPlayerId w) (nextCoinId w) (JsMap.set k (setInput i p) (players w))
            (coins w) (lastUpdateTime w).
Proof.
  unfold handleClientMessage.
  destruct (negb (truthy (Some msg)) || negb (isObject msg)); [tauto|].
  destruct (findBySocket ws (players w)) as [[k p]|] eqn:Hf; [|tauto].
  destruct (prop "type" msg) as [[| | |ty| |]|]; try tauto.
  destruct (String.eqb ty "input"); [|tauto].
  right. eexists k, p, _. split; [|reflexivity].
  unfold findBySocket in Hf. eapply find_In; eauto.
Qed.

Lemma consistent_handleClientMessage (ws : Socket) (msg : JsValue) (w : World) :
  consistent w -> consistent (handleClientMessage ws msg w).
Proof.
  intros [Hwf Hall].
  destruct (handleClientMessage_cases ws msg w) as [->|(k & p & i & Hin & ->)];
    [split; assumption|].
  split; cbn [players nextPlayerId].
  - now apply wf_set.
  - intros k' p' Hin'. apply In_set in Hin'. destruct Hin' as [Heq|Hin'].
    + injection Heq as -> ->. cbn. now apply Hall.
    + now apply Hall.
Qed.

Lemma retired_handleClientMessage (ws : Socket) (msg : JsValue) (k : Z) (w : World) :
  retired k w -> retired k (handleClientMessage ws msg w).
Proof.
  intros [Hlt Hout].
  destruct (handleClientMessage_cases ws msg w) as [->|(k' & p & i & Hin & ->)];
    [split; assumption|].
  split; cbn [players nextPlayerId]; [exact Hlt|].
  rewrite keys_set.
  assert (Hhas : JsMap.has k' (players w) = true).
  { apply has_true_keys. eapply In_keys; eauto. }
  now rewrite Hhas.
Qed.

Lemma Forall2_keys (ps ps' : JsMap.t Player.t) :
  Forall2 (fun e e' => fst e = fst e' /\ sameButScore (snd e) (snd e')) ps ps' ->
  JsMap.keys ps' = JsMap.keys ps.
Proof.
  unfold JsMap.keys.
  induction 1 as [|e e' ps ps' [He _] _ IH]; cbn [map]; [reflexivity|].
  now rewrite <- He, IH.
Qed.

Lemma gameLoop_players_keys (now : Z) (w : World) :
  JsMap.keys (players (fst (gameLoop now w))) = JsMap.keys (players w).
Proof.
  rewrite Simulation.gameLoop_players.
  rewrite (Forall2_keys _ _ (Simulation.collide_sameButScore _ _)).
  apply Simulation.updatePlayers_keys.
Qed.

Lemma gameLoop_nextPlayerId (now : Z) (w : World) :
  nextPlayerId (fst (gameLoop now w)) = nextPlayerId w.
Proof. unfold gameLoop. destruct (collide _ _). reflexivity. Qed.

Lemma gameLoop_player_ids (now : Z) (w : World) (k : Z) (p : Player.t) :
  In (k, p) (players (fst (gameLoop now w))) ->
  exists q, In (k, q) (players w) /\ Player.id p = Player.id q.
Proof.
  rewrite Simulation.gameLoop_players. intros Hin.
  destruct (Simulation.Forall2_in_r _ _ _ _ _ _ (Simulation.collide_sameButScore _ _) Hin)
    as [[k1 p1] [Hin1 [Hk Hs]]].
  unfold updatePlayers in Hin1. apply in_map_iff in Hin1.
  destruct Hin1 as [[k2 p2] [Heq Hin2]]. cbn [fst snd] in *.
  injection Heq as -> <-. subst k1.
  exists p2. split; [exact Hin2|].
  destruct Hs as [Hid _]. cbn in Hid. congruence.
Qed.

Lemma consistent_gameLoop (now : Z) (w : World) :
  consistent w -> consistent (fst (gameLoop now w)).
Proof.
  intros [Hwf Hall]. split.
  - unfold JsMap.wf. now rewrite gameLoop_players_keys.
  - intros k p Hin. rewrite gameLoop_nextPlayerId.
    destruct (gameLoop_player_ids now w k p Hin) as [q [Hq Hid]].
    rewrite Hid. now apply Hall.
Qed.

Lemma retired_gameLoop (now : Z) (k : Z) (w : World) :
  retired k w -> retired k (fst (gameLoop now w)).
Proof.
  intros [Hlt Hout]. split.
  - now rewrite gameLoop_nextPlayerId.
  - now rewrite gameLoop_players_keys.
Qed.

(** *** Invariants of the event loop *)

(** A property of the world that the five operations on it keep is kept by
    every run of the event loop. *)
Section Invariant.
Variable JSON_parse : string -> Completion JsValue.
Variable P : World -> Prop.
Hypothesis P_createPlayer : forall ws rx ry w, P w -> P (snd (createPlayer ws rx ry w)).
Hypothesis P_removePlayerBySocket : forall ws w, P w -> P (removePlayerBySocket ws w).
Hypothesis P_handleClientMessage : forall ws msg w, P w -> P (handleClientMessage ws msg w).
Hypothesis P_gameLoop : forall now w, P w -> P (fst (gameLoop now w)).
Hypothesis P_spawnCoin : forall rx ry w, P w -> P (spawnCoin rx ry w).

Lemma run_invariant (cb : Callback) (s s' : Process) :
  run JSON_parse cb s = Normal s' -> P (world s) -> P (world s').
Proof.
  destruct cb as [ws data|ws data|ws msgStr]; cbn [run].
  - destruct (isOpen (readyState s ws)); intros [= <-]; auto.
  - intros [= <-]; auto.
  - unfold receive. destruct (JSON_parse msgStr) as [msg|e]; intros [= <-]; auto.
    cbn [setWorld world]. apply P_handleClientMessage.
Qed.

Lemma fire_invariant (now : Z) (pending : list Timer) (s s' : Process) :
  fire JSON_parse now pending s = Normal s' -> P (world s) -> P (world s').
Proof.
  revert s. induction pending as [|tm rest IH]; intros s; cbn [fire].
  - intros [= <-]; auto.
  - destruct (due tm <=? now)%Z; [|apply IH].
    destruct (run JSON_parse (callback tm) s) as [s1|e] eqn:Hrun; [|discriminate].
    intros Hfire Hs. eapply IH; eauto. eapply run_invariant; eauto.
Qed.

Lemma step_invariant (now : Z) (ev : Event) (s s' : Process) :
  step JSON_parse now ev s = Normal s' -> P (world s) -> P (world s').
Proof.
  destruct ev as [ws rx ry|ws raw|ws| |rx ry|]; cbn [step].
  - intros [= <-] H. rewrite world_onConnection. now apply P_createPlayer.
  - intros [= <-]. auto.
  - intros [= <-] H. rewrite world_onClose. now apply P_removePlayerBySocket.
  - intros [= <-] H. rewrite world_onTick. now apply P_gameLoop.
  - intros [= <-] H. cbn [onSpawn setWorld world]. now apply P_spawnCoin.
  - unfold runTimers. intros Hf Hs. eapply fire_invariant; eauto.
Qed.

Lemma steps_invariant (evs : list (Z * Event)) (s s' : Process) :
  steps JSON_parse evs s = Normal s' -> P (world s) -> P (world s').
Proof.
  revert s. induction evs as [|[now ev] rest IH]; intros s; cbn [steps].
  - intros [= <-]; auto.
  - destruct (step JSON_parse now ev s) as [s1|e] eqn:Hstep; [|discriminate].
    intros Hsteps Hs. eapply IH; eauto. eapply step_invariant; eauto.
Qed.

End Invariant.

Lemma steps_settled (JSON_parse : string -> Completion JsValue) (k : Z)
    (evs : list (Z * Event)) (s s' : Process) :
  steps JSON_parse evs s = Normal s' ->
  settled k (world s) -> settled k (world s').
Proof.
  apply steps_invariant.
  - intros ws rx ry w [Hc Hr].
    split; [now apply consistent_createPlayer|now apply retired_createPlayer].
  - intros ws w [Hc Hr].
    split; [now apply consistent_removePlayerBySocket|now apply retired_removePlayerBySocket].
  - intros ws msg w [Hc Hr].
    split; [now apply consistent_handleClientMessage|now apply retired_handleClientMessage].
  - intros now w [Hc Hr].
    split; [now apply consistent_gameLoop|now apply retired_gameLoop].
  - intros rx ry w H. exact H.
Qed.

(** *** The coins map *)

Lemma coins_handleClientMessage (ws : Socket) (msg : JsValue) (w : World) :
  coins (handleClientMessage ws msg w) = coins w.
Proof.
  destruct (handleClientMessage_cases ws msg w) as [->|(k & p & i & _ & ->)]; reflexivity.
Qed.

Lemma coinsKept_spawnCoin (rx ry : R) (w : World) :
  coinsKept w -> coinsKept (spawnCoin rx ry w).
Proof.
  intros [Hwf Hall]. unfold spawnCoin. split; cbn [coins].
  - now apply wf_set.
  - intros k c Hin. apply In_set in Hin. destruct Hin as [Heq|Hin].
    + injection Heq as -> ->. reflexivity.
    + now apply Hall.
Qed.

Lemma coinsKept_gameLoop (now : Z) (w : World) :
  coinsKept w -> coinsKept (fst (gameLoop now w)).
Proof.
  intros [Hwf Hall]. unfold coinsKept.
  rewrite Simulation.gameLoop_coins, Simulation.collide_coins by exact Hwf.
  split; [now apply wf_filter|].
  intros k c Hin. apply filter_In in Hin. now apply Hall.
Qed.

Lemma steps_coinsKept (JSON_parse : string -> Completion JsValue)
    (evs : list (Z * Event)) (s s' : Process) :
  steps JSON_parse evs s = Normal s' ->
  coinsKept (world s) -> coinsKept (world s').
Proof.
  apply steps_invariant.
  - intros ws rx ry w H. exact H.
  - intros ws w H. exact H.
  - intros ws msg w [Hwf Hall]. unfold coinsKept.
    rewrite coins_handleClientMessage. now split.
  - apply coinsKept_gameLoop.
  - apply coinsKept_spawnCoin.
Qed.

(** Every state the server reaches from its start has a consistent
    registry and a coins map with distinct keys. *)
Lemma reachable_consistent (JSON_parse : string -> Completion JsValue) (t0 : Z)
    (history : list (Z * Event)) (s : Process) :
  steps JSON_parse history (start t0) = Normal s ->
  consistent (world s) /\ coinsKept (world s).
Proof.
  intros Hsteps. split.
  - apply (steps_settled JSON_parse 0 history (start t0) s Hsteps).
    split; [split|split]; cbn.
    + constructor.
    + intros k p [].
    + lia.
    + tauto.
  - apply (steps_coinsKept JSON_parse history (start t0) s Hsteps).
    split; cbn; [constructor|intros k c []].
Qed.



(** *** Disconnection *)

Lemma snapshot_ids (now : Z) (w : World) :
  consistent w ->
  map ps_id (snap_players (makeSnapshot now w)) = JsMap.keys (players w).
Proof.
  intros [_ Hall]. unfold makeSnapshot, JsMap.values, JsMap.keys. cbn [snap_players].
  rewrite !map_map. apply map_ext_in. intros [k p] Hin. cbn.
  now apply Hall.
Qed.

Lemma retired_not_in_snapshot (now : Z) (k : Z) (w : World) :
  settled k w ->
  ~ In k (map ps_id (snap_players (snd (gameLoop now w)))).
Proof.
  intros [Hc Hr]. rewrite Simulation.gameLoop_snapshot.
  rewrite snapshot_ids by now apply consistent_gameLoop.
  rewrite gameLoop_players_keys. apply Hr.
Qed.

Lemma unlisted_buffer_deleted (localNow id : Z) (snapshot : Snapshot) (c : Client.State) :
  ~ In id (map ps_id (snap_players snapshot)) ->
  JsMap.get id (Client.playerBuffers (Client.handleStateSnapshot localNow snapshot c)) = None.
Proof.
  intros Hout. rewrite Buffering.get_handleStateSnapshot.
  unfold samplesFor.
  destruct (filter _ (snap_players snapshot)) as [|p ps] eqn:Hf; [reflexivity|].
  exfalso. apply Hout.
  assert (Hin : In p (filter (fun p => Z.eqb (ps_id p) id) (snap_players snapshot)))
    by (rewrite Hf; now left).
  apply filter_In in Hin. destruct Hin as [Hin Heq].
  apply Z.eqb_eq in Heq. subst id. now apply in_map.
Qed.

(** C8. In any state the server reaches, when the connection of a player
    closes, the player leaves the players map; whatever the server goes through afterwards, the
    snapshot of any later tick does not list the id; and a client that
    handles a snapshot drops the buffer of every id the snapshot does not
    list, so it drops the buffer of the player that left. *)
Theorem closed_connection_disappears :
  forall (JSON_parse : string -> Completion JsValue) (t0 : Z)
         (history : list (Z * Event)) (s : Process)
         (ws : Socket) (k : Z) (p : Player.t) (now : Z),
    steps JSON_parse history (start t0) = Normal s ->
    findBySocket ws (players (world s)) = Some (k, p) ->
    let s1 := onClose now ws s in
    Player.id p = k /\
    JsMap.get k (players (world s1)) = None /\
    (forall evs s2 now',
        steps JSON_parse evs s1 = Normal s2 ->
        let snapshot := snd (gameLoop now' (world s2)) in
        ~ In k (map ps_id (snap_players snapshot)) /\
        forall localNow c,
          JsMap.get k (Client.playerBuffers
                         (Client.handleStateSnapshot localNow snapshot c)) = None) /\
    (forall localNow snapshot c id,
        ~ In id (map ps_id (snap_players snapshot)) ->
        JsMap.get id (Client.playerBuffers
                        (Client.handleStateSnapshot localNow snapshot c)) = None).
Proof.
  intros JSON_parse t0 history s ws k p now Hreach Hfind s1.
  destruct (reachable_consistent JSON_parse t0 history s Hreach) as [Hc _].
  assert (Hin : In (k, p) (players (world s))).
  { unfold findBySocket in Hfind. eapply find_In; eauto. }
  assert (Hplayers : players (world s1) = JsMap.delete k (players (world s))).
  { subst s1. rewrite world_onClose. eapply removePlayerBySocket_found; eauto. }
  assert (Hs1 : settled k (world s1)).
  { split.
    - subst s1. rewrite world_onClose. now apply consistent_removePlayerBySocket.
    - split.
      + subst s1. rewrite world_onClose. cbn [removePlayerBySocket nextPlayerId].
        now apply (proj2 Hc k p).
      + rewrite Hplayers. intros Hk. apply keys_delete in Hk. tauto. }
  split; [now apply (proj2 Hc k p)|]. split; [|split].
  - rewrite Hplayers. apply get_delete_same.
  - intros evs s2 now' Hsteps snapshot.
    assert (Hout : ~ In k (map ps_id (snap_players snapshot))).
    { apply retired_not_in_snapshot. eapply steps_settled; eauto. }
    split; [exact Hout|].
    intros localNow c. now apply unlisted_buffer_deleted.
  - intros localNow snapshot c id. apply unlisted_buffer_deleted.
Qed.

Lemma closed_connection_disappears_witness :
  let s1 := onClose 50 1%nat lounge in
  JsMap.get 1 (players (world s1)) = None /\
  ~ In 1%Z (map ps_id (snap_players (snd (gameLoop 66 (world s1))))) /\
  JsMap.get 1 (Client.playerBuffers
                 (Client.handleStateSnapshot 200 (snd (gameLoop 66 (world s1)))
                    Client.initial)) = None.
Proof.
  intros s1.
  destruct (closed_connection_disappears toyParse 0%Z twoJoin lounge 1%nat 1%Z
              (fst (createPlayer 1%nat (1 / 2) (1 / 2) (initialWorld 0))) 50%Z
              eq_refl eq_refl) as (_ & Hgone & Hlater & Hclient).
  split; [exact Hgone|].
  destruct (Hlater [] s1 66%Z eq_refl) as [Hsnap _].
  split; [exact Hsnap|].
  apply Hclient. exact Hsnap.
Defined.

(** *** Messages that are not understood *)

(** C9. A payload that is not JSON is warned about and dropped: the
    world, the sockets, the timers and what was sent stay as they were.  A
    payload that parses but whose [type] is not one the server knows
    changes nothing at all.  Either way the callback ends normally, and so
    does every run of the event loop. *)
Theorem bad_messages_are_dropped :
  forall (JSON_parse : string -> Completion JsValue)
         (ws : Socket) (raw : string) (s : Process),
    (forall e, JSON_parse raw = Throw e ->
       exists s',
         run JSON_parse (Receive ws raw) s = Normal s' /\
         world s' = world s /\ readyState s' = readyState s /\
         timers s' = timers s /\ sendCalls s' = sendCalls s /\
         warnings s' = warnings s ++ ["Invalid JSON from client:"%string]) /\
    (forall msg, JSON_parse raw = Normal msg ->
       prop "type" msg <> Some (JString "input") ->
       run JSON_parse (Receive ws raw) s = Normal s) /\
    (forall evs, exists s', steps JSON_parse evs s = Normal s').
Proof.
  intros JSON_parse ws raw s. split; [|split].
  - intros e He. eexists. cbn [run]. unfold receive. rewrite He.
    split; [reflexivity|]. cbn. tauto.
  - intros msg Hmsg Htype. cbn [run]. unfold receive. rewrite Hmsg.
    assert (Hsame : handleClientMessage ws msg (world s) = world s).
    { unfold handleClientMessage.
      destruct (negb (truthy (Some msg)) || negb (isObject msg)); [reflexivity|].
      destruct (findBySocket ws (players (world s))) as [[k p]|]; [|reflexivity].
      destruct (prop "type" msg) as [[| | |ty| |]|]; try reflexivity.
      destruct (String.eqb_spec ty "input") as [->|_]; [congruence|reflexivity]. }
    now rewrite Hsame, setWorld_same.
  - intros evs. revert s. induction evs as [|[now ev] rest IH]; intros s; cbn [steps].
    + eauto.
    + assert (Hstep : exists s1, step JSON_parse now ev s = Normal s1).
      { destruct ev; cbn [step]; eauto.
        unfold runTimers. generalize (keepPending now s). generalize (timers s).
        intros pending. induction pending as [|tm pending IHp]; intros s0; cbn [fire]; [eauto|].
        destruct (due tm <=? now)%Z; [|apply IHp].
        assert (Hrun : exists s1, run JSON_parse (callback tm) s0 = Normal s1).
        { destruct (callback tm) as [ws0 d|ws0 d|ws0 m]; cbn [run].
          - destruct (isOpen _); eauto.
          - eauto.
          - unfold receive. destruct (JSON_parse m); eauto. }
        destruct Hrun as [s1 ->]. apply IHp. }
      destruct Hstep as [s1 ->]. apply IH.
Qed.

Lemma bad_messages_are_dropped_witness :
  (exists s',
     run toyParse (Receive 12%nat "}{") lobby = Normal s' /\
     world s' = world lobby /\ readyState s' = readyState lobby /\
     timers s' = timers lobby /\ sendCalls s' = sendCalls lobby /\
     warnings s' = warnings lobby ++ ["Invalid JSON from client:"%string]) /\
  run toyParse (Receive 12%nat "PING") lobby = Normal lobby.
Proof.
  split.
  - apply (proj1 (bad_messages_are_dropped toyParse 12%nat "}{" lobby) "SyntaxError"%string).
    reflexivity.
  - apply (proj1 (proj2 (bad_messages_are_dropped toyParse 12%nat "PING" lobby))
             (JObject [("type"%string, JString "ping")])).
    + reflexivity.
    + intros H. discriminate H.
Defined.


(** An [input] message, for contrast, is applied to the player of the
    socket. *)
Lemma input_message_is_applied :
  exists s',
    run toyParse (Receive 12%nat "UP") lobby = Normal s' /\
    option_map Player.input (JsMap.get 2 (players (world s')))
    = Some (mkInput true false false false).
Proof. eexists. split; reflexivity. Qed.


(** *** The latency layer *)

Lemma sendWithLag_schedules (now : Z) (ws : Socket) (msgObj : ServerMsg) (s : Process) :
  timers (sendWithLag now ws msgObj s) =
  timers s ++ [mkTimer (now + LAG_MS) (SendIfOpen ws msgObj)].
Proof. reflexivity. Qed.

(** A message sent through [sendWithLag] is looked at again when its
    timer fires: to a socket that is not open any more nothing is sent,
    and nothing is thrown. *)
Lemma late_send_is_dropped (JSON_parse : string -> Completion JsValue)
    (ws : Socket) (data : ServerMsg) (s : Process) :
  isOpen (readyState s ws) = false ->
  run JSON_parse (SendIfOpen ws data) s = Normal s.
Proof. intros H. cbn [run]. now rewrite H. Qed.

Lemma open_send_goes_out (JSON_parse : string -> Completion JsValue)
    (ws : Socket) (data : ServerMsg) (s : Process) :
  isOpen (readyState s ws) = true ->
  run JSON_parse (SendIfOpen ws data) s = Normal (wsSend ws data s).
Proof. intros H. cbn [run]. now rewrite H. Qed.

(** Every timer [broadcast] sets is due [LAG_MS] after the call, and it
    sets one for each player whose socket is open at the time of the
    call. *)
Lemma broadcastTo_timers (now : Z) (ps : list Player.t) (data : ServerMsg) (s : Process) :
  timers (broadcastTo now ps data s) =
  timers s ++
  map (fun p => mkTimer (now + LAG_MS) (SendNow (Player.ws p) data))
      (filter (fun p => isOpen (readyState s (Player.ws p))) ps).
Proof.
  revert s. induction ps as [|p rest IH]; intros s; cbn [broadcastTo filter].
  - now rewrite app_nil_r.
  - destruct (isOpen (readyState s (Player.ws p))) eqn:Hopen.
    + rewrite IH. cbn [setTimeout timers readyState map].
      now rewrite <- app_assoc.
    + apply IH.
Qed.

(** The timer of a broadcast does not look at the socket again. *)
Lemma broadcast_timer_sends (JSON_parse : string -> Completion JsValue)
    (ws : Socket) (data : ServerMsg) (s : Process) :
  run JSON_parse (SendNow ws data) s = Normal (wsSend ws data s).
Proof. reflexivity. Qed.

(** C2, on the run [lateClose]: a socket connects at 0, the game loop
    ticks at 33, the socket closes at 40, the timers fire from 100 on.  The
    [init] message, sent with [sendWithLag], is dropped; the
    [player_count] and [state] messages, sent with [broadcast], are handed
    to [ws.send] although the socket is closed by then. *)
Theorem broadcast_sends_to_closed_socket :
  exists s snapshot,
    steps toyParse lateClose (start 0) = Normal s /\
    readyState s 1%nat = CLOSED /\
    timers s = [] /\
    sendCalls s = [mkSendCall 1%nat CLOSED (MsgPlayerCount 1);
                   mkSendCall 1%nat CLOSED (MsgState snapshot)].
Proof.
  eexists. eexists. split; [reflexivity|].
  split; [reflexivity|]. split; reflexivity.
Qed.

(** The same socket left open gets both messages of the connection. *)
Lemma open_socket_gets_everything :
  exists s,
    steps toyParse stayOpen (start 0) = Normal s /\
    sendCalls s = [mkSendCall 1%nat OPEN (MsgInit 1 WORLD_WIDTH WORLD_HEIGHT LAG_MS);
                   mkSendCall 1%nat OPEN (MsgPlayerCount 1)].
Proof. eexists. split; reflexivity. Qed.


End Connections.

(** * More about the tick *)

Module Ticks.

Import Server Vocabulary Measures Samples JsMapFacts.
Local Open Scope R_scope.

(** *** Which way a tick moves a player *)

(** The direction along each axis has the sign of the keys held. *)
Lemma direction_axes (i : Input) :
  let d := direction i in
  (right i = true -> left i = false -> 0 < fst d) /\
  (left i = true -> right i = false -> fst d < 0) /\
  (left i = right i -> fst d = 0) /\
  (down i = true -> up i = false -> 0 < snd d) /\
  (up i = true -> down i = false -> snd d < 0) /\
  (up i = down i -> snd d = 0).
Proof.
  unfold direction.
  set (dy := if down i then _ else _).
  set (dx := if right i then _ else _).
  assert (Hdx : (right i = true -> left i = false -> dx = 1) /\
                (left i = true -> right i = false -> dx = -1) /\
                (left i = right i -> dx = 0)).
  { subst dx. destruct (left i), (right i); repeat split; intros; try discriminate; lra. }
  assert (Hdy : (down i = true -> up i = false -> dy = 1) /\
                (up i = true -> down i = false -> dy = -1) /\
                (up i = down i -> dy = 0)).
  { subst dy. destruct (up i), (down i); repeat split; intros; try discriminate; lra. }
  destruct Hdx as (Hx1 & Hx2 & Hx3). destruct Hdy as (Hy1 & Hy2 & Hy3).
  generalize (hypot dx dy). intros len.
  destruct (Rgt_dec len 0) as [Hpos|Hnot]; cbn [fst snd].
  - assert (Hinv : 0 < / len) by now apply Rinv_0_lt_compat.
    unfold Rdiv.
    split; [intros H1 H2; rewrite (Hx1 H1 H2); lra|].
    split; [intros H1 H2; rewrite (Hx2 H1 H2); lra|].
    split; [intros H1; rewrite (Hx3 H1); lra|].
    split; [intros H1 H2; rewrite (Hy1 H1 H2); lra|].
    split; [intros H1 H2; rewrite (Hy2 H1 H2); lra|].
    intros H1; rewrite (Hy3 H1); lra.
  - split; [intros H1 H2; rewrite (Hx1 H1 H2); lra|].
    split; [intros H1 H2; rewrite (Hx2 H1 H2); lra|].
    split; [intros H1; rewrite (Hx3 H1); lra|].
    split; [intros H1 H2; rewrite (Hy1 H1 H2); lra|].
    split; [intros H1 H2; rewrite (Hy2 H1 H2); lra|].
    intros H1; rewrite (Hy3 H1); lra.
Qed.

(** Clamping a step taken from inside the range keeps its side. *)
Lemma clamp_step_side (lo hi x step : R) :
  lo <= x <= hi ->
  (0 <= step -> x <= Rmax lo (Rmin hi (x + step))) /\
  (step <= 0 -> Rmax lo (Rmin hi (x + step)) <= x).
Proof.
  intros H. unfold Rmax, Rmin.
  split; intros Hs; destruct (Rle_dec hi (x + step)); destruct (Rle_dec lo _); lra.
Qed.

(** X1. A tick moves a player the way its keys point, along each axis on
    its own.  For a player inside the world and a tick that follows the
    previous one in time: with right held and left not, the velocity
    along x is positive and x does not decrease; with left held and right
    not, it is negative and x does not increase; with both or neither,
    it is zero and x stays exactly; likewise along y with down and up.  A
    player that holds no key without its opposite stays where it is. *)
Theorem tick_moves_with_the_keys :
  forall (dt : R) (p : Player.t),
    0 <= dt ->
    inWorld (Player.x p) (Player.y p) ->
    let i := Player.input p in
    let p' := updatePlayer dt p in
    (right i = true -> left i = false ->
       0 < Player.vx p' /\ Player.x p <= Player.x p') /\
    (left i = true -> right i = false ->
       Player.vx p' < 0 /\ Player.x p' <= Player.x p) /\
    (left i = right i -> Player.vx p' = 0 /\ Player.x p' = Player.x p) /\
    (down i = true -> up i = false ->
       0 < Player.vy p' /\ Player.y p <= Player.y p') /\
    (up i = true -> down i = false ->
       Player.vy p' < 0 /\ Player.y p' <= Player.y p) /\
    (up i = down i -> Player.vy p' = 0 /\ Player.y p' = Player.y p).
Proof.
  intros dt p Hdt [Hx Hy] i p'.
  destruct (direction_axes i) as (D1 & D2 & D3 & D4 & D5 & D6).
  subst p'. unfold updatePlayer. fold i.
  cbn [Player.x Player.y Player.vx Player.vy].
  set (d1 := fst (direction i)) in *.
  set (d2 := snd (direction i)) in *.
  pose proof (clamp_step_side PLAYER_RADIUS (WORLD_WIDTH - PLAYER_RADIUS) (Player.x p)
                (d1 * PLAYER_SPEED * dt) Hx) as [Cx1 Cx2].
  pose proof (clamp_step_side PLAYER_RADIUS (WORLD_HEIGHT - PLAYER_RADIUS) (Player.y p)
                (d2 * PLAYER_SPEED * dt) Hy) as [Cy1 Cy2].
  unfold PLAYER_SPEED in *.
  split; [intros H1 H2; specialize (D1 H1 H2); split; [lra|apply Cx1; nra]|].
  split; [intros H1 H2; specialize (D2 H1 H2); split; [lra|apply Cx2; nra]|].
  split; [intros H1; specialize (D3 H1); split; [lra|apply Rle_antisym; [apply Cx2|apply Cx1]; nra]|].
  split; [intros H1 H2; specialize (D4 H1 H2); split; [lra|apply Cy1; nra]|].
  split; [intros H1 H2; specialize (D5 H1 H2); split; [lra|apply Cy2; nra]|].
  intros H1; specialize (D6 H1); split; [lra|apply Rle_antisym; [apply Cy2|apply Cy1]; nra].
Qed.

Lemma tick_moves_with_the_keys_witness :
  (0 < Player.vx (updatePlayer (1 / 30) runner) /\
   Player.x runner <= Player.x (updatePlayer (1 / 30) runner)) /\
  (Player.vx (updatePlayer (1 / 30) alice) = 0 /\
   Player.x (updatePlayer (1 / 30) alice) = Player.x alice).
Proof.
  split.
  - apply (tick_moves_with_the_keys (1 / 30) runner); [lra| |reflexivity|reflexivity].
    unfold inWorld, PLAYER_RADIUS, WORLD_WIDTH, WORLD_HEIGHT. cbn. lra.
  - apply (tick_moves_with_the_keys (1 / 30) alice); [lra| |reflexivity].
    unfold inWorld, PLAYER_RADIUS, WORLD_WIDTH, WORLD_HEIGHT. cbn. lra.
Defined.


(** *** Points and coins *)

Lemma filter_split_length (A : Type) (f : A -> bool) (l : list A) :
  (List.length (filter f l) + List.length (filter (fun a => negb (f a)) l)
   = List.length l)%nat.
Proof.
  induction l as [|a l IH]; cbn [filter]; [reflexivity|].
  destruct (f a); cbn [negb List.length]; lia.
Qed.

Lemma collide_total (ps : list (Z * Player.t)) (cs : JsMap.t Coin.t) :
  JsMap.wf cs ->
  (totalScore (fst (collide ps cs)) + Z.of_nat (List.length (snd (collide ps cs)))
   = totalScore ps + Z.of_nat (List.length cs))%Z.
Proof.
  revert cs. induction ps as [|[k p] rest IH]; intros cs Hwf; [reflexivity|].
  rewrite Simulation.collide_cons by exact Hwf. cbn [fst snd totalScore fold_right].
  fold (totalScore (fst (collide rest (untouchedBy p cs)))). fold (totalScore rest).
  specialize (IH (untouchedBy p cs) (wf_filter _ _ _ Hwf)).
  pose proof (filter_split_length _ (fun e : Z * Coin.t => touches p (snd e)) cs) as Hsplit.
  unfold credit. cbn [Player.score]. unfold touchedBy, untouchedBy in *. lia.
Qed.

Lemma totalScore_updatePlayers (dt : R) (m : JsMap.t Player.t) :
  totalScore (updatePlayers dt m) = totalScore m.
Proof.
  induction m as [|[k p] m IH]; [reflexivity|].
  cbn [updatePlayers map totalScore fold_right snd fst].
  fold (updatePlayers dt m). fold (totalScore (updatePlayers dt m)). fold (totalScore m).
  rewrite IH. reflexivity.
Qed.

Lemma collectCoins_trace (es cs : JsMap.t Coin.t) (p : Player.t) :
  let r := collectCoins p es cs in
  sameButScore p (fst r) /\ (Player.score p <= Player.score (fst r))%Z /\
  incl (snd r) cs.
Proof.
  revert cs p. induction es as [|[k c] rest IH]; intros cs p; cbn [collectCoins].
  - split; [apply Simulation.sameButScore_refl|]. split; [cbn; lia|apply incl_refl].
  - destruct (touches p c); [|apply IH].
    destruct (IH (JsMap.delete k cs) (addScore p)) as (Hs & Hle & Hin).
    split; [|split].
    + unfold sameButScore in *. cbn in Hs. exact Hs.
    + cbn in Hle. lia.
    + intros e He. apply Hin in He. unfold JsMap.delete in He.
      apply filter_In in He. tauto.
Qed.

(** What the collision pass does to each player, and that it makes no
    coin. *)
Lemma collide_trace (ps : list (Z * Player.t)) (cs : JsMap.t Coin.t) :
  Forall2 (fun e e' => fst e = fst e' /\ sameButScore (snd e) (snd e') /\
                       (Player.score (snd e) <= Player.score (snd e'))%Z)
          ps (fst (collide ps cs)) /\
  incl (snd (collide ps cs)) cs.
Proof.
  revert cs. induction ps as [|[k p] rest IH]; intros cs; cbn [collide].
  - split; [constructor|apply incl_refl].
  - pose proof (collectCoins_trace cs cs p) as Hp. unfold JsMap.entries.
    destruct (collectCoins p cs cs) as [p' cs']. cbn [fst snd] in Hp.
    destruct Hp as (Hs & Hle & Hin).
    destruct (IH cs') as [IHp IHc]. destruct (collide rest cs') as [rest' cs''].
    cbn [fst snd] in *. split.
    + constructor; [cbn; tauto|exact IHp].
    + intros e He. apply Hin, IHc, He.
Qed.

Lemma Forall2_in_l (A B : Type) (R : A -> B -> Prop) (l : list A) (l' : list B) (a : A) :
  Forall2 R l l' -> In a l -> exists b, In b l' /\ R a b.
Proof.
  induction 1 as [|a0 b0 l l' Hab _ IH]; cbn; [tauto|].
  intros [<-|Hin].
  - exists b0. auto.
  - destruct (IH Hin) as [b [Hb Hr]]. exists b. auto.
Qed.

(** A player after the tick, traced back to the player it was. *)
Lemma gameLoop_player_trace (now : Z) (w : World) (k : Z) (p' : Player.t) :
  In (k, p') (players (fst (gameLoop now w))) ->
  exists p, In (k, p) (players w) /\
            sameButScore (updatePlayer (elapsed now w) p) p' /\
            (Player.score p <= Player.score p')%Z.
Proof.
  rewrite Simulation.gameLoop_players. intros Hin.
  destruct (Simulation.Forall2_in_r _ _ _ _ _ _
              (proj1 (collide_trace (updatePlayers (elapsed now w) (players w)) (coins w)))
              Hin) as [[k1 p1] [Hin1 (Hk & Hs & Hle)]].
  unfold updatePlayers in Hin1. apply in_map_iff in Hin1.
  destruct Hin1 as [[k2 p2] [Heq Hin2]]. cbn [fst snd] in *.
  injection Heq as -> <-. subst k1. exists p2.
  split; [exact Hin2|split; assumption].
Qed.

Lemma gameLoop_player_kept (now : Z) (w : World) (k : Z) (p : Player.t) :
  In (k, p) (players w) ->
  exists p', In (k, p') (players (fst (gameLoop now w))) /\
             sameButScore (updatePlayer (elapsed now w) p) p' /\
             (Player.score p <= Player.score p')%Z.
Proof.
  rewrite Simulation.gameLoop_players. intros Hin.
  assert (Hin1 : In (k, updatePlayer (elapsed now w) p)
                    (updatePlayers (elapsed now w) (players w))).
  { unfold updatePlayers. apply in_map_iff. exists (k, p). auto. }
  destruct (Forall2_in_l _ _ _ _ _ _
              (proj1 (collide_trace (updatePlayers (elapsed now w) (players w)) (coins w)))
              Hin1) as [[k1 p1] [Hin2 (Hk & Hs & Hle)]].
  cbn [fst snd] in *. subst k1. exists p1.
  split; [exact Hin2|split; assumption].
Qed.

(** X2. A tick gives out exactly one point per coin it removes: the sum
    of the scores grows by the number of coins that leave the map.  It
    makes no coin, and no score goes down. *)
Theorem tick_pays_one_point_per_coin :
  forall (now : Z) (w : World),
    JsMap.wf (coins w) ->
    let w' := fst (gameLoop now w) in
    (totalScore (players w') - totalScore (players w)
     = Z.of_nat (List.length (coins w)) - Z.of_nat (List.length (coins w')))%Z /\
    incl (coins w') (coins w) /\
    (forall k p, In (k, p) (players w) ->
       exists p', In (k, p') (players w') /\ (Player.score p <= Player.score p')%Z).
Proof.
  intros now w Hwf w'. subst w'. split; [|split].
  - rewrite Simulation.gameLoop_players, Simulation.gameLoop_coins.
    pose proof (collide_total (updatePlayers (elapsed now w) (players w)) (coins w) Hwf) as H.
    rewrite totalScore_updatePlayers in H. lia.
  - rewrite Simulation.gameLoop_coins. apply collide_trace.
  - intros k p Hin. destruct (gameLoop_player_kept now w k p Hin) as (p' & Hin' & _ & Hle).
    exists p'. split; assumption.
Qed.

Lemma tick_pays_one_point_per_coin_witness :
  let w' := fst (gameLoop 1033 arena) in
  (totalScore (players w') - totalScore (players arena)
   = Z.of_nat (List.length (coins arena)) - Z.of_nat (List.length (coins w')))%Z /\
  incl (coins w') (coins arena) /\
  (forall k p, In (k, p) (players arena) ->
     exists p', In (k, p') (players w') /\ (Player.score p <= Player.score p')%Z).
Proof.
  apply (tick_pays_one_point_per_coin 1033 arena).
  unfold JsMap.wf. cbn. repeat constructor; cbn; tauto.
Defined.

(** X3. The coins left after a tick are exactly the coins that no
    player touches once all players have moved, each as it was, in their
    old order; the tick keeps the players' keys and their order, hands out
    no id, and records its time. *)
Theorem tick_keeps_untouched_coins :
  forall (now : Z) (w : World),
    JsMap.wf (coins w) ->
    let moved := updatePlayers (elapsed now w) (players w) in
    let w' := fst (gameLoop now w) in
    coins w' = filter (fun e => negb (existsb (fun pe => touches (snd pe) (snd e)) moved))
                      (coins w) /\
    (forall k c, In (k, c) (coins w') <->
                 In (k, c) (coins w) /\ forall e, In e moved -> ~ overlaps (snd e) c) /\
    JsMap.keys (players w') = JsMap.keys (players w) /\
    nextPlayerId w' = nextPlayerId w /\ nextCoinId w' = nextCoinId w /\
    lastUpdateTime w' = now.
Proof.
  intros now w Hwf moved w'.
  assert (Hc : coins w' = filter (fun e => negb (existsb (fun pe => touches (snd pe) (snd e)) moved))
                                 (coins w)).
  { subst w' moved. rewrite Simulation.gameLoop_coins. now apply Simulation.collide_coins. }
  split; [exact Hc|]. split; [|split; [|split; [|split]]].
  - intros k c. rewrite Hc, filter_In. cbn [snd]. split.
    + intros [Hin Hneg]. split; [exact Hin|]. intros e He Ho.
      apply negb_true_iff in Hneg.
      assert (Hex : existsb (fun pe => touches (snd pe) c) moved = true).
      { apply existsb_exists. exists e. split; [exact He|].
        now apply Simulation.touches_true_iff. }
      congruence.
    + intros [Hin Hno]. split; [exact Hin|]. apply negb_true_iff.
      apply not_true_is_false. intros Hex. apply existsb_exists in Hex.
      destruct Hex as [e [He Ht]]. apply (Hno e He).
      now apply Simulation.touches_true_iff.
  - apply Connections.gameLoop_players_keys.
  - apply Connections.gameLoop_nextPlayerId.
  - subst w'. unfold gameLoop. destruct (collide _ _). reflexivity.
  - subst w'. unfold gameLoop. destruct (collide _ _). reflexivity.
Qed.

Lemma tick_keeps_untouched_coins_witness :
  JsMap.keys (players (fst (gameLoop 1033 arena))) = JsMap.keys (players arena) /\
  lastUpdateTime (fst (gameLoop 1033 arena)) = 1033%Z.
Proof.
  assert (Hwf : JsMap.wf (coins arena))
    by (unfold JsMap.wf; cbn; repeat constructor; cbn; tauto).
  destruct (tick_keeps_untouched_coins 1033 arena Hwf) as (_ & _ & Hk & _ & _ & Ht).
  split; assumption.
Defined.


End Ticks.

(** * More about the registry and the world *)

Module Registry.

Import Server Vocabulary Measures Samples JsMapFacts.
Local Open Scope R_scope.

(** *** Lists and maps *)

Lemma set_absent (V : Type) (k : Z) (v : V) (m : JsMap.t V) :
  ~ In k (JsMap.keys m) -> JsMap.set k v m = m ++ [(k, v)].
Proof.
  induction m as [|[k' v'] m IH]; cbn; intros Hn; [reflexivity|].
  destruct (Z.eqb_spec k' k) as [->|Hne]; [tauto|].
  f_equal. apply IH. tauto.
Qed.

Lemma set_present (V : Type) (k : Z) (v : V) (m : JsMap.t V) :
  JsMap.wf m -> In k (JsMap.keys m) ->
  JsMap.set k v m = map (fun e => if Z.eqb (fst e) k then (k, v) else e) m.
Proof.
  unfold JsMap.wf. induction m as [|[k' v'] m IH]; cbn; intros Hnd Hin; [tauto|].
  inversion Hnd as [|? ? Hnotin Hnd']; subst.
  destruct (Z.eqb_spec k' k) as [->|Hne].
  - f_equal. clear IH Hin Hnd. induction m as [|[k0 v0] m IHm]; cbn; [reflexivity|].
    cbn in Hnotin. destruct (Z.eqb_spec k0 k) as [->|Hne0]; [tauto|].
    f_equal. apply IHm. tauto. now inversion Hnd'.
  - f_equal. apply IH; [exact Hnd'|]. destruct Hin; [congruence|assumption].
Qed.

Lemma find_app_none (A : Type) (f : A -> bool) (l : list A) (a : A) :
  find f l = None -> find f (l ++ [a]) = if f a then Some a else None.
Proof.
  induction l as [|b l IH]; cbn; [reflexivity|].
  destruct (f b); [discriminate|exact IH].
Qed.



Lemma NoDup_map_eq (A B : Type) (f : A -> B) (l : list A) (a b : A) :
  NoDup (map f l) -> In a l -> In b l -> f a = f b -> a = b.
Proof.
  induction l as [|c l IH]; cbn; [tauto|]. intros Hnd Ha Hb Hf.
  inversion Hnd as [|? ? Hnotin Hnd']; subst.
  destruct Ha as [->|Ha]; destruct Hb as [->|Hb]; auto.
  - exfalso. apply Hnotin. rewrite Hf. now apply in_map.
  - exfalso. apply Hnotin. rewrite <- Hf. now apply in_map.
Qed.

Lemma arena_consistent : consistent arena.
Proof.
  split.
  - unfold JsMap.wf. cbn. repeat constructor; cbn; intuition lia.
  - intros k p [Heq|[Heq|[Heq|[]]]]; injection Heq as <- <-; cbn; split; reflexivity || lia.
Qed.

(** *** Connecting *)

(** The map after a connection is registered. *)
Lemma createPlayer_players (ws : Socket) (rx ry : R) (w : World) :
  consistent w ->
  let player := fst (createPlayer ws rx ry w) in
  let w' := snd (createPlayer ws rx ry w) in
  ~ In (Player.id player) (JsMap.keys (players w)) /\
  players w' = players w ++ [(Player.id player, player)] /\
  (findBySocket ws (players w) = None ->
   findBySocket ws (players w') = Some (Player.id player, player)).
Proof.
  intros Hc player w'.
  assert (Hfresh : ~ In (nextPlayerId w) (JsMap.keys (players w))).
  { intros Hin. unfold JsMap.keys in Hin. apply in_map_iff in Hin.
    destruct Hin as [[k p] [Hk Hin]]. cbn in Hk. subst k.
    destruct (proj2 Hc _ _ Hin) as [_ Hlt]. lia. }
  assert (Hplayers : players w' = players w ++ [(nextPlayerId w, player)]).
  { subst w' player. unfold createPlayer. cbn [snd fst players].
    now apply set_absent. }
  split; [exact Hfresh|]. split; [exact Hplayers|].
  intros Hnone. unfold findBySocket, JsMap.entries in *. rewrite Hplayers.
  rewrite find_app_none by exact Hnone. cbn [snd].
  change (Player.ws player) with ws. now rewrite Nat.eqb_refl.
Qed.

(** X4. Registering a connection appends one player to the map, under an
    id that no player holds, and changes no other player and no coin; the
    new player has no points, no key held and no velocity, stands inside
    the world when the draws are values [Math.random()] returns, and is
    the player the registry finds for the socket if the socket had none. *)
Theorem createPlayer_appends_fresh :
  forall (ws : Socket) (rx ry : R) (w : World),
    consistent w ->
    let player := fst (createPlayer ws rx ry w) in
    let w' := snd (createPlayer ws rx ry w) in
    Player.id player = nextPlayerId w /\
    ~ In (Player.id player) (JsMap.keys (players w)) /\
    players w' = players w ++ [(Player.id player, player)] /\
    nextPlayerId w' = (nextPlayerId w + 1)%Z /\
    coins w' = coins w /\
    Player.score player = 0%Z /\
    Player.input player = mkInput false false false false /\
    Player.vx player = 0 /\ Player.vy player = 0 /\ Player.ws player = ws /\
    (isDraw rx -> isDraw ry -> inWorld (Player.x player) (Player.y player)) /\
    (findBySocket ws (players w) = None ->
     findBySocket ws (players w') = Some (Player.id player, player)) /\
    consistent w'.
Proof.
  intros ws rx ry w Hc player w'.
  destruct (createPlayer_players ws rx ry w Hc) as (Hfresh & Hplayers & Hfound).
  fold player in Hfresh, Hplayers, Hfound. fold w' in Hplayers, Hfound.
  split; [reflexivity|]. split; [exact Hfresh|]. split; [exact Hplayers|].
  repeat (split; [reflexivity|]).
  split; [|split].
  - intros [Hx0 Hx1] [Hy0 Hy1]. subst player. unfold createPlayer, randomPosition.
    cbn [fst snd Player.x Player.y].
    unfold inWorld, PLAYER_RADIUS, WORLD_WIDTH, WORLD_HEIGHT. nra.
  - exact Hfound.
  - now apply Connections.consistent_createPlayer.
Qed.

Lemma createPlayer_appends_fresh_witness :
  let player := fst (createPlayer 14%nat (1 / 2) (1 / 4) arena) in
  let w' := snd (createPlayer 14%nat (1 / 2) (1 / 4) arena) in
  players w' = players arena ++ [(4%Z, player)] /\
  inWorld (Player.x player) (Player.y player) /\
  findBySocket 14%nat (players w') = Some (4%Z, player).
Proof.
  intros player w'.
  destruct (createPlayer_appends_fresh 14%nat (1 / 2) (1 / 4) arena arena_consistent)
    as (_ & _ & Hp & _ & _ & _ & _ & _ & _ & _ & Hin & Hfind & _).
  split; [exact Hp|]. split.
  - apply Hin; unfold isDraw; lra.
  - apply Hfind. reflexivity.
Defined.

(** *** Disconnecting *)

Lemma world_eta (w : World) :
  mkWorld (nextPlayerId w) (nextCoinId w) (players w) (coins w) (lastUpdateTime w) = w.
Proof. destruct w. reflexivity. Qed.

Lemma findBySocket_deleted (ws : Socket) (k : Z) (p : Player.t) (m : JsMap.t Player.t) :
  NoDup (map (fun e => Player.ws (snd e)) m) ->
  findBySocket ws m = Some (k, p) ->
  findBySocket ws (JsMap.delete k m) = None.
Proof.
  intros Hnd Hfind. unfold findBySocket, JsMap.entries in *.
  destruct (find _ (JsMap.delete k m)) as [[k' p']|] eqn:Hf; [|reflexivity].
  exfalso. apply find_some in Hf. destruct Hf as [Hin Hws]. cbn [snd] in Hws.
  apply find_some in Hfind. destruct Hfind as [Hin0 Hws0]. cbn [snd] in Hws0.
  unfold JsMap.delete in Hin. apply filter_In in Hin. destruct Hin as [Hin Hne].
  cbn [fst] in Hne.
  assert (Heq : (k', p') = (k, p)).
  { apply (NoDup_map_eq _ _ (fun e => Player.ws (snd e)) m); auto. cbn [snd].
    apply Nat.eqb_eq in Hws. apply Nat.eqb_eq in Hws0. congruence. }
  injection Heq as -> _. rewrite Z.eqb_refl in Hne. discriminate.
Qed.

(** Nothing to remove for a socket that has no player. *)
Lemma removePlayerBySocket_none (ws : Socket) (w : World) :
  findBySocket ws (players w) = None -> removePlayerBySocket ws w = w.
Proof.
  intros Hf. unfold removePlayerBySocket, findBySocket, JsMap.entries in *.
  rewrite Connections.removeFirstBySocket_find, Hf. apply world_eta.
Qed.




(** *** Spawning *)

Lemma nextCoinId_handleClientMessage (ws : Socket) (msg : JsValue) (w : World) :
  nextCoinId (handleClientMessage ws msg w) = nextCoinId w.
Proof.
  destruct (Connections.handleClientMessage_cases ws msg w)
    as [->|(k & p & i & _ & ->)]; reflexivity.
Qed.

Lemma steps_coinsBelow (JSON_parse : string -> Completion JsValue)
    (evs : list (Z * Event)) (s s' : Process) :
  steps JSON_parse evs s = Normal s' ->
  coinsBelow (world s) -> coinsBelow (world s').
Proof.
  apply Connections.steps_invariant.
  - intros ws rx ry w H. exact H.
  - intros ws w H. exact H.
  - intros ws msg w H k Hk. rewrite nextCoinId_handleClientMessage.
    rewrite Connections.coins_handleClientMessage in Hk. now apply H.
  - intros now w H k Hk.
    replace (nextCoinId (fst (gameLoop now w))) with (nextCoinId w)
      by (unfold gameLoop; destruct (collide _ _); reflexivity).
    apply H. rewrite Simulation.gameLoop_coins in Hk.
    unfold JsMap.keys in *. apply in_map_iff in Hk. destruct Hk as [e [<- He]].
    apply in_map.
    exact (proj2 (Ticks.collide_trace (updatePlayers (elapsed now w) (players w)) (coins w))
                 e He).
  - intros rx ry w H k Hk. unfold spawnCoin in *. cbn [coins nextCoinId Coin.id] in *.
    rewrite keys_set in Hk. destruct (JsMap.has _ _).
    + apply H in Hk. lia.
    + apply in_app_or in Hk. destruct Hk as [Hk|[<-|[]]]; [apply H in Hk|]; lia.
Qed.

(** X6. In every state the server reaches, spawning appends one coin to
    the map under an id no coin holds, so that no live coin is
    overwritten; it touches no player, and the coin lies inside the margin
    when the draws are values [Math.random()] returns. *)
Theorem spawnCoin_appends_fresh :
  forall (JSON_parse : string -> Completion JsValue) (t0 : Z)
         (history : list (Z * Event)) (s : Process) (rx ry : R),
    steps JSON_parse history (start t0) = Normal s ->
    let w := world s in
    let w' := spawnCoin rx ry w in
    let coin := Coin.mk (nextCoinId w) (fst (randomPosition rx ry)) (snd (randomPosition rx ry)) in
    ~ In (nextCoinId w) (JsMap.keys (coins w)) /\
    coins w' = coins w ++ [(nextCoinId w, coin)] /\
    nextCoinId w' = (nextCoinId w + 1)%Z /\
    players w' = players w /\
    (isDraw rx -> isDraw ry -> inMargin (Coin.x coin) (Coin.y coin)).
Proof.
  intros JSON_parse t0 history s rx ry Hreach w w' coin.
  assert (Hbelow : coinsBelow w).
  { apply (steps_coinsBelow JSON_parse history (start t0) s Hreach). intros k []. }
  assert (Hfresh : ~ In (nextCoinId w) (JsMap.keys (coins w))).
  { intros Hin. apply Hbelow in Hin. lia. }
  split; [exact Hfresh|]. split; [|split; [reflexivity|split; [reflexivity|]]].
  - subst w'. unfold spawnCoin. cbn [coins Coin.id]. now apply set_absent.
  - intros [Hx0 Hx1] [Hy0 Hy1]. subst coin. unfold randomPosition.
    cbn [fst snd Coin.x Coin.y]. unfold inMargin, WORLD_WIDTH, WORLD_HEIGHT. nra.
Qed.

Lemma spawnCoin_appends_fresh_witness :
  coins (spawnCoin (1 / 2) (1 / 2) (world lounge))
  = coins (world lounge)
    ++ [(nextCoinId (world lounge),
         Coin.mk (nextCoinId (world lounge))
                 (fst (randomPosition (1 / 2) (1 / 2)))
                 (snd (randomPosition (1 / 2) (1 / 2))))].
Proof.
  apply (spawnCoin_appends_fresh toyParse 0%Z twoJoin lounge (1 / 2) (1 / 2) eq_refl).
Defined.

(** *** Input messages *)

Lemma inputMessage_read (i : Input) :
  prop "type" (Controls.inputMessage i) = Some (JString "input") /\
  mkInput (truthy (prop "up" (Controls.inputMessage i)))
          (truthy (prop "down" (Controls.inputMessage i)))
          (truthy (prop "left" (Controls.inputMessage i)))
          (truthy (prop "right" (Controls.inputMessage i))) = i.
Proof. destruct i. split; reflexivity. Qed.

Lemma handleClientMessage_spec (ws : Socket) (msg : JsValue) (w : World) :
  handleClientMessage ws msg w = w \/
  exists k p i,
    findBySocket ws (players w) = Some (k, p) /\
    handleClientMessage ws msg w =
    mkWorld (nextPlayerId w) (nextCoinId w) (JsMap.set k (setInput i p) (players w))
            (coins w) (lastUpdateTime w).
Proof.
  unfold handleClientMessage.
  destruct (negb (truthy (Some msg)) || negb (isObject msg)); [tauto|].
  destruct (findBySocket ws (players w)) as [[k p]|] eqn:Hf; [|tauto].
  destruct (prop "type" msg) as [[| | |ty| |]|]; try tauto.
  destruct (String.eqb ty "input"); [|tauto].
  right. eexists k, p, _. split; reflexivity.
Qed.

Lemma Forall2_map_r (A : Type) (R : A -> A -> Prop) (f : A -> A) (l : list A) :
  (forall a, In a l -> R a (f a)) -> Forall2 R l (map f l).
Proof.
  induction l as [|a l IH]; cbn; intros H; constructor.
  - apply H. now left.
  - apply IH. intros b Hb. apply H. now right.
Qed.

(** A message changes at most the input of a player. *)
Lemma handleClientMessage_sameButInput (ws : Socket) (msg : JsValue) (w : World) :
  JsMap.wf (players w) ->
  Forall2 (fun e e' => fst e = fst e' /\ sameButInput (snd e) (snd e'))
          (players w) (players (handleClientMessage ws msg w)).
Proof.
  intros Hwf.
  destruct (handleClientMessage_spec ws msg w) as [Hsame|(k & p & i & Hfind & Heq)].
  - rewrite Hsame. clear. generalize (players w). intros m.
    induction m as [|e m IH]; constructor; [|exact IH].
    unfold sameButInput. tauto.
  - rewrite Heq. cbn [players].
    assert (Hin : In (k, p) (players w)).
    { unfold findBySocket in Hfind. eapply Connections.find_In; eauto. }
    rewrite set_present by (try exact Hwf; eapply Connections.In_keys; eauto).
    apply Forall2_map_r. intros [k0 p0] Hin0. cbn [fst snd].
    destruct (Z.eqb_spec k0 k) as [->|Hne]; cbn [fst snd].
    + split; [reflexivity|].
      assert (p0 = p).
      { pose proof (In_get _ k p0 _ Hwf Hin0) as H0.
        pose proof (In_get _ k p _ Hwf Hin) as H1. congruence. }
      subst p0. unfold sameButInput. cbn. tauto.
    + unfold sameButInput. tauto.
Qed.

(** X7. A message from a client changes nothing of the world but the
    input flags of the first player on its socket: ids, positions,
    velocities, scores, sockets, coins and counters stay, and a message on
    a socket without a player changes nothing at all.  The message
    [sendInput] builds sets that player's flags to the flags the client
    holds. *)
Theorem handleClientMessage_sets_input_only :
  forall (ws : Socket) (msg : JsValue) (w : World),
    JsMap.wf (players w) ->
    let w' := handleClientMessage ws msg w in
    nextPlayerId w' = nextPlayerId w /\ nextCoinId w' = nextCoinId w /\
    coins w' = coins w /\ lastUpdateTime w' = lastUpdateTime w /\
    Forall2 (fun e e' => fst e = fst e' /\ sameButInput (snd e) (snd e'))
            (players w) (players w') /\
    (findBySocket ws (players w) = None -> w' = w) /\
    (forall k p, findBySocket ws (players w) = Some (k, p) ->
       (forall j, j <> k -> JsMap.get j (players w') = JsMap.get j (players w)) /\
       forall i, JsMap.get k (players (handleClientMessage ws (Controls.inputMessage i) w))
                 = Some (setInput i p)).
Proof.
  intros ws msg w Hwf w'.
  pose proof (handleClientMessage_sameButInput ws msg w Hwf) as Hsim.
  assert (Hround : forall k p, findBySocket ws (players w) = Some (k, p) ->
            forall i, JsMap.get k (players (handleClientMessage ws (Controls.inputMessage i) w))
                      = Some (setInput i p)).
  { intros k p Hfind i. unfold handleClientMessage.
    destruct (inputMessage_read i) as [Hty Hflags].
    replace (negb (truthy (Some (Controls.inputMessage i)))
             || negb (isObject (Controls.inputMessage i))) with false by reflexivity.
    rewrite Hfind, Hty.
    replace (String.eqb "input" "input") with true by reflexivity.
    rewrite Hflags. cbn [players]. apply get_set_same. }
  destruct (handleClientMessage_spec ws msg w) as [Hsame|(k & p & i & Hfind & Heq)].
  - subst w'. rewrite Hsame in Hsim |- *. repeat (split; [reflexivity|]).
    split; [exact Hsim|]. split; [reflexivity|].
    intros k p Hfind. split; [reflexivity|]. now apply Hround.
  - subst w'. rewrite Heq in Hsim |- *.
    cbn [nextPlayerId nextCoinId coins lastUpdateTime players] in Hsim |- *.
    repeat (split; [reflexivity|]).
    split; [exact Hsim|split].
    + rewrite Hfind. discriminate.
    + intros k' p' Hfind'. rewrite Hfind in Hfind'. injection Hfind' as <- <-.
      split; [|now apply Hround].
      intros j Hj. now apply get_set_other.
Qed.

Lemma handleClientMessage_sets_input_only_witness :
  handleClientMessage 99%nat (Controls.inputMessage downRight) arena = arena /\
  JsMap.get 1 (players (handleClientMessage 12%nat (Controls.inputMessage downRight) arena))
  = JsMap.get 1 (players arena) /\
  JsMap.get 2 (players (handleClientMessage 12%nat (Controls.inputMessage downRight) arena))
  = Some (setInput downRight bob).
Proof.
  destruct (handleClientMessage_sets_input_only 99%nat (Controls.inputMessage downRight)
              arena (proj1 arena_consistent)) as (_ & _ & _ & _ & _ & Hnone & _).
  destruct (handleClientMessage_sets_input_only 12%nat (Controls.inputMessage downRight)
              arena (proj1 arena_consistent)) as (_ & _ & _ & _ & _ & _ & Hsome).
  destruct (Hsome 2%Z bob eq_refl) as [Hother Hset].
  split; [apply Hnone; reflexivity|]. split; [apply Hother; lia|apply Hset].
Defined.


(** *** What every run keeps *)

Lemma placed_step (JSON_parse : string -> Completion JsValue)
    (now : Z) (ev : Event) (s s' : Process) :
  validDraws ev ->
  step JSON_parse now ev s = Normal s' ->
  placed (world s) -> placed (world s').
Proof.
  destruct ev as [ws rx ry|ws raw|ws| |rx ry|]; cbn [step validDraws].
  - intros [[Hx0 Hx1] [Hy0 Hy1]] [= <-] [Hp Hc]. rewrite Connections.world_onConnection.
    unfold createPlayer. cbn [snd]. split; cbn [players coins]; [|exact Hc].
    intros k p Hin. apply Connections.In_set in Hin. destruct Hin as [Heq|Hin]; [|eauto].
    injection Heq as -> ->. unfold randomPosition. cbn [fst snd Player.x Player.y Player.score].
    unfold inWorld, PLAYER_RADIUS, WORLD_WIDTH, WORLD_HEIGHT. split; [nra|lia].
  - intros _ [= <-]. auto.
  - intros _ [= <-] [Hp Hc]. rewrite Connections.world_onClose.
    unfold removePlayerBySocket. split; cbn [players coins]; [|exact Hc].
    destruct (Connections.removeFirstBySocket_cases ws (JsMap.entries (players (world s)))
                (players (world s))) as [->|[k ->]]; [exact Hp|].
    intros k' p Hin. apply (Hp k'). eapply Connections.In_delete; eauto.
  - intros _ [= <-] [Hp Hc]. rewrite Connections.world_onTick. split.
    + intros k p' Hin.
      destruct (Ticks.gameLoop_player_trace now _ k p' Hin) as (p & Hin0 & Hs & Hle).
      destruct (Hp k p Hin0) as [_ Hscore].
      destruct Hs as (_ & Hx & Hy & _). rewrite <- Hx, <- Hy.
      split; [apply Simulation.updatePlayer_bounds|lia].
    + intros k c Hin. apply (Hc k). rewrite Simulation.gameLoop_coins in Hin.
      exact (proj2 (Ticks.collide_trace _ _) _ Hin).
  - intros [[Hx0 Hx1] [Hy0 Hy1]] [= <-] [Hp Hc]. cbn [onSpawn setWorld world].
    unfold spawnCoin. split; cbn [players coins]; [exact Hp|].
    intros k c Hin. apply Connections.In_set in Hin. destruct Hin as [Heq|Hin]; [|eauto].
    injection Heq as _ ->. unfold randomPosition. cbn [fst snd Coin.x Coin.y].
    unfold inMargin, WORLD_WIDTH, WORLD_HEIGHT. nra.
  - intros _ Hfire Hplaced. unfold runTimers in Hfire.
    refine (Connections.fire_invariant JSON_parse placed _ now (timers s)
              (keepPending now s) s' Hfire Hplaced).
    intros ws msg w [Hp Hc].
    destruct (handleClientMessage_spec ws msg w) as [->|(k & p & i & Hfind & ->)];
      [split; assumption|].
    split; cbn [players coins]; [|exact Hc].
    intros k' p' Hin. apply Connections.In_set in Hin. destruct Hin as [Heq|Hin]; [|eauto].
    injection Heq as -> ->. cbn [setInput Player.x Player.y Player.score].
    apply (Hp k p). unfold findBySocket in Hfind. eapply Connections.find_In; eauto.
Qed.

(** X8. Along every run of the server whose random draws are values
    [Math.random()] returns, every player on the map stands inside the
    world with a score that is not negative, and every coin lies inside
    the margin. *)
Theorem run_keeps_everything_placed :
  forall (JSON_parse : string -> Completion JsValue) (t0 : Z)
         (history : list (Z * Event)) (s : Process),
    Forall (fun e => validDraws (snd e)) history ->
    steps JSON_parse history (start t0) = Normal s ->
    placed (world s).
Proof.
  intros JSON_parse t0 history s Hvalid Hsteps.
  assert (Hgen : forall evs s0 s1,
             Forall (fun e => validDraws (snd e)) evs ->
             steps JSON_parse evs s0 = Normal s1 ->
             placed (world s0) -> placed (world s1)).
  { induction evs as [|[now ev] rest IH]; intros s0 s1 Hv; cbn [steps].
    - intros [= <-]. auto.
    - inversion Hv as [|? ? Hev Hrest]; subst. cbn [snd] in Hev.
      destruct (step JSON_parse now ev s0) as [s2|e] eqn:Hstep; [|discriminate].
      intros Hs Hp. eapply IH; eauto. eapply placed_step; eauto. }
  apply (Hgen history (start t0) s Hvalid Hsteps).
  split; intros k x [].
Qed.

Lemma run_keeps_everything_placed_witness : placed (world lounge).
Proof.
  apply (run_keeps_everything_placed toyParse 0%Z twoJoin lounge); [|reflexivity].
  unfold twoJoin. repeat constructor; cbn; lra.
Defined.

(** X9. While a player stays on the map its score never goes down, and
    its id and its socket never change, whatever the server goes through:
    connections, closings, messages, ticks, spawns and timers. *)
Theorem score_never_goes_down :
  forall (JSON_parse : string -> Completion JsValue) (t0 : Z)
         (history evs : list (Z * Event)) (s s' : Process)
         (k : Z) (p p' : Player.t),
    steps JSON_parse history (start t0) = Normal s ->
    steps JSON_parse evs s = Normal s' ->
    JsMap.get k (players (world s)) = Some p ->
    JsMap.get k (players (world s')) = Some p' ->
    (Player.score p <= Player.score p')%Z /\
    Player.id p' = Player.id p /\ Player.ws p' = Player.ws p.
Proof.
  intros JSON_parse t0 history evs s s' k p p' Hreach Hsteps Hget Hget'.
  destruct (Connections.reachable_consistent JSON_parse t0 history s Hreach) as [Hc _].
  set (P := fun w : World =>
              consistent w /\ (k < nextPlayerId w)%Z /\
              forall q, JsMap.get k (players w) = Some q ->
                        (Player.score p <= Player.score q)%Z /\ Player.ws q = Player.ws p).
  assert (HP : P (world s')).
  { apply (Connections.steps_invariant JSON_parse P) with (evs := evs) (s := s);
      [| | | | |exact Hsteps|].
    - intros ws rx ry w (Hcw & Hlt & Hq). split; [now apply Connections.consistent_createPlayer|].
      unfold createPlayer. cbn [snd nextPlayerId players]. split; [lia|].
      intros q Hg. rewrite get_set_other in Hg by lia. now apply Hq.
    - intros ws w (Hcw & Hlt & Hq).
      split; [now apply Connections.consistent_removePlayerBySocket|].
      split; [exact Hlt|]. unfold removePlayerBySocket. cbn [players].
      destruct (Connections.removeFirstBySocket_cases ws (JsMap.entries (players w))
                  (players w)) as [->|[j ->]]; [exact Hq|].
      intros q Hg. destruct (Z.eq_dec k j) as [->|Hne].
      + rewrite get_delete_same in Hg. discriminate.
      + rewrite get_delete_other in Hg by exact Hne. now apply Hq.
    - intros ws msg w (Hcw & Hlt & Hq).
      split; [now apply Connections.consistent_handleClientMessage|].
      destruct (handleClientMessage_spec ws msg w) as [->|(k0 & p0 & i & Hfind & ->)];
        [split; assumption|].
      cbn [nextPlayerId players]. split; [exact Hlt|].
      intros q Hg. destruct (Z.eq_dec k k0) as [<-|Hne].
      + rewrite get_set_same in Hg. injection Hg as <-. cbn [setInput Player.score Player.ws].
        apply Hq. apply In_get; [apply Hcw|].
        unfold findBySocket in Hfind. eapply Connections.find_In; eauto.
      + rewrite get_set_other in Hg by exact Hne. now apply Hq.
    - intros now w (Hcw & Hlt & Hq).
      split; [now apply Connections.consistent_gameLoop|].
      rewrite Connections.gameLoop_nextPlayerId. split; [exact Hlt|].
      intros q' Hg. apply get_In in Hg.
      destruct (Ticks.gameLoop_player_trace now w k q' Hg) as (q & Hin & Hs & Hle).
      destruct (Hq q (In_get _ k q _ (proj1 Hcw) Hin)) as [Hle0 Hws].
      split; [lia|]. destruct Hs as (_ & _ & _ & _ & _ & _ & Hws'). cbn in Hws'. congruence.
    - intros rx ry w H. exact H.
    - split; [exact Hc|]. split.
      + apply get_In in Hget. now apply (proj2 Hc k p).
      + intros q Hg. rewrite Hget in Hg. injection Hg as <-. split; [lia|reflexivity]. }
  destruct HP as (Hc' & _ & Hq). destruct (Hq p' Hget') as [Hle Hws].
  split; [exact Hle|]. split; [|exact Hws].
  apply get_In in Hget, Hget'.
  rewrite (proj1 (proj2 Hc k p Hget)), (proj1 (proj2 Hc' k p' Hget')). reflexivity.
Qed.

Lemma score_never_goes_down_witness :
  exists p p',
    JsMap.get 1 (players (world lounge)) = Some p /\
    JsMap.get 1 (players (world (onTick 33 lounge))) = Some p' /\
    (Player.score p <= Player.score p')%Z /\
    Player.id p' = Player.id p /\ Player.ws p' = Player.ws p.
Proof.
  eexists. eexists. split; [reflexivity|]. split; [reflexivity|].
  apply (score_never_goes_down toyParse 0%Z twoJoin [(33%Z, Tick)] lounge (onTick 33 lounge)
           1%Z _ _ eq_refl eq_refl eq_refl eq_refl).
Defined.


(** *** One player per connection *)

Lemma socketsOf_same (ps ps' : JsMap.t Player.t) :
  Forall2 (fun e e' => Player.ws (snd e) = Player.ws (snd e')) ps ps' ->
  socketsOf ps' = socketsOf ps.
Proof.
  unfold socketsOf. induction 1 as [|e e' ps ps' He _ IH]; cbn [map]; [reflexivity|].
  now rewrite He, IH.
Qed.

Lemma Forall2_weaken (A B : Type) (R R' : A -> B -> Prop) (l : list A) (l' : list B) :
  (forall a b, R a b -> R' a b) -> Forall2 R l l' -> Forall2 R' l l'.
Proof. intros H. induction 1; constructor; auto. Qed.

Lemma socketsOf_gameLoop (now : Z) (w : World) :
  socketsOf (players (fst (gameLoop now w))) = socketsOf (players w).
Proof.
  rewrite Simulation.gameLoop_players.
  rewrite (socketsOf_same (updatePlayers (elapsed now w) (players w))).
  - unfold socketsOf, updatePlayers. rewrite map_map. reflexivity.
  - eapply Forall2_weaken; [|apply Simulation.collide_sameButScore].
    intros a b [_ Hs]. unfold sameButScore in Hs. tauto.
Qed.

Lemma socketsOf_handleClientMessage (ws : Socket) (msg : JsValue) (w : World) :
  JsMap.wf (players w) ->
  socketsOf (players (handleClientMessage ws msg w)) = socketsOf (players w).
Proof.
  intros Hwf. apply socketsOf_same.
  eapply Forall2_weaken; [|exact (handleClientMessage_sameButInput ws msg w Hwf)].
  intros a b [_ Hs].
  unfold sameButInput in Hs. tauto.
Qed.

Lemma NoDup_map_filter (A B : Type) (f : A -> B) (g : A -> bool) (l : list A) :
  NoDup (map f l) -> NoDup (map f (filter g l)).
Proof.
  induction l as [|a l IH]; cbn; intros Hnd; [constructor|].
  inversion Hnd as [|? ? Hnotin Hnd']; subst.
  destruct (g a); cbn; [|now apply IH].
  constructor; [|now apply IH].
  intros Hin. apply Hnotin. apply in_map_iff in Hin. destruct Hin as [b [Hb Hin]].
  apply filter_In in Hin. rewrite <- Hb. apply in_map. tauto.
Qed.

Lemma find_none_sockets (ws : Socket) (m : JsMap.t Player.t) :
  findBySocket ws m = None <-> ~ In ws (socketsOf m).
Proof.
  unfold findBySocket, JsMap.entries, socketsOf. split.
  - intros Hf Hin. apply in_map_iff in Hin. destruct Hin as [e [He Hin]].
    pose proof (find_none _ _ Hf e Hin) as Hn. cbn in Hn.
    rewrite He, Nat.eqb_refl in Hn. discriminate.
  - intros Hn. destruct (find _ m) as [e|] eqn:Hf; [|reflexivity].
    exfalso. apply find_some in Hf. destruct Hf as [Hin Heq].
    apply Hn. apply in_map_iff. exists e. split; [|exact Hin].
    now apply Nat.eqb_eq.
Qed.

Lemma distinct_step (JSON_parse : string -> Completion JsValue)
    (now : Z) (ev : Event) (s s' : Process) :
  match ev with
  | Connection ws _ _ => findBySocket ws (players (world s)) = None
  | _ => True
  end ->
  step JSON_parse now ev s = Normal s' ->
  consistent (world s) /\ NoDup (socketsOf (players (world s))) ->
  consistent (world s') /\ NoDup (socketsOf (players (world s'))).
Proof.
  destruct ev as [ws rx ry|ws raw|ws| |rx ry|]; cbn [step].
  - intros Hfresh [= <-] [Hc Hnd]. rewrite Connections.world_onConnection.
    destruct (createPlayer_players ws rx ry (world s) Hc) as (_ & Hp & _).
    split; [now apply Connections.consistent_createPlayer|].
    rewrite Hp. unfold socketsOf in *. rewrite map_app. cbn [map snd].
    change (Player.ws (fst (createPlayer ws rx ry (world s)))) with ws. apply NoDup_app; [exact Hnd|repeat constructor; cbn; tauto|].
    intros x Hx [<-|[]]. now apply (proj1 (find_none_sockets ws (players (world s)))).
  - intros _ [= <-]. auto.
  - intros _ [= <-] [Hc Hnd]. rewrite Connections.world_onClose.
    split; [now apply Connections.consistent_removePlayerBySocket|].
    unfold removePlayerBySocket. cbn [players].
    destruct (Connections.removeFirstBySocket_cases ws (JsMap.entries (players (world s)))
                (players (world s))) as [->|[k ->]]; [exact Hnd|].
    now apply NoDup_map_filter.
  - intros _ [= <-] [Hc Hnd]. rewrite Connections.world_onTick.
    split; [now apply Connections.consistent_gameLoop|].
    now rewrite socketsOf_gameLoop.
  - intros _ [= <-]. auto.
  - intros _ Hfire Hinv. unfold runTimers in Hfire.
    refine (Connections.fire_invariant JSON_parse
              (fun w => consistent w /\ NoDup (socketsOf (players w))) _ now (timers s)
              (keepPending now s) s' Hfire Hinv).
    intros ws msg w [Hc Hnd].
    split; [now apply Connections.consistent_handleClientMessage|].
    rewrite socketsOf_handleClientMessage; [exact Hnd|apply Hc].
Qed.

(** X10. In a run where every connection comes on a socket that has no
    player at that moment, no two players ever share a socket; closing a
    connection then leaves no player on it, so the registry finds none
    and a second closing has nothing to remove. *)
Theorem one_player_per_connection :
  forall (JSON_parse : string -> Completion JsValue) (t0 : Z)
         (history : list (Z * Event)) (s : Process),
    socketsFresh JSON_parse history (start t0) ->
    steps JSON_parse history (start t0) = Normal s ->
    NoDup (socketsOf (players (world s))) /\
    (forall k p k' p',
        In (k, p) (players (world s)) -> In (k', p') (players (world s)) ->
        Player.ws p = Player.ws p' -> k = k' /\ p = p') /\
    (forall now ws,
        findBySocket ws (players (world (onClose now ws s))) = None /\
        world (onClose now ws (onClose now ws s)) = world (onClose now ws s)).
Proof.
  intros JSON_parse t0 history s Hfresh Hsteps.
  assert (Hgen : forall evs s0 s1,
             socketsFresh JSON_parse evs s0 ->
             steps JSON_parse evs s0 = Normal s1 ->
             consistent (world s0) /\ NoDup (socketsOf (players (world s0))) ->
             consistent (world s1) /\ NoDup (socketsOf (players (world s1)))).
  { induction evs as [|[now ev] rest IH]; intros s0 s1; cbn [steps socketsFresh].
    - intros _ [= <-]. auto.
    - intros [Hev Hrest].
      destruct (step JSON_parse now ev s0) as [s2|e] eqn:Hstep; [|discriminate].
      intros Hs Hinv. eapply IH; eauto. eapply distinct_step; eauto. }
  destruct (Hgen history (start t0) s Hfresh Hsteps) as [Hc Hnd].
  { split; [|constructor]. split; [constructor|intros k p []]. }
  split; [exact Hnd|]. split.
  - intros k p k' p' Hin Hin' Hws.
    assert (Heq : (k, p) = (k', p')).
    { apply (NoDup_map_eq _ _ (fun e => Player.ws (snd e)) (players (world s))); auto. }
    injection Heq as -> ->. auto.
  - intros now ws.
    assert (Hnone : findBySocket ws (players (world (onClose now ws s))) = None).
    { rewrite Connections.world_onClose.
      destruct (findBySocket ws (players (world s))) as [[k p]|] eqn:Hfind.
      - rewrite (Connections.removePlayerBySocket_found ws k p _ Hfind).
        now apply (findBySocket_deleted ws k p).
      - now rewrite (removePlayerBySocket_none ws (world s) Hfind). }
    split; [exact Hnone|].
    rewrite (Connections.world_onClose now ws (onClose now ws s)).
    now apply (removePlayerBySocket_none ws (world (onClose now ws s))).
Qed.

Lemma one_player_per_connection_witness :
  NoDup (socketsOf (players (world lounge))) /\
  findBySocket 1%nat (players (world (onClose 50 1%nat lounge))) = None.
Proof.
  destruct (one_player_per_connection toyParse 0%Z twoJoin lounge) as (Hnd & _ & Hclose).
  - cbn. repeat split; reflexivity.
  - reflexivity.
  - split; [exact Hnd|]. apply (Hclose 50%Z 1%nat).
Defined.


End Registry.

(** * More about the latency layer *)

Module Latency.

Import Server Vocabulary Measures Samples JsMapFacts.

(** *** A timer among the others *)

Section Timers.
Variable JSON_parse : string -> Completion JsValue.

Lemma fire_app (now : Z) (l1 l2 : list Timer) (s : Process) :
  fire JSON_parse now (l1 ++ l2) s
  = andThen (fire JSON_parse now l1 s) (fire JSON_parse now l2).
Proof.
  revert s. induction l1 as [|tm l1 IH]; intros s; cbn [app fire andThen]; [reflexivity|].
  destruct (due tm <=? now)%Z; [|apply IH].
  destruct (run JSON_parse (callback tm) s) as [s1|e]; [apply IH|reflexivity].
Qed.

Lemma run_setTimeout (t d : Z) (cb cb0 : Callback) (s : Process) :
  run JSON_parse cb0 (setTimeout t cb d s)
  = andThen (run JSON_parse cb0 s) (fun s' => Normal (setTimeout t cb d s')).
Proof.
  destruct cb0 as [ws data|ws data|ws msgStr]; cbn [run setTimeout readyState].
  - destruct (isOpen (readyState s ws)); reflexivity.
  - reflexivity.
  - unfold receive. destruct (JSON_parse msgStr); reflexivity.
Qed.

Lemma fire_setTimeout (now t d : Z) (cb : Callback) (pending : list Timer) (s : Process) :
  fire JSON_parse now pending (setTimeout t cb d s)
  = andThen (fire JSON_parse now pending s) (fun s' => Normal (setTimeout t cb d s')).
Proof.
  revert s. induction pending as [|tm rest IH]; intros s; cbn [fire andThen]; [reflexivity|].
  destruct (due tm <=? now)%Z; [|apply IH].
  rewrite run_setTimeout.
  destruct (run JSON_parse (callback tm) s) as [s1|e]; cbn [andThen]; [apply IH|reflexivity].
Qed.

Lemma filter_pending_app (now : Z) (l : list Timer) (tm : Timer) :
  filter (fun tm => negb (due tm <=? now)%Z) (l ++ [tm])
  = filter (fun tm => negb (due tm <=? now)%Z) l
    ++ (if (due tm <=? now)%Z then [] else [tm]).
Proof. rewrite filter_app. cbn. destruct (due tm <=? now)%Z; reflexivity. Qed.

(** A timer set at [t] for [d] milliseconds, seen from the next firing
    of the timers at [t']: too early, everything goes as if it were set
    afterwards; in time, it runs after all that was set before it. *)
Lemma runTimers_setTimeout (t d t' : Z) (cb : Callback) (s : Process) :
  runTimers JSON_parse t' (setTimeout t cb d s)
  = if (t + d <=? t')%Z
    then andThen (runTimers JSON_parse t' s) (run JSON_parse cb)
    else andThen (runTimers JSON_parse t' s) (fun s' => Normal (setTimeout t cb d s')).
Proof.
  unfold runTimers, keepPending.
  change (timers (setTimeout t cb d s)) with (timers s ++ [mkTimer (t + d) cb]).
  change (world (setTimeout t cb d s)) with (world s).
  change (readyState (setTimeout t cb d s)) with (readyState s).
  change (sendCalls (setTimeout t cb d s)) with (sendCalls s).
  change (warnings (setTimeout t cb d s)) with (warnings s).
  rewrite fire_app, filter_pending_app. cbn [due fire callback].
  destruct (t + d <=? t')%Z.
  - rewrite app_nil_r.
    destruct (fire JSON_parse t' (timers s) _) as [s1|e]; cbn [andThen]; [|reflexivity].
    destruct (run JSON_parse cb s1); reflexivity.
  - change (mkProcess (world s) (readyState s)
              (filter (fun tm => negb (due tm <=? t')%Z) (timers s)
               ++ [mkTimer (t + d) cb]) (sendCalls s) (warnings s))
      with (setTimeout t cb d
              (mkProcess (world s) (readyState s)
                 (filter (fun tm => negb (due tm <=? t')%Z) (timers s))
                 (sendCalls s) (warnings s))).
    rewrite fire_setTimeout.
    destruct (fire JSON_parse t' (timers s) _) as [s1|e]; reflexivity.
Qed.

End Timers.

(** X11. Both directions wait [LAG_MS].  A message from a client, or a
    message sent with [sendWithLag], has no effect when the timers fire
    less than [LAG_MS] after it came: the server goes on as if it came
    afterwards.  When the timers fire [LAG_MS] after it or later, it is
    handled after everything that was scheduled before it: the client's
    message is parsed and applied then, the server's message is sent then
    if the socket is still open. *)
Theorem messages_wait_for_the_lag :
  forall (JSON_parse : string -> Completion JsValue)
         (s : Process) (ws : Socket) (raw : string) (msgObj : ServerMsg) (t t' : Z),
    world (onMessage t ws raw s) = world s /\
    world (sendWithLag t ws msgObj s) = world s /\
    sendCalls (sendWithLag t ws msgObj s) = sendCalls s /\
    ((t' < t + LAG_MS)%Z ->
     runTimers JSON_parse t' (onMessage t ws raw s)
     = andThen (runTimers JSON_parse t' s) (fun s' => Normal (onMessage t ws raw s')) /\
     runTimers JSON_parse t' (sendWithLag t ws msgObj s)
     = andThen (runTimers JSON_parse t' s)
               (fun s' => Normal (sendWithLag t ws msgObj s'))) /\
    ((t + LAG_MS <= t')%Z ->
     runTimers JSON_parse t' (onMessage t ws raw s)
     = andThen (runTimers JSON_parse t' s) (receive JSON_parse ws raw) /\
     runTimers JSON_parse t' (sendWithLag t ws msgObj s)
     = andThen (runTimers JSON_parse t' s)
               (fun s' => if isOpen (readyState s' ws)
                          then Normal (wsSend ws msgObj s') else Normal s')).
Proof.
  intros JSON_parse s ws raw msgObj t t'.
  split; [reflexivity|]. split; [reflexivity|]. split; [reflexivity|]. split.
  - intros Hearly. unfold onMessage, sendWithLag. rewrite !runTimers_setTimeout.
    destruct (Z.leb_spec (t + LAG_MS) t') as [Hle|_]; [lia|]. split; reflexivity.
  - intros Hlate. unfold onMessage, sendWithLag. rewrite !runTimers_setTimeout.
    destruct (Z.leb_spec (t + LAG_MS) t') as [_|Hlt]; [|lia]. split; reflexivity.
Qed.

Lemma messages_wait_for_the_lag_witness :
  runTimers toyParse 1099 (onMessage 1000 12%nat "UP" lobby)
  = Normal (onMessage 1000 12%nat "UP" lobby) /\
  runTimers toyParse 1100 (onMessage 1000 12%nat "UP" lobby)
  = receive toyParse 12%nat "UP" lobby.
Proof.
  destruct (messages_wait_for_the_lag toyParse lobby 12%nat "UP" (MsgPlayerCount 3)
              1000%Z 1099%Z) as (_ & _ & _ & Hearly & _).
  destruct (messages_wait_for_the_lag toyParse lobby 12%nat "UP" (MsgPlayerCount 3)
              1000%Z 1100%Z) as (_ & _ & _ & _ & Hlate).
  split.
  - rewrite (proj1 (Hearly ltac:(unfold LAG_MS; lia))). reflexivity.
  - rewrite (proj1 (Hlate ltac:(unfold LAG_MS; lia))). reflexivity.
Defined.


(** *** A tick and its snapshots *)

Lemma process_eta (s : Process) :
  mkProcess (world s) (readyState s) (timers s) (sendCalls s) (warnings s) = s.
Proof. destruct s. reflexivity. Qed.


Lemma fire_sends (JSON_parse : string -> Completion JsValue) (now due0 : Z)
    (data : ServerMsg) (ps : list Player.t) (s : Process) :
  (due0 <= now)%Z ->
  fire JSON_parse now
       (map (fun p => mkTimer due0 (SendNow (Player.ws p) data)) ps) s
  = Normal (mkProcess (world s) (readyState s) (timers s)
              (sendCalls s ++
               map (fun p => mkSendCall (Player.ws p) (readyState s (Player.ws p)) data) ps)
              (warnings s)).
Proof.
  intros Hdue. revert s. induction ps as [|p rest IH]; intros s; cbn [map fire].
  - rewrite app_nil_r, process_eta. reflexivity.
  - cbn [due callback run]. destruct (Z.leb_spec due0 now) as [_|Hlt]; [|lia].
    rewrite IH. unfold wsSend. cbn [world readyState timers sendCalls warnings].
    rewrite <- app_assoc. reflexivity.
Qed.

Lemma fire_too_early (JSON_parse : string -> Completion JsValue) (now : Z)
    (pending : list Timer) (s : Process) :
  Forall (fun tm => (now < due tm)%Z) pending ->
  fire JSON_parse now pending s = Normal s.
Proof.
  induction 1 as [|tm rest Htm _ IH]; cbn [fire]; [reflexivity|].
  destruct (Z.leb_spec (due tm) now) as [Hle|_]; [lia|exact IH].
Qed.

Lemma pending_same_due (A : Type) (now due0 : Z) (f : A -> Callback) (l : list A) :
  filter (fun tm => negb (due tm <=? now)%Z) (map (fun a => mkTimer due0 (f a)) l)
  = if (due0 <=? now)%Z then [] else map (fun a => mkTimer due0 (f a)) l.
Proof.
  induction l as [|a l IH]; cbn [map filter due].
  - destruct (due0 <=? now)%Z; reflexivity.
  - rewrite IH. destruct (due0 <=? now)%Z; reflexivity.
Qed.




End Latency.

(** * The client's buffers over snapshots *)

Module Snapshots.

Import Server Vocabulary Measures Samples MoreSamples.
Local Open Scope R_scope.

Lemma last_skipn (A : Type) (k : nat) (l : list A) (d : A) :
  (k < List.length l)%nat -> last (skipn k l) d = last l d.
Proof.
  revert l. induction k as [|k IH]; intros l Hk.
  - reflexivity.
  - destruct l as [|a l]; [cbn in Hk; lia|].
    cbn [skipn]. cbn [List.length] in Hk.
    rewrite IH by lia.
    destruct l; [cbn in Hk; lia|reflexivity].
Qed.

Lemma last_lastN (A : Type) (n : nat) (l : list A) (d : A) :
  (0 < n)%nat -> l <> [] -> last (lastN n l) d = last l d.
Proof.
  intros Hn Hl. unfold lastN. apply last_skipn.
  destruct l; [congruence|]. cbn [List.length]. lia.
Qed.

Lemma wf_bufferSample (t : Z) (p : PlayerState) (bufs : JsMap.t (list Client.Sample)) :
  JsMap.wf bufs -> JsMap.wf (Client.bufferSample t p bufs).
Proof.
  intros Hwf. unfold Client.bufferSample.
  destruct (negb (JsMap.has (ps_id p) bufs)); cbv zeta;
    repeat apply JsMapFacts.wf_set; exact Hwf.
Qed.

Lemma wf_bufferSamples (t : Z) (players : list PlayerState)
    (bufs : JsMap.t (list Client.Sample)) :
  JsMap.wf bufs -> JsMap.wf (Client.bufferSamples t players bufs).
Proof.
  revert bufs. induction players as [|p rest IH]; intros bufs Hwf; [exact Hwf|].
  cbn [Client.bufferSamples]. apply IH, wf_bufferSample, Hwf.
Qed.

Lemma wf_cleanUp (present ids : list Z) (bufs : JsMap.t (list Client.Sample)) :
  JsMap.wf bufs -> JsMap.wf (Client.cleanUp present ids bufs).
Proof.
  revert bufs. induction ids as [|id rest IH]; intros bufs Hwf; [exact Hwf|].
  cbn [Client.cleanUp].
  destruct (negb (existsb (Z.eqb id) present)); apply IH; [|exact Hwf].
  apply JsMapFacts.wf_delete, Hwf.
Qed.

Lemma wf_handleStateSnapshot (localNow : Z) (s : Snapshot) (c : Client.State) :
  JsMap.wf (Client.playerBuffers c) ->
  JsMap.wf (Client.playerBuffers (Client.handleStateSnapshot localNow s c)).
Proof.
  intros Hwf. unfold Client.handleStateSnapshot. cbn [Client.playerBuffers].
  apply wf_cleanUp, wf_bufferSamples, Hwf.
Qed.

Lemma wf_feed (arrivals : list (Z * Snapshot)) (c : Client.State) :
  JsMap.wf (Client.playerBuffers c) ->
  JsMap.wf (Client.playerBuffers (feed arrivals c)).
Proof.
  revert c. induction arrivals as [|e rest IH]; intros c Hwf; [exact Hwf|].
  unfold feed. cbn [fold_left]. apply IH, wf_handleStateSnapshot, Hwf.
Qed.

Lemma samplesFor_listed (id : Z) (s : Snapshot) :
  samplesFor id s <> [] <-> In id (map ps_id (snap_players s)).
Proof.
  unfold samplesFor. split.
  - intros Hne.
    destruct (filter (fun p => Z.eqb (ps_id p) id) (snap_players s)) as [|p l] eqn:Hf;
      [now elim Hne|].
    assert (Hin : In p (filter (fun p => Z.eqb (ps_id p) id) (snap_players s)))
      by (rewrite Hf; now left).
    apply filter_In in Hin. destruct Hin as [Hin Hid].
    apply Z.eqb_eq in Hid. subst id. now apply in_map.
  - intros Hin Heq. apply in_map_iff in Hin. destruct Hin as (p & Hid & Hin).
    assert (Hf : In p (filter (fun p => Z.eqb (ps_id p) id) (snap_players s)))
      by (apply filter_In; split; [exact Hin|now apply Z.eqb_eq]).
    destruct (filter (fun p => Z.eqb (ps_id p) id) (snap_players s));
      [exact Hf|discriminate Heq].
Qed.

Lemma samplesFor_last (id : Z) (s : Snapshot) :
  samplesFor id s <> [] ->
  exists p others,
    In p (snap_players s) /\ ps_id p = id /\
    samplesFor id s = others ++ [sampleOf (serverTime s) p].
Proof.
  unfold samplesFor. intros Hne.
  destruct (exists_last (l := filter (fun p => Z.eqb (ps_id p) id) (snap_players s)))
    as (l' & p & Hl).
  - intros Heq. rewrite Heq in Hne. now elim Hne.
  - assert (Hin : In p (filter (fun p => Z.eqb (ps_id p) id) (snap_players s)))
      by (rewrite Hl; apply in_or_app; right; now left).
    apply filter_In in Hin. destruct Hin as [Hin Hid]. apply Z.eqb_eq in Hid.
    exists p, (map (sampleOf (serverTime s)) l').
    split; [exact Hin|]. split; [exact Hid|].
    rewrite Hl, map_app. reflexivity.
Qed.

(** The players that have a buffer after a snapshot. *)
Lemma has_after_snapshot (localNow id : Z) (snapshot : Snapshot) (c : Client.State) :
  JsMap.has id (Client.playerBuffers (Client.handleStateSnapshot localNow snapshot c)) = true <->
  In id (map ps_id (snap_players snapshot)).
Proof.
  unfold JsMap.has. rewrite Buffering.get_handleStateSnapshot.
  rewrite <- samplesFor_listed.
  destruct (samplesFor id snapshot); split; intros H; congruence.
Qed.

(** What a buffer holds after a snapshot. *)
Lemma buffer_after_snapshot (localNow id : Z) (snapshot : Snapshot) (c : Client.State)
    (buf : list Client.Sample) :
  JsMap.get id (Client.playerBuffers (Client.handleStateSnapshot localNow snapshot c))
  = Some buf ->
  buf <> [] /\
  exists p, In p (snap_players snapshot) /\ ps_id p = id /\
            forall d, last buf d = sampleOf (serverTime snapshot) p.
Proof.
  intros Hget. rewrite Buffering.get_handleStateSnapshot in Hget.
  destruct (samplesFor id snapshot) as [|s0 smps] eqn:Hs; [discriminate|].
  assert (Hne : samplesFor id snapshot <> []) by (rewrite Hs; discriminate).
  destruct (samplesFor_last id snapshot Hne) as (p & others & Hin & Hid & Hlast).
  rewrite <- Hs, Hlast in Hget. injection Hget as <-.
  assert (Hnil : bufOf id (Client.playerBuffers c) ++ others ++ [sampleOf (serverTime snapshot) p] <> []).
  { rewrite app_assoc. intros Heq. apply app_eq_nil in Heq.
    destruct Heq as [_ Heq]. discriminate Heq. }
  split.
  - intros Heq.
    pose proof (f_equal (@List.length _) Heq) as Hlen.
    unfold lastN in Hlen. rewrite length_skipn in Hlen.
    rewrite !length_app in Hlen. cbn [List.length] in Hlen. lia.
  - exists p. split; [exact Hin|]. split; [exact Hid|]. intros d.
    rewrite last_lastN by (lia || exact Hnil).
    rewrite app_assoc. apply last_last.
Qed.

(** X13. After a snapshot is handled, the client holds a buffer for exactly
    the players the snapshot lists: a listed player has one, nobody else
    has.  Every buffer holds at least one sample, and its newest sample is
    the position and score the snapshot gives for that player, stamped with
    the snapshot's server time.  The coins are those of the snapshot, the
    client's own id is untouched, and the keys of the buffer map stay
    pairwise distinct. *)
Theorem snapshot_sets_the_roster :
  forall (localNow : Z) (snapshot : Snapshot) (c : Client.State),
    let c' := Client.handleStateSnapshot localNow snapshot c in
    (forall id, JsMap.has id (Client.playerBuffers c') = true <->
                In id (map ps_id (snap_players snapshot))) /\
    (forall id buf,
        JsMap.get id (Client.playerBuffers c') = Some buf ->
        buf <> [] /\
        exists p, In p (snap_players snapshot) /\ ps_id p = id /\
                  forall d, last buf d = sampleOf (serverTime snapshot) p) /\
    Client.coinList c' = snap_coins snapshot /\
    Client.yourId c' = Client.yourId c /\
    (JsMap.wf (Client.playerBuffers c) -> JsMap.wf (Client.playerBuffers c')).
Proof.
  intros localNow snapshot c c'. subst c'.
  split; [|split; [|split; [reflexivity|split; [reflexivity|]]]].
  - intros id. apply has_after_snapshot.
  - intros id buf. apply buffer_after_snapshot.
  - apply wf_handleStateSnapshot.
Qed.

Lemma crowded_wf : JsMap.wf (Client.playerBuffers crowded).
Proof.
  unfold JsMap.wf. cbn. repeat constructor; cbn; intuition discriminate.
Qed.

Lemma snapshot_sets_the_roster_witness :
  JsMap.wf (Client.playerBuffers crowded) /\
  JsMap.wf (Client.playerBuffers (Client.handleStateSnapshot 250 duo crowded)) /\
  (JsMap.has 3 (Client.playerBuffers (Client.handleStateSnapshot 250 duo crowded)) = true <->
   In 3%Z (map ps_id (snap_players duo))).
Proof.
  split; [exact crowded_wf|]. split.
  - apply (snapshot_sets_the_roster 250 duo crowded). exact crowded_wf.
  - apply (snapshot_sets_the_roster 250 duo crowded).
Defined.

End Snapshots.

(** * What the client draws *)

Module Rendering.

Import Server Vocabulary Measures Samples MoreSamples.
Local Open Scope R_scope.

Lemma In_last (A : Type) (l : list A) (d : A) : l <> [] -> In (last l d) l.
Proof.
  induction l as [|a l IH]; intros Hne; [now elim Hne|].
  destruct l as [|b l]; [now left|].
  right. change (last (a :: b :: l) d) with (last (b :: l) d).
  apply IH. discriminate.
Qed.

(** The weight of the later sample lies between 0 and 1. *)
Lemma weight_between (T ta tb : R) :
  ta < T <= tb -> 0 <= (T - ta) / (tb - ta) <= 1.
Proof.
  intros [H1 H2].
  assert (HD : 0 < tb - ta) by lra.
  split.
  - apply Rmult_le_pos; [lra|]. left. now apply Rinv_0_lt_compat.
  - apply (Rmult_le_reg_r (tb - ta)); [exact HD|].
    unfold Rdiv. rewrite Rmult_assoc, Rinv_l by lra. lra.
Qed.

(** A buffer that is not empty always gives a state: one of its samples,
    or a blend of two neighbours [a], [b] with [a.time < T <= b.time]. *)
Lemma nonempty_found (id : Z) (T : R) (c : Client.State)
    (first : Client.Sample) (rest : list Client.Sample) :
  JsMap.get id (Client.playerBuffers c) = Some (first :: rest) ->
  (exists s, In s (first :: rest) /\
             Client.getInterpolatedPlayerState id T c = Client.Found s) \/
  (exists pre a b post,
      first :: rest = pre ++ a :: b :: post /\
      Client.time a < T <= Client.time b /\
      Client.getInterpolatedPlayerState id T c = Client.Found (blend T a b)).
Proof.
  intros Hget.
  destruct (Interpolation.interpolated_cases id T c first rest Hget) as (H1 & H2 & H3).
  destruct (Rle_dec T (Client.time first)) as [Hle|Hgt].
  - left. exists first. split; [now left|]. now apply H1.
  - destruct (Rge_dec T (Client.time (last (first :: rest) first))) as [Hge|Hlt].
    + left. exists (last (first :: rest) first). split.
      * apply In_last. discriminate.
      * apply H2; [lra|exact Hge].
    + right. destruct H3 as (pre & a & b & post & Hsplit & _ & Hab & _ & Hres); [lra|].
      exists pre, a, b, post. split; [exact Hsplit|]. split; [exact Hab|exact Hres].
Qed.

(** X16. Interpolation never goes past a neighbour.  For a buffer that is
    not empty, in whatever order its samples are, and any render time,
    [getInterpolatedPlayerState] returns a state, never [null] and never
    one whose coordinates are not numbers.  The state is a buffered sample
    as it is, or the blend of two neighbours [a], [b] of the buffer with
    [a.time < T <= b.time], whose weight [(T - a.time) / (b.time - a.time)]
    lies between 0 and 1.  Its score is the score of a buffered sample. *)
Theorem interpolation_stays_between_neighbours :
  forall (id : Z) (T : R) (c : Client.State) (buf : list Client.Sample),
    JsMap.get id (Client.playerBuffers c) = Some buf ->
    buf <> [] ->
    exists s,
      Client.getInterpolatedPlayerState id T c = Client.Found s /\
      In (Client.score s) (map Client.score buf) /\
      (In s buf \/
       exists pre a b post,
         buf = pre ++ a :: b :: post /\
         Client.time a < T <= Client.time b /\
         0 <= (T - Client.time a) / (Client.time b - Client.time a) <= 1 /\
         s = blend T a b).
Proof.
  intros id T c buf Hget Hne.
  destruct buf as [|first rest]; [now elim Hne|].
  destruct (nonempty_found id T c first rest Hget)
    as [(s & Hin & Hres)|(pre & a & b & post & Hsplit & Hab & Hres)].
  - exists s. split; [exact Hres|]. split; [now apply in_map|now left].
  - exists (blend T a b). split; [exact Hres|]. split.
    + unfold blend. cbn [Client.score]. apply in_map. rewrite Hsplit.
      apply in_or_app. right. right. now left.
    + right. exists pre, a, b, post.
      split; [exact Hsplit|]. split; [exact Hab|].
      split; [now apply weight_between|reflexivity].
Qed.

Lemma interpolation_stays_between_neighbours_witness :
  exists s,
    Client.getInterpolatedPlayerState 1 137 watching = Client.Found s /\
    In (Client.score s) (map Client.score [early; late]) /\
    (In s [early; late] \/
     exists pre a b post,
       [early; late] = pre ++ a :: b :: post /\
       Client.time a < 137 <= Client.time b /\
       0 <= (137 - Client.time a) / (Client.time b - Client.time a) <= 1 /\
       s = blend 137 a b).
Proof.
  apply (interpolation_stays_between_neighbours 1 137 watching [early; late]).
  - reflexivity.
  - discriminate.
Defined.

Lemma increasing_app_r (l1 l2 : list Client.Sample) :
  increasing (l1 ++ l2) -> increasing l2.
Proof.
  unfold increasing. induction l1 as [|a l1 IH]; intros H; [exact H|].
  cbn [app map] in H. apply StronglySorted_inv in H. apply IH, H.
Qed.

Lemma increasing_head_lt (a s : Client.Sample) (l : list Client.Sample) :
  increasing (a :: l) -> In s l -> Client.time a < Client.time s.
Proof.
  unfold increasing. cbn [map]. intros H Hin.
  apply StronglySorted_inv in H. destruct H as [_ Hall].
  rewrite Forall_forall in Hall. apply Hall. now apply in_map.
Qed.

Lemma increasing_last_max (l : list Client.Sample) (s d : Client.Sample) :
  increasing l -> In s l ->
  s = last l d \/ Client.time s < Client.time (last l d).
Proof.
  induction l as [|a l IH]; intros Hinc Hin; [destruct Hin|].
  destruct l as [|b l].
  - destruct Hin as [<-|[]]. now left.
  - change (last (a :: b :: l) d) with (last (b :: l) d).
    destruct Hin as [<-|Hin].
    + right. apply (increasing_head_lt a _ (b :: l) Hinc).
      apply In_last. discriminate.
    + apply IH; [|exact Hin].
      apply (increasing_app_r [a] (b :: l)). exact Hinc.
Qed.

(** X17. At the time of a sample the state carries that sample.  In a
    buffer whose timestamps grow strictly, asking for the time of a
    buffered sample gives a state with that time and the score of that
    sample; for the earliest and for the latest sample of the buffer it is
    the sample itself, position included; for a sample in between it is
    the blend of the sample before it and the sample, the weight being the
    quotient of [sample.time - before.time] by itself. *)
Theorem interpolation_at_sample_times :
  forall (id : Z) (c : Client.State) (first : Client.Sample)
         (rest : list Client.Sample) (s : Client.Sample),
    JsMap.get id (Client.playerBuffers c) = Some (first :: rest) ->
    increasing (first :: rest) ->
    In s (first :: rest) ->
    exists r,
      Client.getInterpolatedPlayerState id (Client.time s) c = Client.Found r /\
      Client.time r = Client.time s /\
      Client.score r = Client.score s /\
      (s = first \/ s = last (first :: rest) first -> r = s) /\
      (s <> first -> s <> last (first :: rest) first ->
       exists pre before post,
         first :: rest = pre ++ before :: s :: post /\
         r = blend (Client.time s) before s).
Proof.
  intros id c first rest s Hget Hinc Hin.
  destruct (Interpolation.interpolated_cases id (Client.time s) c first rest Hget)
    as (H1 & H2 & H3).
  destruct (Rle_dec (Client.time s) (Client.time first)) as [Hle|Hgt].
  - assert (Hs : s = first).
    { destruct Hin as [->|Hin]; [reflexivity|].
      pose proof (increasing_head_lt first s rest Hinc Hin). lra. }
    subst s. exists first. split; [now apply H1|].
    split; [reflexivity|]. split; [reflexivity|]. split; [reflexivity|].
    intros Hne. now elim Hne.
  - destruct (increasing_last_max (first :: rest) s first Hinc Hin) as [Heq|Hlt].
    + exists s. split; [rewrite H2; [now rewrite <- Heq|lra|rewrite <- Heq; lra]|].
      split; [reflexivity|]. split; [reflexivity|]. split; [reflexivity|].
      intros _ Hne. now elim Hne.
    + destruct H3 as (pre & a & b & post & Hsplit & Hpre & Hab & _ & Hres); [lra|].
      assert (Hb : b = s).
      { rewrite Hsplit in Hin, Hinc.
        apply in_app_or in Hin. destruct Hin as [Hin|[<-|[<-|Hin]]].
        - pose proof (Hpre s Hin). lra.
        - lra.
        - reflexivity.
        - assert (Hbp : increasing (b :: post))
            by (apply (increasing_app_r (pre ++ [a])); now rewrite <- app_assoc).
          pose proof (increasing_head_lt b s post Hbp Hin). lra. }
      subst b. exists (blend (Client.time s) a s). split; [exact Hres|].
      split; [reflexivity|]. split; [reflexivity|]. split.
      * intros [Heq|Heq]; exfalso; [rewrite Heq in Hgt|rewrite <- Heq in Hlt]; lra.
      * intros _ _. exists pre, a, post. split; [exact Hsplit|reflexivity].
Qed.

Lemma interpolation_at_sample_times_witness :
  exists r,
    Client.getInterpolatedPlayerState 1 (Client.time late) watching = Client.Found r /\
    Client.time r = Client.time late /\
    Client.score r = Client.score late /\
    (late = early \/ late = last [early; late] early -> r = late) /\
    (late <> early -> late <> last [early; late] early ->
     exists pre before post,
       [early; late] = pre ++ before :: late :: post /\
       r = blend (Client.time late) before late).
Proof.
  apply (interpolation_at_sample_times 1 watching early [late] late).
  - reflexivity.
  - exact Interpolation.watching_increasing.
  - right. now left.
Defined.

Lemma paintedIds_app (l1 l2 : list Screen.Shape) :
  Screen.paintedIds (l1 ++ l2) = Screen.paintedIds l1 ++ Screen.paintedIds l2.
Proof.
  induction l1 as [|sh l1 IH]; [reflexivity|].
  destruct sh; cbn [app Screen.paintedIds]; rewrite IH; reflexivity.
Qed.

Lemma paintedIds_coins (coins : list CoinState) :
  Screen.paintedIds (map (fun coin => Screen.CoinDisc (cs_x coin) (cs_y coin)) coins) = [].
Proof. induction coins as [|coin coins IH]; [reflexivity|exact IH]. Qed.

(** The loop over the buffers paints one disc for every buffer that is not
    empty, in the order of the map. *)
Lemma drawPlayers_stocked (T : R) (c : Client.State)
    (entries : list (Z * list Client.Sample)) :
  (forall id buf, In (id, buf) entries ->
     exists first rest, JsMap.get id (Client.playerBuffers c) = Some (first :: rest)) ->
  Screen.paintedIds (Screen.drawPlayers T c entries) = map fst entries /\
  forall sh, In sh (Screen.drawPlayers T c entries) ->
    exists id s, Client.getInterpolatedPlayerState id T c = Client.Found s /\
                 sh = Screen.PlayerDisc id (Client.x s) (Client.y s) (Screen.isYou id c).
Proof.
  induction entries as [|[id buf] rest IH]; intros Hall.
  - split; [reflexivity|]. intros sh [].
  - destruct IH as [IHids IHsh].
    { intros id' buf' Hin. apply (Hall id' buf'). now right. }
    destruct (Hall id buf (or_introl eq_refl)) as (first & others & Hget).
    assert (Hfound : exists s,
               Client.getInterpolatedPlayerState id T c = Client.Found s).
    { destruct (nonempty_found id T c first others Hget)
        as [(s & _ & Hres)|(pre & a & b & post & _ & _ & Hres)]; eauto. }
    destruct Hfound as (s & Hres).
    cbn [Screen.drawPlayers]. rewrite Hres. cbn [Screen.paintedIds map fst].
    split; [now rewrite IHids|].
    intros sh [<-|Hin]; [exists id, s; now split|now apply IHsh].
Qed.

(** X18. The frame after a snapshot.  Once a snapshot is handled, [render]
    paints, at any later clock reading: one disc for each player the
    snapshot lists and for nobody else, no player twice, none at a
    position that is not a number; one disc for each coin of the
    snapshot; and the hint to open another tab exactly when at most one
    player is painted. *)
Theorem render_paints_the_roster :
  forall (localNow renderNow : Z) (snapshot : Snapshot) (c : Client.State),
    JsMap.wf (Client.playerBuffers c) ->
    let c' := Client.handleStateSnapshot localNow snapshot c in
    let shapes := Screen.render renderNow c' in
    (forall id, In id (Screen.paintedIds shapes) <->
                In id (map ps_id (snap_players snapshot))) /\
    NoDup (Screen.paintedIds shapes) /\
    (forall id you, ~ In (Screen.PlayerNowhere id you) shapes) /\
    (forall x y, In (Screen.CoinDisc x y) shapes <->
                 exists coin, In coin (snap_coins snapshot) /\
                              cs_x coin = x /\ cs_y coin = y) /\
    (In Screen.Hint shapes <-> (List.length (Screen.paintedIds shapes) <= 1)%nat).
Proof.
  intros localNow renderNow snapshot c Hwf c' shapes.
  assert (Hhas := fun id => Snapshots.has_after_snapshot localNow id snapshot c).
  assert (Hbuf := fun id => Snapshots.buffer_after_snapshot localNow id snapshot c).
  assert (Hcoins : Client.coinList c' = snap_coins snapshot) by reflexivity.
  assert (Hwf' := Snapshots.wf_handleStateSnapshot localNow snapshot c Hwf).
  fold c' in Hhas, Hbuf, Hwf'.
  destruct (drawPlayers_stocked (Client.renderTime renderNow c') c'
              (JsMap.entries (Client.playerBuffers c'))) as [Hids Hsh].
  { intros id buf Hin.
    assert (Hkey : In id (JsMap.keys (Client.playerBuffers c')))
      by (apply in_map_iff; exists (id, buf); now split).
    apply JsMapFacts.has_true_keys in Hkey. unfold JsMap.has in Hkey.
    destruct (JsMap.get id (Client.playerBuffers c')) as [b|] eqn:Hget; [|discriminate].
    destruct (Hbuf id b Hget) as [Hne _].
    destruct b as [|first rest]; [now elim Hne|]. now exists first, rest. }
  assert (Hpainted : Screen.paintedIds shapes = JsMap.keys (Client.playerBuffers c')).
  { subst shapes. unfold Screen.render. cbv zeta.
    rewrite !paintedIds_app, paintedIds_coins, Hids.
    destruct (JsMap.size (Client.playerBuffers c') <=? 1)%Z; cbn; now rewrite app_nil_r. }
  assert (Hshapes : forall sh, In sh shapes <->
            In sh (map (fun coin => Screen.CoinDisc (cs_x coin) (cs_y coin))
                       (Client.coinList c')) \/
            In sh (Screen.drawPlayers (Client.renderTime renderNow c') c'
                     (JsMap.entries (Client.playerBuffers c'))) \/
            (sh = Screen.Hint /\ (JsMap.size (Client.playerBuffers c') <= 1)%Z)).
  { intros sh. subst shapes. unfold Screen.render. cbv zeta.
    rewrite !in_app_iff.
    destruct (Z.leb_spec (JsMap.size (Client.playerBuffers c')) 1) as [Hle|Hgt].
    - cbn [In]. intuition.
    - cbn [In]. intuition lia. }
  split; [|split; [|split; [|split]]].
  - intros id. rewrite Hpainted, <- Hhas. symmetry. apply JsMapFacts.has_true_keys.
  - rewrite Hpainted. exact Hwf'.
  - intros id you Hin. apply Hshapes in Hin. destruct Hin as [Hin|[Hin|[Hin _]]].
    + apply in_map_iff in Hin. destruct Hin as (coin & Heq & _). discriminate Heq.
    + destruct (Hsh _ Hin) as (id' & s & _ & Heq). discriminate Heq.
    + discriminate Hin.
  - intros x y. rewrite Hshapes, Hcoins. split.
    + intros [Hin|[Hin|[Hin _]]].
      * apply in_map_iff in Hin. destruct Hin as (coin & Heq & Hin).
        injection Heq as <- <-. now exists coin.
      * destruct (Hsh _ Hin) as (id' & s & _ & Heq). discriminate Heq.
      * discriminate Hin.
    + intros (coin & Hin & <- & <-). left.
      apply in_map_iff. now exists coin.
  - rewrite Hshapes, Hpainted. unfold JsMap.size, JsMap.keys. rewrite length_map.
    split.
    + intros [Hin|[Hin|[_ Hle]]].
      * apply in_map_iff in Hin. destruct Hin as (coin & Heq & _). discriminate Heq.
      * destruct (Hsh _ Hin) as (id' & s & _ & Heq). discriminate Heq.
      * lia.
    + intros Hle. right. right. split; [reflexivity|lia].
Qed.

Lemma render_paints_the_roster_witness :
  JsMap.wf (Client.playerBuffers crowded) /\
  NoDup (Screen.paintedIds
           (Screen.render 400 (Client.handleStateSnapshot 250 duo crowded))) /\
  (In 3%Z (Screen.paintedIds
             (Screen.render 400 (Client.handleStateSnapshot 250 duo crowded))) <->
   In 3%Z (map ps_id (snap_players duo))).
Proof.
  split; [exact Snapshots.crowded_wf|]. split.
  - apply (render_paints_the_roster 250 400 duo crowded Snapshots.crowded_wf).
  - apply (render_paints_the_roster 250 400 duo crowded Snapshots.crowded_wf).
Defined.


End Rendering.

(** * What the client sends *)

Module Keyboard.

Import Server Vocabulary Measures Samples MoreSamples.

Lemma changed_differ (i j : Input) : Controls.changed i j = true -> i <> j.
Proof.
  intros Hch ->. unfold Controls.changed in Hch.
  rewrite !xorb_nilpotent in Hch. discriminate Hch.
Qed.

Lemma unchanged_equal (i j : Input) : Controls.changed i j = false -> i = j.
Proof.
  destruct i as [u d l r], j as [u' d' l' r']. unfold Controls.changed. cbn.
  destruct u, u', d, d', l, l', r, r'; cbn; intros H; (reflexivity || discriminate H).
Qed.

Lemma inputMessage_inj (i j : Input) :
  Controls.inputMessage i = Controls.inputMessage j -> i = j.
Proof.
  destruct i, j. unfold Controls.inputMessage. cbn. intros H.
  injection H as -> -> -> ->. reflexivity.
Qed.

Lemma last_cons_default (A : Type) (d : A) (l : list A) : last (d :: l) d = last l d.
Proof. destruct l; reflexivity. Qed.

Lemma neighboursDiffer_one (A : Type) (a : A) : neighboursDiffer [a].
Proof.
  intros pre x y post Heq.
  apply (f_equal (@List.length A)) in Heq.
  rewrite length_app in Heq. cbn in Heq. lia.
Qed.

Lemma neighboursDiffer_snoc (A : Type) (l : list A) (d x : A) :
  neighboursDiffer l -> last l d <> x -> l <> [] -> neighboursDiffer (l ++ [x]).
Proof.
  intros Hl Hlast Hne pre a b post Heq.
  destruct post as [|p0 post0].
  - change (pre ++ [a; b]) with (pre ++ [a] ++ [b]) in Heq.
    rewrite app_assoc in Heq. apply app_inj_tail in Heq. destruct Heq as [-> ->].
    rewrite last_last in Hlast. exact Hlast.
  - destruct (@exists_last _ (p0 :: post0) ltac:(discriminate)) as (post' & y & Hp).
    rewrite Hp in Heq.
    change (pre ++ a :: b :: post' ++ [y]) with (pre ++ (a :: b :: post') ++ [y]) in Heq.
    rewrite app_assoc in Heq. apply app_inj_tail in Heq. destruct Heq as [-> _].
    now apply (Hl pre a b post').
Qed.

Lemma neighboursDiffer_tl (A : Type) (a : A) (l : list A) :
  neighboursDiffer (a :: l) -> neighboursDiffer l.
Proof.
  intros H pre x y post ->. now apply (H (a :: pre) x y post).
Qed.

Lemma neighboursDiffer_map (A B : Type) (f : A -> B) (l : list A) :
  (forall x y, f x = f y -> x = y) ->
  neighboursDiffer l -> neighboursDiffer (map f l).
Proof.
  intros Hinj Hl pre a b post Heq Hab.
  apply map_eq_app in Heq. destruct Heq as (pre' & l2 & -> & _ & Heq).
  apply map_eq_cons in Heq. destruct Heq as (a' & l3 & -> & <- & Heq).
  apply map_eq_cons in Heq. destruct Heq as (b' & post' & -> & <- & _).
  apply Hinj in Hab. now apply (Hl pre' a' b' post').
Qed.

Lemma tidy_sendInput (st : Controls.State) : tidy st -> tidy (Controls.sendInput st).
Proof.
  intros (inputs & Hout & Hdiff & Hlast). unfold Controls.sendInput.
  destruct (Controls.socket st) as [rs|]; [|now exists inputs].
  destruct (negb (isOpen rs)); [now exists inputs|].
  destruct (Controls.changed (Controls.inputState st) (Controls.lastSentInput st)) eqn:Hch;
    cbn [negb]; [|now exists inputs].
  exists (inputs ++ [Controls.inputState st]). cbn [Controls.outbox Controls.lastSentInput].
  split; [now rewrite map_app, Hout|]. split; [|apply last_last].
  change (neighboursDiffer ((Controls.lastSentInput Controls.initial :: inputs)
                            ++ [Controls.inputState st])).
  apply (neighboursDiffer_snoc _ _ (Controls.lastSentInput Controls.initial));
    [exact Hdiff| |discriminate].
  rewrite last_cons_default, Hlast.
  intros Heq. symmetry in Heq. revert Heq. now apply changed_differ.
Qed.

Lemma tidy_step (ev : Controls.Event) (st : Controls.State) :
  tidy st -> tidy (Controls.step ev st).
Proof.
  intros Ht. destruct ev as [key|key|rs]; cbn [Controls.step].
  - unfold Controls.keydown. destruct (Controls.keyField key); [|exact Ht].
    cbn [fst]. apply tidy_sendInput. exact Ht.
  - unfold Controls.keyup. destruct (Controls.keyField key); [|exact Ht].
    cbn [fst]. apply tidy_sendInput. exact Ht.
  - exact Ht.
Qed.

Lemma tidy_steps (evs : list Controls.Event) (st : Controls.State) :
  tidy st -> tidy (Controls.steps evs st).
Proof.
  revert st. induction evs as [|ev evs IH]; intros st Ht; [exact Ht|].
  unfold Controls.steps. cbn [fold_left]. apply IH, tidy_step, Ht.
Qed.

(** X19. The client never sends the same input twice in a row.  Whatever
    keys go down and up and however the socket changes state, everything
    in the outbox is an input message, no message equals the one sent just
    before it, the first message is not the all-false input the server
    starts from, and [lastSentInput] is the input of the newest message. *)
Theorem outbox_never_repeats :
  forall (evs : list Controls.Event),
    let st := Controls.steps evs Controls.initial in
    exists inputs,
      Controls.outbox st = map Controls.inputMessage inputs /\
      neighboursDiffer (Controls.outbox st) /\
      neighboursDiffer (mkInput false false false false :: inputs) /\
      last inputs (mkInput false false false false) = Controls.lastSentInput st.
Proof.
  intros evs st.
  destruct (tidy_steps evs Controls.initial) as (inputs & Hout & Hdiff & Hlast).
  { exists []. split; [reflexivity|]. split; [apply neighboursDiffer_one|reflexivity]. }
  fold st in Hout, Hlast.
  exists inputs. split; [exact Hout|]. split; [|split; [exact Hdiff|exact Hlast]].
  rewrite Hout. apply neighboursDiffer_map; [exact inputMessage_inj|].
  apply (neighboursDiffer_tl _ _ _ Hdiff).
Qed.

(** X20. With the socket open, a movement key going down or up leaves the
    server informed: the flag of the key is set or cleared, and afterwards
    [lastSentInput] equals [inputState].  A message goes out exactly when
    the flags differ from those sent last, and it carries the new flags.
    With the socket not open nothing is sent and [lastSentInput] stays. *)
Theorem key_events_keep_the_server_informed :
  forall (key : string) (down : bool) (st : Controls.State) (f : Controls.Field),
    Controls.keyField key = Some f ->
    let st' := fst ((if down then Controls.keydown else Controls.keyup) key st) in
    Controls.inputState st' = Controls.setField f down (Controls.inputState st) /\
    Controls.socket st' = Controls.socket st /\
    (Controls.socket st = Some OPEN ->
       Controls.lastSentInput st' = Controls.inputState st' /\
       (Controls.inputState st' = Controls.lastSentInput st ->
          Controls.outbox st' = Controls.outbox st) /\
       (Controls.inputState st' <> Controls.lastSentInput st ->
          Controls.outbox st' =
          Controls.outbox st ++ [Controls.inputMessage (Controls.inputState st')])) /\
    (Controls.socket st <> Some OPEN ->
       Controls.lastSentInput st' = Controls.lastSentInput st /\
       Controls.outbox st' = Controls.outbox st).
Proof.
  intros key down st f Hkey st'.
  assert (Hst' : st' = Controls.sendInput
                         (Controls.setInputState
                            (Controls.setField f down (Controls.inputState st)) st)).
  { subst st'. destruct down; unfold Controls.keydown, Controls.keyup;
      rewrite Hkey; reflexivity. }
  clearbody st'. subst st'.
  set (i := Controls.setField f down (Controls.inputState st)).
  unfold Controls.sendInput, Controls.setInputState.
  cbn [Controls.socket Controls.inputState Controls.lastSentInput Controls.outbox].
  destruct (Controls.socket st) as [rs|] eqn:Hsock.
  - destruct (isOpen rs) eqn:Hopen; cbn [negb].
    + destruct rs; try discriminate Hopen.
      destruct (Controls.changed i (Controls.lastSentInput st)) eqn:Hch; cbn [negb];
        cbn [Controls.socket Controls.inputState Controls.lastSentInput Controls.outbox].
      * split; [reflexivity|]. split; [reflexivity|]. split.
        -- intros _. split; [reflexivity|]. split; [|reflexivity].
           intros Heq. apply changed_differ in Hch. now elim Hch.
        -- intros Hne. now elim Hne.
      * apply unchanged_equal in Hch.
        split; [reflexivity|]. split; [reflexivity|]. split.
        -- intros _. split; [now symmetry|]. split; [reflexivity|].
           intros Hne. now elim Hne.
        -- intros Hne. now elim Hne.
    + cbn [Controls.socket Controls.inputState Controls.lastSentInput Controls.outbox].
      split; [reflexivity|]. split; [reflexivity|]. split.
      * intros Heq. injection Heq as ->. discriminate Hopen.
      * intros _. split; reflexivity.
  - cbn [Controls.socket Controls.inputState Controls.lastSentInput Controls.outbox].
    split; [reflexivity|]. split; [reflexivity|]. split.
    + intros Heq. discriminate Heq.
    + intros _. split; reflexivity.
Qed.

Lemma key_events_keep_the_server_informed_witness :
  Controls.keyField "ArrowUp" = Some Controls.FieldUp /\
  Controls.socket ready = Some OPEN /\
  Controls.lastSentInput (fst (Controls.keydown "ArrowUp" ready)) =
  Controls.inputState (fst (Controls.keydown "ArrowUp" ready)).
Proof.
  split; [reflexivity|]. split; [reflexivity|].
  apply (key_events_keep_the_server_informed "ArrowUp" true ready Controls.FieldUp
           eq_refl).
  reflexivity.
Defined.

End Keyboard.

(** * From the server's tick to the client's buffers *)

Module Replication.

Import Server Vocabulary Measures Samples MoreSamples.
Local Open Scope R_scope.

Lemma snapshot_player (now : Z) (w : World) (q : PlayerState) :
  consistent w ->
  In q (snap_players (makeSnapshot now w)) ->
  exists p, JsMap.get (ps_id q) (players w) = Some p /\
            sampleOf now q = seenAt now p.
Proof.
  intros [Hwf Hids] Hin. unfold makeSnapshot in Hin. cbn [snap_players] in Hin.
  apply in_map_iff in Hin. destruct Hin as (p & <- & Hin).
  unfold JsMap.values in Hin. apply in_map_iff in Hin.
  destruct Hin as ([k p'] & Heq & Hin). cbn [snd] in Heq. subst p'.
  destruct (Hids k p Hin) as [Hid _].
  exists p. cbn [ps_id]. rewrite Hid.
  split; [now apply JsMapFacts.In_get|reflexivity].
Qed.

(** X21. What a tick does reaches the client whole.  When a client handles
    the snapshot of a tick, it holds a buffer for exactly the players on
    the server's map after that tick, the newest sample of each buffer is
    that player's position and score on the server stamped with the time
    of the tick, and the client's coins are the server's coins, one for
    one and in the same order. *)
Theorem client_mirrors_the_tick :
  forall (now localNow : Z) (w : World) (c : Client.State),
    consistent w ->
    let w' := fst (gameLoop now w) in
    let c' := Client.handleStateSnapshot localNow (snd (gameLoop now w)) c in
    (forall id, JsMap.has id (Client.playerBuffers c') = true <->
                In id (JsMap.keys (players w'))) /\
    (forall id buf, JsMap.get id (Client.playerBuffers c') = Some buf ->
       exists p, JsMap.get id (players w') = Some p /\
                 forall d, last buf d = seenAt now p) /\
    Client.coinList c' =
      map (fun e => mkCoinState (Coin.id (snd e)) (Coin.x (snd e)) (Coin.y (snd e)))
          (coins w').
Proof.
  intros now localNow w c Hcons w' c'.
  assert (Hcons' : consistent w') by now apply Connections.consistent_gameLoop.
  assert (Hsnap : snd (gameLoop now w) = makeSnapshot now w')
    by apply Simulation.gameLoop_snapshot.
  subst c'. rewrite Hsnap. clearbody w'. clear Hsnap.
  split; [|split].
  - intros id. rewrite Snapshots.has_after_snapshot.
    now rewrite Connections.snapshot_ids.
  - intros id buf Hget.
    destruct (Snapshots.buffer_after_snapshot _ _ _ _ _ Hget) as [_ (q & Hin & Hid & Hlast)].
    destruct (snapshot_player now w' q Hcons' Hin) as (p & Hp & Heq).
    exists p. rewrite Hid in Hp. split; [exact Hp|].
    intros d. rewrite Hlast. exact Heq.
  - unfold Client.handleStateSnapshot.
    cbn [Client.coinList makeSnapshot snap_coins].
    unfold JsMap.values. now rewrite map_map.
Qed.

Lemma client_mirrors_the_tick_witness :
  consistent arena /\
  forall id,
    JsMap.has id (Client.playerBuffers
                    (Client.handleStateSnapshot 1140 (snd (gameLoop 1033 arena)) crowded))
    = true <->
    In id (JsMap.keys (players (fst (gameLoop 1033 arena)))).
Proof.
  split; [exact Registry.arena_consistent|].
  apply (client_mirrors_the_tick 1033 1140 arena crowded Registry.arena_consistent).
Defined.

Lemma filter_none (A : Type) (f : A -> bool) (l : list A) :
  (forall x, In x l -> f x = false) -> filter f l = [].
Proof.
  induction l as [|a l IH]; intros Hall; [reflexivity|].
  cbn [filter]. rewrite (Hall a (or_introl eq_refl)).
  apply IH. intros x Hx. apply Hall. now right.
Qed.

(** A snapshot that lists no player twice holds at most one sample for a
    player. *)
Lemma samplesFor_once (id : Z) (s : Snapshot) :
  listsOnce s ->
  samplesFor id s = [] \/
  exists p, In p (snap_players s) /\ samplesFor id s = [sampleOf (serverTime s) p].
Proof.
  unfold listsOnce, samplesFor. generalize (serverTime s). intros t.
  induction (snap_players s) as [|p l IH]; intros Hnd; [now left|].
  cbn [map] in Hnd. apply NoDup_cons_iff in Hnd. destruct Hnd as [Hnotin Hnd].
  cbn [filter]. destruct (Z.eqb_spec (ps_id p) id) as [Heq|Hne].
  - right. exists p. split; [now left|].
    rewrite filter_none; [reflexivity|].
    intros x Hx. apply Z.eqb_neq. intros Hid. apply Hnotin.
    rewrite Heq, <- Hid. now apply in_map.
  - destruct (IH Hnd) as [Hnil|(q & Hin & Hq)]; [now left|].
    right. exists q. split; [now right|exact Hq].
Qed.

Lemma increasing_snoc (buf : list Client.Sample) (x : Client.Sample) :
  increasing buf ->
  (forall s, In s buf -> Client.time s < Client.time x) ->
  increasing (buf ++ [x]).
Proof.
  unfold increasing. induction buf as [|a buf IH]; intros Hinc Hlt.
  - cbn. repeat constructor.
  - cbn [app map] in *. apply StronglySorted_inv in Hinc. destruct Hinc as [Hinc Hall].
    constructor.
    + apply IH; [exact Hinc|]. intros s Hs. apply Hlt. now right.
    + rewrite map_app. apply Forall_app. split; [exact Hall|].
      constructor; [|constructor]. apply Hlt. now left.
Qed.

Lemma lastN_suffix (A : Type) (n : nat) (l : list A) :
  exists pre, l = pre ++ lastN n l.
Proof.
  exists (firstn (List.length l - n) l). unfold lastN.
  symmetry. apply firstn_skipn.
Qed.

(** One snapshot later than everything buffered keeps the buffers in
    order. *)
Lemma upTo_handleStateSnapshot (localNow t : Z) (s : Snapshot) (c : Client.State) :
  upTo t (Client.playerBuffers c) ->
  (t < serverTime s)%Z ->
  listsOnce s ->
  upTo (serverTime s) (Client.playerBuffers (Client.handleStateSnapshot localNow s c)).
Proof.
  intros Hup Hlt Honce id buf Hget.
  rewrite Buffering.get_handleStateSnapshot in Hget.
  destruct (samplesFor_once id s Honce) as [Hnil|(p & _ & Hone)].
  - rewrite Hnil in Hget. discriminate Hget.
  - rewrite Hone in Hget. injection Hget as <-.
    assert (Hold : increasing (bufOf id (Client.playerBuffers c)) /\
                   forall x, In x (bufOf id (Client.playerBuffers c)) ->
                             Client.time x <= IZR t).
    { unfold bufOf. destruct (JsMap.get id (Client.playerBuffers c)) as [b|] eqn:Hb.
      - exact (Hup id b Hb).
      - split; [constructor|]. intros x []. }
    destruct Hold as [Hinc Hle].
    assert (Hlt' : IZR t < IZR (serverTime s)) by now apply IZR_lt.
    destruct (lastN_suffix _ 50 (bufOf id (Client.playerBuffers c) ++ [sampleOf (serverTime s) p]))
      as (pre & Hpre).
    split.
    + apply (Rendering.increasing_app_r pre). rewrite <- Hpre.
      apply increasing_snoc; [exact Hinc|].
      intros x Hx. specialize (Hle x Hx). cbn [sampleOf Client.time]. lra.
    + intros x Hx.
      assert (Hin : In x (bufOf id (Client.playerBuffers c) ++ [sampleOf (serverTime s) p]))
        by (rewrite Hpre; apply in_or_app; now right).
      apply in_app_or in Hin. destruct Hin as [Hin|[<-|[]]].
      * specialize (Hle x Hin). lra.
      * cbn [sampleOf Client.time]. lra.
Qed.

Lemma upTo_feed (arrivals : list (Z * Snapshot)) (t : Z) (c : Client.State) :
  upTo t (Client.playerBuffers c) ->
  Forall (fun e => (t < serverTime (snd e))%Z) arrivals ->
  StronglySorted Z.lt (map (fun e => serverTime (snd e)) arrivals) ->
  Forall (fun e => listsOnce (snd e)) arrivals ->
  exists t', upTo t' (Client.playerBuffers (feed arrivals c)).
Proof.
  revert t c. induction arrivals as [|e rest IH]; intros t c Hup Hlt Hsorted Honce.
  - now exists t.
  - unfold feed. cbn [fold_left].
    change (fold_left _ rest ?x) with (feed rest x).
    apply Forall_inv in Hlt. cbn [map] in Hsorted.
    apply StronglySorted_inv in Hsorted. destruct Hsorted as [Hsorted Hhead].
    apply (IH (serverTime (snd e))).
    + apply (upTo_handleStateSnapshot _ t); [exact Hup|exact Hlt|].
      now apply Forall_inv in Honce.
    + rewrite Forall_map in Hhead. exact Hhead.
    + exact Hsorted.
    + now apply Forall_inv_tail in Honce.
Qed.

(** X22. The buffers stay in the order of time.  When the snapshots a
    client handles carry strictly growing server times and none lists a
    player twice, as the snapshots of the server's ticks do, every buffer
    of the client has strictly growing timestamps and at most fifty
    samples, also for a player that left and came back. *)
Theorem buffers_stay_in_time_order :
  forall (arrivals : list (Z * Snapshot)),
    StronglySorted Z.lt (map (fun e => serverTime (snd e)) arrivals) ->
    Forall (fun e => listsOnce (snd e)) arrivals ->
    forall id buf,
      JsMap.get id (Client.playerBuffers (feed arrivals Client.initial)) = Some buf ->
      increasing buf /\ buf <> [] /\ (List.length buf <= 50)%nat.
Proof.
  intros arrivals Hsorted Honce id buf Hget.
  destruct arrivals as [|e rest]; [discriminate Hget|].
  destruct (upTo_feed (e :: rest) (serverTime (snd e) - 1) Client.initial)
    as (t' & Hup).
  - intros id' buf' H. discriminate H.
  - cbn [map] in Hsorted. apply StronglySorted_inv in Hsorted.
    destruct Hsorted as [_ Hhead]. rewrite Forall_map in Hhead.
    constructor; [lia|].
    eapply Forall_impl; [|exact Hhead]. cbn beta. intros a Ha. lia.
  - exact Hsorted.
  - exact Honce.
  - split; [exact (proj1 (Hup id buf Hget))|].
    destruct (exists_last (l := e :: rest)) as (front & e' & Heq); [discriminate|].
    rewrite Heq in Hget. unfold feed in Hget. rewrite fold_left_app in Hget.
    cbn [fold_left] in Hget.
    split.
    + exact (proj1 (Snapshots.buffer_after_snapshot _ _ _ _ _ Hget)).
    + rewrite Buffering.get_handleStateSnapshot in Hget.
      destruct (samplesFor id (snd e')); [discriminate Hget|].
      injection Hget as <-. apply Buffering.lastN_length.
Qed.

Lemma twoTicks_once : Forall (fun e => listsOnce (snd e)) twoTicks.
Proof.
  unfold twoTicks, listsOnce, duo.
  repeat constructor; cbn; intuition discriminate.
Qed.

Lemma twoTicks_sorted :
  StronglySorted Z.lt (map (fun e => serverTime (snd e)) twoTicks).
Proof. unfold twoTicks, duo. cbn. repeat constructor. Qed.

Lemma buffers_stay_in_time_order_witness :
  increasing [sampleOf 300 (mkPlayerState 2 40 50 1); sampleOf 333 (mkPlayerState 2 45 50 1)].
Proof.
  apply (buffers_stay_in_time_order twoTicks twoTicks_sorted twoTicks_once 2).
  reflexivity.
Defined.


End Replication.

(** * What the server tells its clients about the lobby *)

Module Greeting.

Import Server Vocabulary Measures Samples MoreSamples.

Lemma broadcast_fields (now : Z) (data : ServerMsg) (s : Process) :
  broadcast now data s
  = mkProcess (world s) (readyState s)
      (timers s ++
       map (fun p => mkTimer (now + LAG_MS) (SendNow (Player.ws p) data))
           (filter (fun p => isOpen (readyState s (Player.ws p)))
                   (JsMap.values (players (world s)))))
      (sendCalls s) (warnings s).
Proof.
  unfold broadcast.
  set (b := broadcastTo now (JsMap.values (players (world s))) data s).
  destruct (Connections.broadcastTo_frame now (JsMap.values (players (world s))) data s)
    as (Hw & Hr & Hs & Hwarn).
  pose proof (Connections.broadcastTo_timers now (JsMap.values (players (world s))) data s)
    as Ht.
  fold b in Hw, Hr, Hs, Hwarn, Ht.
  rewrite <- (Latency.process_eta b), Hw, Hr, Hs, Hwarn, Ht. reflexivity.
Qed.




(** X24. A connection is greeted.  With nothing else pending, [LAG_MS]
    after a connection the server has sent, in this order: to the new
    socket its [init] message, carrying the id of the player created for
    it, the size of the world and the lag; then the player count, which is
    the size of the map with the new player on it, once to every player
    whose socket is open, the new one among them.  Before [LAG_MS] has
    passed nothing of it is sent. *)
Theorem connection_is_greeted :
  forall (JSON_parse : string -> Completion JsValue) (s : Process) (now t' : Z)
         (ws : Socket) (rx ry : R),
    timers s = [] ->
    let player := fst (createPlayer ws rx ry (world s)) in
    let w' := snd (createPlayer ws rx ry (world s)) in
    let listeners :=
      filter (fun p => Nat.eqb (Player.ws p) ws || isOpen (readyState s (Player.ws p)))
             (JsMap.values (players w')) in
    In player listeners /\
    ((t' < now + LAG_MS)%Z ->
     exists s',
       runTimers JSON_parse t' (onConnection now ws rx ry s) = Normal s' /\
       sendCalls s' = sendCalls s /\ world s' = w') /\
    ((now + LAG_MS <= t')%Z ->
     exists s',
       runTimers JSON_parse t' (onConnection now ws rx ry s) = Normal s' /\
       world s' = w' /\ timers s' = [] /\
       sendCalls s' =
         sendCalls s ++
         mkSendCall ws OPEN
           (MsgInit (nextPlayerId (world s)) WORLD_WIDTH WORLD_HEIGHT LAG_MS)
         :: map (fun p => mkSendCall (Player.ws p) OPEN
                            (MsgPlayerCount (JsMap.size (players w'))))
                listeners).
Proof.
  intros JSON_parse s now t' ws rx ry Hnone player w' listeners.
  set (open := fun ws' => if Nat.eqb ws' ws then OPEN else readyState s ws').
  assert (Hl : filter (fun p => isOpen (open (Player.ws p))) (JsMap.values (players w'))
               = listeners).
  { subst listeners open. apply filter_ext. intros p. cbv beta.
    destruct (Nat.eqb (Player.ws p) ws); reflexivity. }
  assert (Hfields : onConnection now ws rx ry s
            = mkProcess w' open
                (mkTimer (now + LAG_MS)
                   (SendIfOpen ws (MsgInit (nextPlayerId (world s)) WORLD_WIDTH WORLD_HEIGHT LAG_MS))
                 :: map (fun p => mkTimer (now + LAG_MS)
                                    (SendNow (Player.ws p)
                                       (MsgPlayerCount (JsMap.size (players w')))))
                        listeners)
                (sendCalls s) (warnings s)).
  { unfold onConnection. subst w' player. rewrite <- Hl.
    destruct (createPlayer ws rx ry (world (setReadyState ws OPEN s))) as [pl w1] eqn:Hcp.
    change (world (setReadyState ws OPEN s)) with (world s) in Hcp.
    rewrite Hcp. cbn [fst snd].
    assert (Hid : Player.id pl = nextPlayerId (world s)).
    { unfold createPlayer in Hcp. injection Hcp as <- _. reflexivity. }
    rewrite broadcast_fields. unfold sendWithLag, setTimeout, setWorld, setReadyState.
    cbn [world readyState timers sendCalls warnings].
    rewrite Hnone, Hid. reflexivity. }
  split; [|split].
  - subst listeners. apply filter_In. split.
    + subst w' player. unfold createPlayer. cbn [fst snd players].
      unfold JsMap.values. apply in_map_iff.
      eexists (nextPlayerId (world s), _). split; [reflexivity|].
      apply JsMapFacts.get_In, JsMapFacts.get_set_same.
    + subst player. unfold createPlayer. cbn [fst Player.ws].
      now rewrite Nat.eqb_refl.
  - intros Hearly. rewrite Hfields.
    unfold runTimers, keepPending. cbn [timers world readyState sendCalls warnings].
    cbn [filter due fire]. rewrite Latency.pending_same_due.
    destruct (Z.leb_spec (now + LAG_MS) t') as [Hle|_]; [lia|]. cbn [negb].
    rewrite Latency.fire_too_early.
    + eexists. split; [reflexivity|]. split; reflexivity.
    + apply Forall_forall. intros tm Htm. apply in_map_iff in Htm.
      destruct Htm as [p [<- _]]. cbn. lia.
  - intros Hlate. rewrite Hfields.
    unfold runTimers, keepPending. cbn [timers world readyState sendCalls warnings].
    cbn [filter due fire callback run]. rewrite Latency.pending_same_due.
    destruct (Z.leb_spec (now + LAG_MS) t') as [_|Hlt]; [|lia]. cbn [negb].
    cbn [readyState]. unfold open at 1. rewrite Nat.eqb_refl. cbn [isOpen].
    unfold wsSend. cbn [world readyState timers sendCalls warnings].
    rewrite Latency.fire_sends by exact Hlate.
    cbn [world readyState timers sendCalls warnings].
    eexists. split; [reflexivity|]. cbn [world timers sendCalls].
    split; [reflexivity|]. split; [reflexivity|].
    unfold open at 1. rewrite Nat.eqb_refl. rewrite <- app_assoc. cbn [app].
    f_equal. f_equal.
    apply map_ext_in. intros p Hp. rewrite <- Hl in Hp.
    apply filter_In in Hp. destruct Hp as [_ Hopen].
    destruct (open (Player.ws p)); try discriminate. reflexivity.
Qed.

Lemma connection_is_greeted_witness :
  exists s',
    runTimers toyParse 1140 (onConnection 1040 14%nat (1 / 2) (1 / 2) quietLobby) = Normal s' /\
    map (fun c => target c) (sendCalls s') = [14%nat; 11%nat; 12%nat; 13%nat; 14%nat].
Proof.
  destruct (connection_is_greeted toyParse quietLobby 1040 1140 14%nat (1 / 2) (1 / 2) eq_refl)
    as (_ & _ & Hlate).
  destruct (Hlate ltac:(unfold LAG_MS; lia)) as (s' & Hrun & _ & _ & Hsent).
  exists s'. split; [exact Hrun|]. rewrite Hsent. reflexivity.
Defined.

End Greeting.

(** * The speed the server stores *)

Module Rounding.

Import Server Vocabulary Samples.
Local Open Scope R_scope.

Lemma hypot_lt (a b c : R) : 0 <= c -> a * a + b * b < c * c -> hypot a b < c.
Proof.
  intros Hc Hsq. pose proof (Simulation.hypot_square a b) as Hs.
  pose proof (Simulation.hypot_nonneg a b) as Hn.
  destruct (Rlt_dec (hypot a b) c) as [Hlt|Hge]; [exact Hlt|].
  exfalso. apply Rnot_lt_le in Hge. nra.
Qed.

Lemma hypot_ge (a b c : R) : 0 <= c -> c * c <= a * a + b * b -> c <= hypot a b.
Proof.
  intros Hc Hsq. pose proof (Simulation.hypot_square a b) as Hs.
  pose proof (Simulation.hypot_nonneg a b) as Hn.
  destruct (Rle_dec c (hypot a b)) as [Hle|Hgt]; [exact Hle|].
  exfalso. apply Rnot_le_lt in Hgt. nra.
Qed.

(** Reads the binary64 values of the goal as the fractions they are. *)
Ltac float_values :=
  repeat match goal with
  | |- context [Binary64.valueOf ?f] =>
      let sf := eval vm_compute in (Prim2SF f) in
      change (Binary64.valueOf f) with (Binary64.valueOfSF sf);
      cbv beta iota delta [Binary64.valueOfSF];
      repeat match goal with
      | |- context [(0 <=? ?e)%Z] =>
          let b := eval vm_compute in (0 <=? e)%Z in change (0 <=? e)%Z with b
      end;
      cbv beta iota;
      repeat match goal with
      | |- context [IZR (?a ^ ?b)%Z] =>
          let z := eval vm_compute in (a ^ b)%Z in change (a ^ b)%Z with z
      | |- context [IZR (?a * ?b)%Z] =>
          let z := eval vm_compute in (a * b)%Z in change (a * b)%Z with z
      end
  end.

(** Evaluates the direction and the velocity of the goal. *)
Ltac run_flags :=
  repeat match goal with
  | |- context [Binary64.velocity ?i] =>
      let p := eval vm_compute in (Binary64.velocity i) in
      change (Binary64.velocity i) with p
  | |- context [Binary64.direction ?i] =>
      let p := eval vm_compute in (Binary64.direction i) in
      change (Binary64.direction i) with p
  end;
  cbn [fst snd].

(** On the diagonal the server stores a velocity shorter than
    [PLAYER_SPEED]: the length of (155.56349186104043, 155.56349186104043)
    is not 220. *)
Lemma diagonal_speed_is_rounded :
  Binary64.velocity downRight = (0x1.3720820155763p+7%float, 0x1.3720820155763p+7%float) /\
  hypot (Binary64.valueOf 0x1.3720820155763p+7%float)
        (Binary64.valueOf 0x1.3720820155763p+7%float)
  <> PLAYER_SPEED.
Proof.
  split; [reflexivity|].
  assert (H : hypot (Binary64.valueOf 0x1.3720820155763p+7%float)
                    (Binary64.valueOf 0x1.3720820155763p+7%float) < PLAYER_SPEED).
  { apply hypot_lt; unfold PLAYER_SPEED; [lra|]. float_values. lra. }
  lra.
Qed.

(** C5. Whatever the four input flags, the direction the server computes
    has length at most 1.  With no key held without its opposite the
    velocity is zero.  Steering along one axis only, the length of the
    velocity stored is [PLAYER_SPEED] exactly.  Steering along both, it is
    [PLAYER_SPEED] up to the rounding of the three operations that make
    it: never above, and below by less than one part in 2^52
    (4503599627370496).  A diagonal is thus never faster than a straight
    line.  Lengths are the exact lengths of the binary64 values. *)
Theorem speed_is_uniform_up_to_rounding :
  forall (i : Input),
    let d := Binary64.direction i in
    let v := Binary64.velocity i in
    let speed := hypot (Binary64.valueOf (fst v)) (Binary64.valueOf (snd v)) in
    hypot (Binary64.valueOf (fst d)) (Binary64.valueOf (snd d)) <= 1 /\
    (steering i = false -> speed = 0) /\
    (steering i = true ->
       PLAYER_SPEED * (1 - 1 / 4503599627370496) <= speed <= PLAYER_SPEED) /\
    (xorb (left i) (right i) = negb (xorb (up i) (down i)) -> speed = PLAYER_SPEED) /\
    (xorb (left i) (right i) = true -> xorb (up i) (down i) = true ->
       speed < PLAYER_SPEED /\
       Rabs (Binary64.valueOf (fst v)) = Rabs (Binary64.valueOf (snd v))).
Proof.
  intros i d v speed. subst d v speed.
  destruct i as [[] [] [] []]; cbn [steering xorb orb negb up down left right];
    run_flags; float_values.
  all: split; [apply Simulation.hypot_le_iff; lra|].
  all: split; [first [discriminate | intros _; apply Simulation.hypot_eq; lra]|].
  all: split;
    [first [discriminate
           | intros _; unfold PLAYER_SPEED; split;
             [apply hypot_ge; lra | apply Simulation.hypot_le_iff; lra]]|].
  all: split;
    [first [discriminate | intros _; unfold PLAYER_SPEED; apply Simulation.hypot_eq; lra]|].
  all: first [discriminate | intros _; first [discriminate | intros _]].
  all: split; [apply hypot_lt; unfold PLAYER_SPEED; lra|].
  all: unfold Rabs; repeat destruct (Rcase_abs _); lra.
Qed.

Lemma speed_is_uniform_up_to_rounding_witness :
  steering downRight = true /\
  PLAYER_SPEED * (1 - 1 / 4503599627370496)
  <= hypot (Binary64.valueOf (fst (Binary64.velocity downRight)))
           (Binary64.valueOf (snd (Binary64.velocity downRight)))
  <= PLAYER_SPEED.
Proof.
  split; [reflexivity|].
  apply (speed_is_uniform_up_to_rounding downRight). reflexivity.
Defined.

End Rounding.
